(** * Logger documentation validator (Tools/autotest/logger_metadata/validate.py)

    A shallow embedding of the extraction-and-cross-reference engine of
    [validate.py]: the line-oriented scanners of [all_log_format_ids] and the
    cross-reference loop of [validate_logger_documentation], followed by the
    properties established about them.

    Text is modelled as [string] (a sequence of 8-bit characters).  Python's
    [\s] and [str.rstrip] are the white-space characters of the ASCII range
    (codes 9-13, 28-31 and 32) and [\w] is [[A-Za-z0-9_]]; characters above
    127 belong to neither class here.  Python [dict]s keyed by message name
    are [gmap string _], Python [set]s are [gset string], and every [print]
    of the validator is a constructor of [diag] carrying the interpolated
    values.  Where a comment quotes a pattern or a line of C++, the
    double-quote character is written ['].  *)

From Stdlib Require Import Ascii String List Bool Arith Lia.
From stdpp Require Import base option list gmap sets strings sorting.

Set Warnings "-comment-terminator-in-string,-clear-no-such-hyp".

(** ** Characters and Python string helpers *)

Definition dquote : ascii := "034"%char.
Definition newline : ascii := "010"%char.
Definition backslash : ascii := "\"%char.

Definition dq : string := String dquote "".
Definition nl : string := String newline "".

(** [\s] *)
Definition is_space (c : ascii) : bool :=
  let n := nat_of_ascii c in
  ((9 <=? n) && (n <=? 13)) || ((28 <=? n) && (n <=? 32)).

(** [\w] *)
Definition is_word (c : ascii) : bool :=
  let n := nat_of_ascii c in
  ((48 <=? n) && (n <=? 57)) || ((65 <=? n) && (n <=? 90))
  || ((97 <=? n) && (n <=? 122)) || (n =? 95).

(** [.] (without DOTALL) *)
Definition is_dot (c : ascii) : bool := negb (Ascii.eqb c newline).

Definition is_char (a : ascii) (c : ascii) : bool := Ascii.eqb c a.
Definition not_char (a : ascii) (c : ascii) : bool := negb (Ascii.eqb c a).
Definition either (p q : ascii → bool) (c : ascii) : bool := p c || q c.

(** every character of [s] satisfies [p] *)
Fixpoint all_chars (p : ascii → bool) (s : string) : bool :=
  match s with
  | EmptyString => true
  | String c s' => p c && all_chars p s'
  end.

Fixpoint strlen (s : string) : nat :=
  match s with
  | EmptyString => 0
  | String _ s' => S (strlen s')
  end.

Fixpoint take_str (n : nat) (s : string) : string :=
  match n, s with
  | S n', String c s' => String c (take_str n' s')
  | _, _ => ""
  end.

Fixpoint drop_str (n : nat) (s : string) : string :=
  match n, s with
  | S n', String _ s' => drop_str n' s'
  | _, _ => s
  end.

(** [s.startswith(p)], returning the rest of [s] *)
Fixpoint strip_prefix (p s : string) : option string :=
  match p, s with
  | EmptyString, _ => Some s
  | String a p', String b s' => if Ascii.eqb a b then strip_prefix p' s' else None
  | String _ _, EmptyString => None
  end.

(** [needle in hay] *)
Fixpoint contains (needle hay : string) : bool :=
  match strip_prefix needle hay with
  | Some _ => true
  | None =>
      match hay with
      | EmptyString => false
      | String _ hay' => contains needle hay'
      end
  end.

(** [s.rstrip()] *)
Fixpoint rstrip (s : string) : string :=
  match s with
  | EmptyString => ""
  | String c s' =>
      match rstrip s' with
      | EmptyString => if is_space c then "" else String c ""
      | t => String c t
      end
  end.

(** [s.split(sep)] for a one-character separator: [split_go] carries the
    field being read (reversed). *)
Fixpoint split_go (sep : ascii) (cur : string) (s : string) : list string :=
  match s with
  | EmptyString => [String.rev cur]
  | String c s' =>
      if Ascii.eqb c sep then String.rev cur :: split_go sep "" s'
      else split_go sep (String c cur) s'
  end.

Definition split (sep : ascii) (s : string) : list string := split_go sep "" s.

(** [sorted(xs)] on strings *)
Definition sorted (xs : list string) : list string := merge_sort String.le xs.

(** ** Regular expressions

    The fragment of Python's [re] syntax that the script uses: literals,
    character classes, greedy repetition of a class, optional
    sub-expressions, alternation, numbered capturing groups and [$].  The
    matcher is the backtracking one of [re]: alternatives are tried in
    order, repetition takes as many characters as it can and gives them
    back one at a time, and the first complete match wins. *)

Inductive regex : Type :=
| Lit (s : string)
| Cls (p : ascii → bool)
| Star (p : ascii → bool)
| Plus (p : ascii → bool)
| Opt (r : regex)
| Alt (r1 r2 : regex)
| Seq (r1 r2 : regex)
| Group (i : nat) (r : regex)
| Eos.

Declare Scope regex_scope.
Delimit Scope regex_scope with re.
Bind Scope regex_scope with regex.
Infix "⋅" := Seq (at level 41, right associativity) : regex_scope.

(** The captures made so far, most recent first. *)
Definition captures : Type := list (nat * string).

Fixpoint group (i : nat) (caps : captures) : string :=
  match caps with
  | [] => ""
  | (j, s) :: caps' => if Nat.eqb i j then s else group i caps'
  end.

Section Matcher.
Context {A : Type}.

(** greedy [p*] followed by the continuation [k] *)
Fixpoint star (p : ascii → bool) (s : string) (k : string → option A) : option A :=
  match s with
  | String c s' =>
      if p c then
        match star p s' k with
        | Some x => Some x
        | None => k s
        end
      else k s
  | EmptyString => k s
  end.

Fixpoint rmatch (r : regex) (s : string) (caps : captures)
    (k : string → captures → option A) : option A :=
  match r with
  | Lit l =>
      match strip_prefix l s with
      | Some s' => k s' caps
      | None => None
      end
  | Cls p =>
      match s with
      | String c s' => if p c then k s' caps else None
      | EmptyString => None
      end
  | Star p => star p s (λ s', k s' caps)
  | Plus p =>
      match s with
      | String c s' => if p c then star p s' (λ s'', k s'' caps) else None
      | EmptyString => None
      end
  | Opt r1 =>
      match rmatch r1 s caps k with
      | Some x => Some x
      | None => k s caps
      end
  | Alt r1 r2 =>
      match rmatch r1 s caps k with
      | Some x => Some x
      | None => rmatch r2 s caps k
      end
  | Seq r1 r2 => rmatch r1 s caps (λ s' caps', rmatch r2 s' caps' k)
  | Group i r1 =>
      rmatch r1 s caps
        (λ s' caps', k s' ((i, take_str (strlen s - strlen s') s) :: caps'))
  | Eos =>
      match s with
      | EmptyString => k s caps
      | String c EmptyString => if Ascii.eqb c newline then k s caps else None
      | _ => None
      end
  end.
End Matcher.

(** The match object of [re.match(r, s)]: the captures of the first match
    anchored at the start of [s], and the text after the match. *)
Definition match_at (r : regex) (s : string) : option (captures * string) :=
  rmatch r s [] (λ s' caps, Some (caps, s')).

(** [re.match(r, s)], as its captures *)
Definition re_match (r : regex) (s : string) : option captures :=
  fst <$> match_at r s.

(** [m.end()] for [m = re.match(r, s)] *)
Definition match_len (r : regex) (s : string) : option nat :=
  (λ m, strlen s - strlen m.2) <$> match_at r s.

(** [re.search(r, s) is not None] *)
Fixpoint re_search (r : regex) (s : string) : bool :=
  match match_at r s with
  | Some _ => true
  | None =>
      match s with
      | EmptyString => false
      | String _ s' => re_search r s'
      end
  end.

(** [re.sub(r, repl, s)] for a literal replacement [repl]: scan from the
    left, replace each match and resume after it.  [skip] counts the
    characters of the current match still to be dropped. *)
Fixpoint sub_go (r : regex) (repl : string) (skip : nat) (s : string) : string :=
  match s with
  | EmptyString =>
      match skip, match_len r "" with
      | 0, Some _ => repl
      | _, _ => ""
      end
  | String c s' =>
      match skip with
      | S n => sub_go r repl n s'
      | 0 =>
          match match_len r s with
          | Some (S n) => repl +:+ sub_go r repl n s'
          | Some 0 => repl +:+ String c (sub_go r repl 0 s')
          | None => String c (sub_go r repl 0 s')
          end
      end
  end.

Definition re_sub (r : regex) (repl : string) (s : string) : string :=
  sub_go r repl 0 s.

(** ** Exceptions

    Every [raise] of [all_log_format_ids] and [find_format_defines] is a
    constructor of [error]; a computation that may raise returns a
    [result]. *)

Inductive error : Type :=
| DuplicateDefine (name : string)
| ExpectedBackslash
| MustBeLinestateNone
| BadLine (line : string)
| ShouldNotBeInside
| AlreadySeen (name : string)
| ExpectedOutside
| DidNotMatch (statement : string)
| AlreadyHaveId (name : string)
| NoIds.

Inductive result (A : Type) : Type :=
| Ok (a : A)
| Raise (e : error).
Arguments Ok {A} a.
Arguments Raise {A} e.

Global Instance result_ret : MRet result := λ A a, Ok a.
Global Instance result_bind : MBind result := λ A B f r,
  match r with
  | Ok a => f a
  | Raise e => Raise e
  end.

Definition raises {A : Type} (r : result A) : Prop := ∃ e, r = Raise e.

(** ** The patterns of the script *)

Local Open Scope regex_scope.

(** Pattern "#define (\w+_(?:LABELS|FMT|UNITS|MULTS))\s+('.*')" *)
Definition re_define : regex :=
  Lit "#define "
  ⋅ Group 1 (Plus is_word ⋅ Lit "_"
             ⋅ Alt (Lit "LABELS") (Alt (Lit "FMT") (Alt (Lit "UNITS") (Lit "MULTS"))))
  ⋅ Plus is_space
  ⋅ Group 2 (Lit dq ⋅ Star is_dot ⋅ Lit dq).

(** Pattern "//.*" *)
Definition re_comment : regex := Lit "//" ⋅ Star is_dot.

(** Pattern "\s*$" *)
Definition re_blank : regex := Star is_space ⋅ Eos.

(** Patterns "#define LOG_STRUCTURE_FROM_.*" and "#define LOG_RTC_MESSAGE.*" *)
Definition re_structure_from : regex := Lit "#define LOG_STRUCTURE_FROM_" ⋅ Star is_dot.
Definition re_rtc_message : regex := Lit "#define LOG_RTC_MESSAGE" ⋅ Star is_dot.

(** Pattern "\s*{(.*)},\s*" *)
Definition re_entry : regex :=
  Star is_space ⋅ Lit "{" ⋅ Group 1 (Star is_dot) ⋅ Lit "}," ⋅ Star is_space.

(** Pattern "\s*{(.*)\\\s*$" *)
Definition re_entry_open : regex :=
  Star is_space ⋅ Lit "{" ⋅ Group 1 (Star is_dot) ⋅ Lit "\" ⋅ Star is_space ⋅ Eos.

(** Pattern "(.*)}[,\s\\]*$" *)
Definition re_entry_close : regex :=
  Group 1 (Star is_dot) ⋅ Lit "}"
  ⋅ Star (either (is_char ",") (either is_space (is_char backslash))) ⋅ Eos.

(** Pattern "\\$" *)
Definition re_trailing_backslash : regex := Lit "\" ⋅ Eos.

(** Pattern "'\s*'" *)
Definition re_string_concat : regex := Lit dq ⋅ Star is_space ⋅ Lit dq.

(** Pattern "};" *)
Definition re_table_end : regex := Lit "};".

(** Pattern "\s*{(.*)" *)
Definition re_vehicle_entry_open : regex :=
  Star is_space ⋅ Lit "{" ⋅ Group 1 (Star is_dot).

(** Pattern "(.*)},?\s*$" *)
Definition re_vehicle_entry_close : regex :=
  Group 1 (Star is_dot) ⋅ Lit "}" ⋅ Opt (Lit ",") ⋅ Star is_space ⋅ Eos.

(** Patterns "\s*,\s*" and "'(...)'", the building blocks of the two grammars *)
Definition comma : regex := Star is_space ⋅ Lit "," ⋅ Star is_space.
Definition quoted (i : nat) (r : regex) : regex := Lit dq ⋅ Group i r ⋅ Lit dq.

(** Pattern "\s*LOG_\w+\s*,\s*(?:sizeof|RLOG_SIZE)\([^)]+\)\s*,\s*'(\w+)'\s*,\s*'(\w+)'\s*,\s*'([\w,]+)'\s*,\s*'([^']*)'\s*,\s*'([^']*)'\s*(,\s*(true|false))?\s*$" *)
Definition re_structure : regex :=
  Star is_space ⋅ Lit "LOG_" ⋅ Plus is_word ⋅ comma
  ⋅ Alt (Lit "sizeof") (Lit "RLOG_SIZE") ⋅ Lit "(" ⋅ Plus (not_char ")") ⋅ Lit ")" ⋅ comma
  ⋅ quoted 1 (Plus is_word) ⋅ comma
  ⋅ quoted 2 (Plus is_word) ⋅ comma
  ⋅ quoted 3 (Plus (either is_word (is_char ","))) ⋅ comma
  ⋅ quoted 4 (Star (not_char dquote)) ⋅ comma
  ⋅ quoted 5 (Star (not_char dquote)) ⋅ Star is_space
  ⋅ Opt (Group 6 (Lit "," ⋅ Star is_space ⋅ Group 7 (Alt (Lit "true") (Lit "false"))))
  ⋅ Star is_space ⋅ Eos.

(** Pattern "\s*AP::logger\(\)[.]Write(?:Streaming)?\(" *)
Definition re_call_open_ap : regex :=
  Star is_space ⋅ Lit "AP::logger()" ⋅ Lit "." ⋅ Lit "Write" ⋅ Opt (Lit "Streaming") ⋅ Lit "(".

(** Pattern "\s*logger[.]Write(?:Streaming)?\(" *)
Definition re_call_open_logger : regex :=
  Star is_space ⋅ Lit "logger" ⋅ Lit "." ⋅ Lit "Write" ⋅ Opt (Lit "Streaming") ⋅ Lit "(".

(** Pattern ".*\);" *)
Definition re_terminator : regex := Star is_dot ⋅ Lit ");".

(** Pattern "\s+" *)
Definition re_spaces : regex := Plus is_space.

(** Pattern " logger[.]Write(?:Streaming)?\(\s*'(\w+)'\s*,\s*'([\w,]+)'.*\);" *)
Definition re_call_logger : regex :=
  Lit " logger" ⋅ Lit "." ⋅ Lit "Write" ⋅ Opt (Lit "Streaming") ⋅ Lit "(" ⋅ Star is_space
  ⋅ quoted 1 (Plus is_word) ⋅ comma
  ⋅ quoted 2 (Plus (either is_word (is_char ","))) ⋅ Star is_dot ⋅ Lit ");".

(** Pattern " AP::logger\(\)[.]Write(?:Streaming)?\(\s*'(\w+)'\s*,\s*'([\w,]+)'.*\);" *)
Definition re_call_ap : regex :=
  Lit " AP::logger()" ⋅ Lit "." ⋅ Lit "Write" ⋅ Opt (Lit "Streaming") ⋅ Lit "(" ⋅ Star is_space
  ⋅ quoted 1 (Plus is_word) ⋅ comma
  ⋅ quoted 2 (Plus (either is_word (is_char ","))) ⋅ Star is_dot ⋅ Lit ");".

Local Close Scope regex_scope.

Definition matches (r : regex) (s : string) : bool := bool_decide (is_Some (re_match r s)).

(** ** find_format_defines

    The macro table is a Python [dict] that is later iterated in insertion
    order, so it is an association list; [find_format_defines] keeps its
    keys distinct. *)

Definition defines_table : Type := list (string * string).

Fixpoint lookup_define (a : string) (ret : defines_table) : option string :=
  match ret with
  | [] => None
  | (a', b) :: ret' => if String.eqb a a' then Some b else lookup_define a ret'
  end.

Fixpoint find_format_defines_go (lines : list string) (ret : defines_table)
    : result defines_table :=
  match lines with
  | [] => Ok ret
  | line :: lines' =>
      match re_match re_define line with
      | None => find_format_defines_go lines' ret
      | Some m =>
          let a := group 1 m in
          let b := group 2 m in
          match lookup_define a ret with
          | Some _ => Raise (DuplicateDefine a)
          | None => find_format_defines_go lines' (ret ++ [(a, b)])
          end
      end
  end.

Definition find_format_defines (lines : list string) : result defines_table :=
  find_format_defines_go lines [].

(** [for define in defines: text = re.sub(define, defines[define], text)].
    A define name consists of word characters, so as a pattern it is a
    literal.  The replacement is the define's value taken literally: [re]
    would process backslash escapes in it, so this is [re.sub] for values
    without a backslash. *)
Fixpoint apply_defines (defines : defines_table) (text : string) : string :=
  match defines with
  | [] => text
  | (define, value) :: defines' => apply_defines defines' (re_sub (Lit define) value text)
  end.

(** ** all_log_format_ids: the struct-table scanners *)

Inductive scan_state : Type := STATE_OUTSIDE | STATE_INSIDE.
Inductive line_state : Type := LINESTATE_NONE | LINESTATE_WITHIN.

Global Instance scan_state_eq_dec : EqDecision scan_state.
Proof. solve_decision. Defined.
Global Instance line_state_eq_dec : EqDecision line_state.
Proof. solve_decision. Defined.

(** The variables of the scanning loops: [state], [linestate],
    [partial_line] and the list [message_infos]. *)
Record table_scan : Type := TableScan {
  state : scan_state;
  linestate : line_state;
  partial_line : string;
  message_infos : list string;
}.

(** One iteration of the loop over the lines of a [LogStructure.h] file
    (lines 92-150). *)
Definition structure_line (st : table_scan) (line : string) : result table_scan :=
  let line := re_sub re_comment "" line in
  if matches re_blank line then Ok st
  else
    match state st with
    | STATE_OUTSIDE =>
        if contains "#define LOG_COMMON_STRUCTURES" line
           || matches re_structure_from line
           || matches re_rtc_message line
        then Ok (TableScan STATE_INSIDE (linestate st) (partial_line st) (message_infos st))
        else Ok st
    | STATE_INSIDE =>
        match linestate st with
        | LINESTATE_NONE =>
            if contains "LOG_STRUCTURE_FROM_" line || contains "LOG_RTC_MESSAGE" line
            then Ok st
            else
              match re_match re_entry line with
              | Some m =>
                  Ok (TableScan STATE_INSIDE LINESTATE_NONE (partial_line st)
                        (message_infos st ++ [group 1 m]))
              | None =>
                  match re_match re_entry_open line with
                  | None =>
                      Ok (TableScan STATE_OUTSIDE LINESTATE_NONE (partial_line st)
                            (message_infos st))
                  | Some m =>
                      Ok (TableScan STATE_INSIDE LINESTATE_WITHIN (group 1 m)
                            (message_infos st))
                  end
              end
        | LINESTATE_WITHIN =>
            match re_match re_entry_close line with
            | None =>
                let line := rstrip line in
                let newline := re_sub re_trailing_backslash "" line in
                if String.eqb newline line then Raise ExpectedBackslash
                else
                  let line := rstrip newline in
                  let line := re_sub re_string_concat "" line in
                  Ok (TableScan STATE_INSIDE LINESTATE_WITHIN (partial_line st +:+ line)
                        (message_infos st))
            | Some m =>
                Ok (TableScan STATE_INSIDE LINESTATE_NONE (partial_line st)
                      (message_infos st ++ [partial_line st +:+ group 1 m]))
            end
        end
    end.

Fixpoint structure_lines (lines : list string) (st : table_scan) : result table_scan :=
  match lines with
  | [] => Ok st
  | line :: lines' => st' ← structure_line st line; structure_lines lines' st'
  end.

(** The body of the loop over [structure_files] (lines 86-153): [state]
    and [linestate] start afresh in every file, [partial_line] and
    [message_infos] are carried along. *)
Definition structure_file (lines : list string) (st : table_scan) : result table_scan :=
  st' ← structure_lines lines
          (TableScan STATE_OUTSIDE LINESTATE_NONE (partial_line st) (message_infos st));
  if decide (linestate st' ≠ LINESTATE_NONE) then Raise MustBeLinestateNone
  else Ok st'.

Fixpoint structure_files_scan (files : list (list string)) (st : table_scan)
    : result table_scan :=
  match files with
  | [] => Ok st
  | f :: files' => st' ← structure_file f st; structure_files_scan files' st'
  end.

(** One iteration of the loop over the lines of the vehicle's [Log.cpp]
    (lines 160-218); the Boolean is [true] when the iteration ends in
    [break]. *)
Definition vehicle_line (st : table_scan) (line : string) : result (table_scan * bool) :=
  let line := re_sub re_comment "" line in
  if matches re_blank line then Ok (st, false)
  else
    match state st with
    | STATE_OUTSIDE =>
        if contains "const LogStructure" line || contains "const struct LogStructure" line
        then Ok (TableScan STATE_INSIDE (linestate st) (partial_line st) (message_infos st),
                 false)
        else Ok (st, false)
    | STATE_INSIDE =>
        if matches re_table_end line
        then Ok (TableScan STATE_OUTSIDE (linestate st) (partial_line st) (message_infos st),
                 true)
        else
          match linestate st with
          | LINESTATE_NONE =>
              if contains "#if HAL_QUADPLANE_ENABLED" line then Ok (st, false)
              else if contains "#if FRAME_CONFIG == HELI_FRAME" line then Ok (st, false)
              else if contains "#if AC_PRECLAND_ENABLED" line then Ok (st, false)
              else if contains "#if AP_PLANE_OFFBOARD_GUIDED_SLEW_ENABLED" line
                   then Ok (st, false)
              else if contains "#end" line then Ok (st, false)
              else if contains "LOG_COMMON_STRUCTURES" line then Ok (st, false)
              else
                match re_match re_entry line with
                | Some m =>
                    Ok (TableScan STATE_INSIDE LINESTATE_NONE (partial_line st)
                          (message_infos st ++ [group 1 m]), false)
                | None =>
                    match re_match re_vehicle_entry_open line with
                    | None => Raise (BadLine line)
                    | Some m =>
                        Ok (TableScan STATE_INSIDE LINESTATE_WITHIN (group 1 m)
                              (message_infos st), false)
                    end
                end
          | LINESTATE_WITHIN =>
              match re_match re_vehicle_entry_close line with
              | None =>
                  let line := rstrip line in
                  let line := re_sub re_trailing_backslash "" line in
                  let line := rstrip line in
                  let line := re_sub re_string_concat "" line in
                  Ok (TableScan STATE_INSIDE LINESTATE_WITHIN (partial_line st +:+ line)
                        (message_infos st), false)
              | Some m =>
                  Ok (TableScan STATE_INSIDE LINESTATE_NONE (partial_line st)
                        (message_infos st ++ [partial_line st +:+ group 1 m]), false)
              end
          end
    end.

Fixpoint vehicle_lines (lines : list string) (st : table_scan) : result table_scan :=
  match lines with
  | [] => Ok st
  | line :: lines' =>
      '(st', stop) ← vehicle_line st line;
      if (stop : bool) then Ok st' else vehicle_lines lines' st'
  end.

(** The scan of the vehicle's [Log.cpp] (lines 155-221). *)
Definition vehicle_file (lines : list string) (st : table_scan) : result table_scan :=
  st' ← vehicle_lines lines
          (TableScan STATE_OUTSIDE LINESTATE_NONE (partial_line st) (message_infos st));
  if decide (state st' = STATE_INSIDE) then Raise ShouldNotBeInside
  else Ok st'.

(** ** all_log_format_ids: the record normalizer for struct-table entries *)

(** A value of the dictionary [ids]: struct-table records carry all five
    keys, call-site records only [name] and [labels]. *)
Record message : Type := Message {
  msg_name : string;
  msg_format : option string;
  msg_labels : string;
  msg_units : option string;
  msg_multipliers : option string;
}.

Global Instance message_eq_dec : EqDecision message.
Proof. solve_decision. Defined.
Global Instance message_inhabited : Inhabited message :=
  populate (Message "" None "" None None).

(** Lines 224-229: macro substitution, then the strict grammar. *)
Definition structure_record (defines : defines_table) (message_info : string)
    : option message :=
  let message_info := apply_defines defines message_info in
  match re_match re_structure message_info with
  | None => None
  | Some m =>
      Some (Message (group 1 m) (Some (group 2 m)) (group 3 m)
              (Some (group 4 m)) (Some (group 5 m)))
  end.

(** The loop of lines 223-238. *)
Fixpoint structure_ids (defines : defines_table) (infos : list string)
    (ids : gmap string message) : result (gmap string message) :=
  match infos with
  | [] => Ok ids
  | message_info :: infos' =>
      match structure_record defines message_info with
      | None => structure_ids defines infos' ids
      | Some r =>
          match ids !! msg_name r with
          | Some _ => Raise (AlreadySeen (msg_name r))
          | None => structure_ids defines infos' (<[msg_name r := r]> ids)
          end
      end
  end.

(** ** all_log_format_ids: the call-site extractor *)

(** The variables of the loop over the lines of the [.cpp] files: [state],
    [log_write_statement] and the list [log_write_statements]. *)
Record call_scan : Type := CallScan {
  call_state : scan_state;
  log_write_statement : string;
  log_write_statements : list string;
}.

(** One iteration of the loop over the lines of a [.cpp] file
    (lines 259-277). *)
Definition callsite_line (st : call_scan) (line : string) : call_scan :=
  match call_state st with
  | STATE_OUTSIDE =>
      if matches re_call_open_ap line || matches re_call_open_logger line
      then CallScan STATE_INSIDE (re_sub re_comment "" line) (log_write_statements st)
      else st
  | STATE_INSIDE =>
      let line := re_sub re_comment "" line in
      let line := re_sub re_string_concat "" line in
      let statement := log_write_statement st +:+ line in
      if matches re_terminator line
      then CallScan STATE_OUTSIDE statement (log_write_statements st ++ [statement])
      else CallScan STATE_INSIDE statement (log_write_statements st)
  end.

Definition callsite_lines (lines : list string) (st : call_scan) : call_scan :=
  foldl callsite_line st lines.

(** One [.cpp] file (lines 257-280): [log_write_statement] is emptied when
    the file is opened. *)
Definition callsite_file (lines : list string) (st : call_scan) : result call_scan :=
  let st' := callsite_lines lines (CallScan (call_state st) "" (log_write_statements st)) in
  if decide (call_state st' ≠ STATE_OUTSIDE) then Raise ExpectedOutside
  else Ok st'.

(** The [.cpp] files in the order in which the two directory walks visit
    them.  The script resets [state] to [STATE_OUTSIDE] for every directory;
    a file that does not end in [STATE_OUTSIDE] raises, so every file starts
    in [STATE_OUTSIDE] anyway. *)
Fixpoint callsite_files_scan (files : list (list string)) (st : call_scan)
    : result call_scan :=
  match files with
  | [] => Ok st
  | f :: files' => st' ← callsite_file f st; callsite_files_scan files' st'
  end.

Definition callsite_files (files : list (list string)) : result (list string) :=
  st ← callsite_files_scan files (CallScan STATE_OUTSIDE "" []);
  Ok (log_write_statements st).

(** ** all_log_format_ids: the record normalizer for call sites *)

(** Line 282. *)
Definition collapse_whitespace (x : string) : string := re_sub re_spaces " " x.

(** Lines 286-297 for one statement. *)
Definition call_record (defines : defines_table) (log_write_statement : string)
    : result (string * string) :=
  let log_write_statement := apply_defines defines log_write_statement in
  match re_match re_call_logger log_write_statement with
  | Some m => Ok (group 1 m, group 2 m)
  | None =>
      match re_match re_call_ap log_write_statement with
      | Some m => Ok (group 1 m, group 2 m)
      | None => Raise (DidNotMatch log_write_statement)
      end
  end.

(** The loop of lines 285-297. *)
Fixpoint call_results (defines : defines_table) (statements : list string)
    : result (list (string * string)) :=
  match statements with
  | [] => Ok []
  | statement :: statements' =>
      r ← call_record defines statement;
      results ← call_results defines statements';
      Ok (r :: results)
  end.

(** The loop of lines 299-306. *)
Fixpoint add_results (results : list (string * string)) (ids : gmap string message)
    : result (gmap string message) :=
  match results with
  | [] => Ok ids
  | (name, labels) :: results' =>
      match ids !! name with
      | Some _ => Raise (AlreadyHaveId name)
      | None => add_results results' (<[name := Message name None labels None None]> ids)
      end
  end.

(** Lines 282-311: from the reassembled statements to the returned [ids]. *)
Definition callsite_ids (defines : defines_table) (log_write_statements : list string)
    (ids : gmap string message) : result (gmap string message) :=
  let log_write_statements := collapse_whitespace <$> log_write_statements in
  results ← call_results defines log_write_statements;
  ids ← add_results results ids;
  if decide (size ids = 0) then Raise NoIds else Ok ids.

(** ** all_log_format_ids

    The file system is the argument: the lines of every [LogStructure.h]
    file, the lines of the vehicle's [Log.cpp], and the lines of every
    [.cpp] file of the two directory walks, in the order of the visit. *)
Definition all_log_format_ids (structure_files : list (list string))
    (log_cpp : list string) (cpp_files : list (list string))
    : result (gmap string message) :=
  defines ← find_format_defines (concat structure_files);
  st ← structure_files_scan structure_files (TableScan STATE_OUTSIDE LINESTATE_NONE "" []);
  st ← vehicle_file log_cpp st;
  ids ← structure_ids defines (message_infos st) ∅;
  statements ← callsite_files cpp_files;
  callsite_ids defines statements ids.

(** ** vehicle_code_dirpath and get_whitelist

    [os.path.join] and [os.path.basename] on POSIX paths: [join] puts one
    separator between its arguments unless the first is empty or ends in
    one, and restarts from the second when that is absolute; [basename] is
    what follows the last separator. *)
Definition ends_with_sep (s : string) : bool :=
  match String.rev s with
  | String c _ => Ascii.eqb c "/"
  | EmptyString => false
  end.

Definition path_join (a b : string) : string :=
  match strip_prefix "/" b with
  | Some _ => b
  | None =>
      if String.eqb a "" || ends_with_sep a then a +:+ b
      else a +:+ "/" +:+ b
  end.

Fixpoint basename (p : string) : string :=
  match p with
  | EmptyString => ""
  | String c p' =>
      if contains "/" p' then basename p'
      else if Ascii.eqb c "/" then p' else p
  end.

(** [vehicle_map.get(vehicle, vehicle)] *)
Definition vehicle_dirname (vehicle : string) : string :=
  if String.eqb vehicle "Copter" then "ArduCopter"
  else if String.eqb vehicle "Plane" then "ArduPlane"
  else if String.eqb vehicle "Rover" then "Rover"
  else if String.eqb vehicle "Sub" then "ArduSub"
  else if String.eqb vehicle "Tracker" then "AntennaTracker"
  else if String.eqb vehicle "Blimp" then "Blimp"
  else vehicle.

(** Lines 52-63. *)
Definition vehicle_code_dirpath (vehicle rootdir : string) : string :=
  path_join rootdir (vehicle_dirname vehicle).

(** Lines 314-350; [topdir], the root of the source tree, is a global of
    the script. *)
Definition get_whitelist (topdir vehicle : string) : gset string :=
  let vinfo_key := basename (vehicle_code_dirpath vehicle topdir) in
  let ret : gset string := ∅ in
  let ret :=
    if negb (String.eqb vinfo_key "ArduPlane") && negb (String.eqb vinfo_key "ArduCopter")
       && negb (String.eqb vinfo_key "Helicopter")
    then ret ∪ list_to_set ["ATUN"] else ret in
  let ret :=
    if negb (String.eqb vinfo_key "ArduPlane")
    then ret ∪ list_to_set ["TECS"; "TEC2"; "TEC3"; "TEC4"; "SOAR"; "SORC"; "QBRK"; "FWDT"; "VAR"]
    else ret in
  let ret :=
    if negb (String.eqb vinfo_key "ArduCopter") && negb (String.eqb vinfo_key "Helicopter")
    then ret ∪ list_to_set ["ARHS"; "AROT"; "ARSC"; "ATDH"; "ATNH"; "ATSH"; "GMB1"; "GMB2"; "SURF"]
    else ret in
  ret.

(** ** validate_logger_documentation: the cross-reference (lines 427-486)

    The arguments are the three values the loops work on: [whitelist]
    (line 405), [docco_ids] (lines 407-422, message name to documented
    field names) and [code_ids] (line 425). *)

(** What the validator prints from line 427 on. *)
Inductive diag : Type :=
| ErrDuplicateLabel (name label : string)
| WarnNotDocumented (name label : string) (documented : list string)
| ErrNotDocumented (name label : string) (documented : list string)
| ErrUndocumented
| ErrOverdocumented
| Item (name : string)
| ErrFieldNotInCode (name label : string)
| ErrMissing (missing : list string)
| Success.

Global Instance diag_eq_dec : EqDecision diag.
Proof. solve_decision. Defined.

(** The variables of the loop over the code-side names, and what has been
    printed. *)
Record findings : Type := Findings {
  undocumented : gset string;
  overdocumented : gset string;
  output : list diag;
}.

(** A loop body either falls through to the next iteration or prints an
    error and executes [return False]; [Halt] carries everything printed
    up to that point. *)
Inductive flow (S : Type) : Type :=
| Next (s : S)
| Halt (out : list diag).
Arguments Next {S} s.
Arguments Halt {S} out.

Definition code_labels (code_ids : gmap string message) (name : string) : list string :=
  split "," (msg_labels (code_ids !!! name)).

(** The loop of lines 440-453 over the labels of one code-side record;
    [seen_labels] is a dictionary used as a set. *)
Fixpoint check_labels (whitelist : gset string) (name : string)
    (documented : list string) (labels : list string) (seen_labels : gset string)
    (s : findings) : flow findings :=
  match labels with
  | [] => Next s
  | label :: labels' =>
      if decide (label ∈ seen_labels)
      then Halt (output s ++ [ErrDuplicateLabel name label])
      else
        let seen_labels := {[label]} ∪ seen_labels in
        if decide (label ∈ documented)
        then check_labels whitelist name documented labels' seen_labels s
        else if decide (name ∈ whitelist)
        then check_labels whitelist name documented labels' seen_labels
               (Findings (undocumented s) (overdocumented s ∖ {[name]})
                  (output s ++ [WarnNotDocumented name label documented]))
        else Halt (output s ++ [ErrNotDocumented name label documented])
  end.

(** The body of the loop of lines 430-453. *)
Definition check_code_name (whitelist : gset string) (docco_ids : gmap string (list string))
    (code_ids : gmap string message) (name : string) (s : findings) : flow findings :=
  match docco_ids !! name with
  | None =>
      if decide (name ∈ whitelist) then Next s
      else Next (Findings ({[name]} ∪ undocumented s) (overdocumented s) (output s))
  | Some documented =>
      let s :=
        if decide (name ∈ whitelist)
        then Findings (undocumented s) ({[name]} ∪ overdocumented s) (output s)
        else s in
      check_labels whitelist name documented (code_labels code_ids name) ∅ s
  end.

Fixpoint check_code_names (whitelist : gset string) (docco_ids : gmap string (list string))
    (code_ids : gmap string message) (names : list string) (s : findings)
    : flow findings :=
  match names with
  | [] => Next s
  | name :: names' =>
      match check_code_name whitelist docco_ids code_ids name s with
      | Next s' => check_code_names whitelist docco_ids code_ids names' s'
      | Halt out => Halt out
      end
  end.

(** The loop of lines 476-479 over the documented fields of one message. *)
Fixpoint check_fields (name : string) (labels : list string) (fields : list string)
    (out : list diag) : flow (list diag) :=
  match fields with
  | [] => Next out
  | label :: fields' =>
      if decide (label ∈ labels) then check_fields name labels fields' out
      else Halt (out ++ [ErrFieldNotInCode name label])
  end.

(** The body of the loop of lines 468-479; the state is the list [missing]
    and what has been printed. *)
Definition check_doc_name (whitelist : gset string) (docco_ids : gmap string (list string))
    (code_ids : gmap string message) (name : string) (s : list string * list diag)
    : flow (list string * list diag) :=
  let '(missing, out) := s in
  if decide ((name ∉ dom code_ids) ∧ (name ∉ whitelist)) then Next (missing ++ [name], out)
  else if decide (name ∉ dom code_ids) then Next (missing, out)
  else
    match check_fields name (code_labels code_ids name) (docco_ids !!! name) out with
    | Next out' => Next (missing, out')
    | Halt out' => Halt out'
    end.

Fixpoint check_doc_names (whitelist : gset string) (docco_ids : gmap string (list string))
    (code_ids : gmap string message) (names : list string) (s : list string * list diag)
    : flow (list string * list diag) :=
  match names with
  | [] => Next s
  | name :: names' =>
      match check_doc_name whitelist docco_ids code_ids name s with
      | Next s' => check_doc_names whitelist docco_ids code_ids names' s'
      | Halt out => Halt out
      end
  end.

(** [sorted(d.keys())] and [sorted(s)] *)
Definition sorted_keys {V : Type} (d : gmap string V) : list string :=
  sorted (elements (dom d)).
Definition sorted_set (s : gset string) : list string := sorted (elements s).

(** Lines 427-486: what is printed, and the returned verdict. *)
Definition validate_logger_documentation (whitelist : gset string)
    (docco_ids : gmap string (list string)) (code_ids : gmap string message)
    : list diag * bool :=
  match check_code_names whitelist docco_ids code_ids (sorted_keys code_ids)
          (Findings ∅ ∅ []) with
  | Halt out => (out, false)
  | Next s =>
      if decide (size (undocumented s) ≠ 0)
      then (output s ++ ErrUndocumented :: (Item <$> sorted_set (undocumented s)), false)
      else if decide (size (overdocumented s) ≠ 0)
      then (output s ++ ErrOverdocumented :: (Item <$> sorted_set (overdocumented s)), false)
      else
        match check_doc_names whitelist docco_ids code_ids (sorted_keys docco_ids)
                ([], output s) with
        | Halt out => (out, false)
        | Next (missing, out) =>
            if decide (0 < length missing) then (out ++ [ErrMissing missing], false)
            else (out ++ [Success], true)
        end
  end.

(** ** Statements examined below, and the inputs they are examined on *)

(** A record as a call site contributes it. *)
Definition call_message (name labels : string) : message :=
  Message name None labels None None.

Definition start : findings := Findings ∅ ∅ [].

(** "If any of the three finding sets is non-empty the verdict is failure,
    and all three are reported before it is returned": for a run whose two
    loops print no fatal error, with [s] the findings of the code-side loop
    and [missing] the list of the documentation-side loop. *)
Definition findings_reported_together (whitelist : gset string)
    (docco_ids : gmap string (list string)) (code_ids : gmap string message) : Prop :=
  ∀ s missing out,
    check_code_names whitelist docco_ids code_ids (sorted_keys code_ids) start = Next s →
    check_doc_names whitelist docco_ids code_ids (sorted_keys docco_ids) ([], output s)
      = Next (missing, out) →
    undocumented s ≠ ∅ ∨ overdocumented s ≠ ∅ ∨ missing ≠ [] →
    let r := validate_logger_documentation whitelist docco_ids code_ids in
    r.2 = false
    ∧ (undocumented s ≠ ∅ → ErrUndocumented ∈ r.1)
    ∧ (overdocumented s ≠ ∅ → ErrOverdocumented ∈ r.1)
    ∧ (missing ≠ [] → ErrMissing missing ∈ r.1).

(** A loop body that stops the run on a label-containment mismatch: the
    last thing printed is one of the two label errors. *)
Definition is_label_mismatch (d : diag) : bool :=
  match d with
  | ErrNotDocumented _ _ _ | ErrFieldNotInCode _ _ => true
  | _ => false
  end.

Definition fails_on_mismatch {S : Type} (f : flow S) : Prop :=
  match f with
  | Next _ => False
  | Halt out => ∃ d, last out = Some d ∧ is_label_mismatch d = true
  end.

(** "For a whitelisted name present on both sides, a label mismatch in
    either direction never by itself causes the run to fail." *)
Definition whitelisted_mismatch_tolerated (whitelist : gset string)
    (docco_ids : gmap string (list string)) (code_ids : gmap string message) : Prop :=
  ∀ name, name ∈ whitelist → name ∈ dom code_ids → name ∈ dom docco_ids →
    (∀ s, ¬ fails_on_mismatch (check_code_name whitelist docco_ids code_ids name s))
    ∧ (∀ s, ¬ fails_on_mismatch (check_doc_name whitelist docco_ids code_ids name s)).

(** "For a documented, non-whitelisted code-side name, the first code label
    that is not documented stops the run with a report naming the message
    and that label." *)
Definition first_missing_label_reported (whitelist : gset string)
    (docco_ids : gmap string (list string)) (code_ids : gmap string message) : Prop :=
  ∀ name documented pre label post s,
    name ∉ whitelist → docco_ids !! name = Some documented → name ∈ dom code_ids →
    code_labels code_ids name = pre ++ label :: post →
    Forall (λ l, l ∈ documented) pre → label ∉ documented →
    check_code_name whitelist docco_ids code_ids name s
      = Halt (output s ++ [ErrNotDocumented name label documented]).

(** Lines of C++ are written with ['] for the double-quote character. *)
Fixpoint cpp (s : string) : string :=
  match s with
  | EmptyString => ""
  | String c s' => String (if Ascii.eqb c "'" then dquote else c) (cpp s')
  end.

(** A line as [readlines] returns it. *)
Definition ln (s : string) : string := cpp s +:+ nl.

(** The labels of a code-side record that draw a warning or an error: those
    absent from the documented fields. *)
Definition undocumented_labels (documented labels : list string) : list string :=
  filter (λ l, l ∉ documented) labels.

Definition label_warnings (name : string) (documented labels : list string) : list diag :=
  (λ l, WarnNotDocumented name l documented) <$> undocumented_labels documented labels.

(** White space other than the line terminator, and what may follow the
    closing brace of a table entry (the class [[,\s\\]], the line terminator
    apart). *)
Definition is_blank (c : ascii) : bool := is_space c && is_dot c.
Definition is_tail (c : ascii) : bool :=
  either (is_char ",") (either is_space (is_char backslash)) c && is_dot c.

(** A table entry with content [c1 c2 c3] written on three lines joined by
    the continuation marker, and the same content on one line.  [w0] is the
    indentation of the opening brace, [w1], [w2] and [w3] the white space
    around the markers, [t] what follows the closing brace and its comma. *)
Definition opening_line (w0 c1 w1 : string) : string :=
  w0 +:+ "{" +:+ c1 +:+ "\" +:+ w1 +:+ nl.
Definition middle_line (c2 w2 w3 : string) : string :=
  c2 +:+ w2 +:+ "\" +:+ w3 +:+ nl.
Definition closing_line (c3 t : string) : string :=
  c3 +:+ "}," +:+ t +:+ nl.
Definition single_line (w0 c1 c2 c3 t : string) : string :=
  w0 +:+ "{" +:+ (c1 +:+ c2 +:+ c3) +:+ "}," +:+ t +:+ nl.

(** "The lines [three] produce the same records as the line [one]": scanned
    inside a table, outside any entry, both are accepted and the raw entries
    collected normalize to the same record set. *)
Definition same_records_as_single_line (three : list string) (one : string) : Prop :=
  ∀ st defines ids, state st = STATE_INSIDE → linestate st = LINESTATE_NONE →
    ∃ st3 st1,
      structure_lines three st = Ok st3 ∧ structure_lines [one] st = Ok st1
      ∧ structure_ids defines (message_infos st3) ids
        = structure_ids defines (message_infos st1) ids.

(** "The lines [three] are reassembled to the raw entry [entry], and so is
    the line [one]": scanned inside a table, outside any entry, either way
    of writing is accepted, adds exactly the raw entry [entry] to the
    entries collected so far and leaves the scan inside the table and
    outside any entry; the entries collected, and hence the records they
    normalize to, are the same. *)
Definition same_entry_as_single_line (three : list string) (one entry : string) : Prop :=
  ∀ st, state st = STATE_INSIDE → linestate st = LINESTATE_NONE →
    ∃ st3 st1,
      structure_lines three st = Ok st3 ∧ structure_lines [one] st = Ok st1
      ∧ message_infos st3 = message_infos st ++ [entry]
      ∧ message_infos st1 = message_infos st ++ [entry]
      ∧ (state st3 = STATE_INSIDE ∧ linestate st3 = LINESTATE_NONE)
      ∧ (state st1 = STATE_INSIDE ∧ linestate st1 = LINESTATE_NONE)
      ∧ ∀ defines ids,
          structure_ids defines (message_infos st3) ids
          = structure_ids defines (message_infos st1) ids.

(** [s] is empty or begins with a character other than [c]; the run [p*]
    cannot go on at [s]. *)
Definition head_is_not (c : ascii) (s : string) : Prop :=
  match s with
  | EmptyString => True
  | String d _ => d ≠ c
  end.

Definition stops (p : ascii → bool) (s : string) : Prop :=
  match s with
  | EmptyString => True
  | String c _ => p c = false
  end.

(** *** Inputs *)

Module Inputs.

(** C1: an undocumented message [A], a whitelisted and documented message
    [W], and a documented message [B] that the code does not have. *)
Definition c1_whitelist : gset string := {["W"]}.
Definition c1_docco : gmap string (list string) := <["B" := ["z"]]> (<["W" := ["y"]]> ∅).
Definition c1_code : gmap string message :=
  <["A" := call_message "A" "x"]> (<["W" := call_message "W" "y"]> ∅).
Definition c1_docco_over : gmap string (list string) := <["W" := ["y"]]> ∅.
Definition c1_code_over : gmap string message := <["W" := call_message "W" "y"]> ∅.
Definition c1_docco_missing : gmap string (list string) := <["B" := ["z"]]> ∅.
Definition c1_code_missing : gmap string message := <["C" := call_message "C" "x"]> ∅.

(** C2: a whitelisted message whose code has a label [C] that is not
    documented and whose documentation has a field [B] that the code does
    not have. *)
Definition c2_whitelist : gset string := {["W"]}.
Definition c2_docco : gmap string (list string) := <["W" := ["A"; "B"]]> ∅.
Definition c2_code : gmap string message := <["W" := call_message "W" "A,C"]> ∅.

(** C5: the label [A] is repeated before the first undocumented label [B]. *)
Definition c5_docco : gmap string (list string) := <["X" := ["A"]]> ∅.
Definition c5_code : gmap string message := <["X" := call_message "X" "A,A,B"]> ∅.
Definition c5_docco_ok : gmap string (list string) :=
  <["X" := ["A"]]> (<["M" := ["T"]]> ∅).
Definition c5_code_ok : gmap string message :=
  <["X" := call_message "X" "A,B,C"]>
    (<["M" := call_message "M" "T"]> (<["Z" := call_message "Z" "Q"]> ∅)).

(** C10: one documented message, to which an undocumented one is added. *)
Definition c10_docco : gmap string (list string) := <["M" := ["T"]]> ∅.
Definition c10_code : gmap string message := <["M" := call_message "M" "T"]> ∅.

(** C6, C9: raw struct-table entries and reassembled call statements. *)
Definition att : string :=
  cpp " LOG_ATT_MSG, sizeof(log_ATT), 'ATT', 'Qf', 'TimeUS,Roll', 's-', 'F-' ".
Definition att_again : string :=
  cpp " LOG_ATT2_MSG, sizeof(log_ATT2), 'ATT', 'Qff', 'TimeUS,Roll,Pitch', 's--', 'F--' ".
Definition unexpanded : string :=
  cpp " LOG_BAD_MSG, sizeof(log_BAD), 'BAD', 'Qf', TIME_LABELS, 's-', 'F-' ".
Definition write_att : string :=
  ln "    logger.Write('ATT', 'TimeUS,X', 'Qf', t, x);".
Definition write_att_again : string :=
  ln "    AP::logger().WriteStreaming('ATT', 'TimeUS,Y', 'Qf', t, y);".
Definition write_variable : string :=
  ln "    logger.Write(name, 'TimeUS,Y', 'Qf', t, y);".

(** C3: a call whose labels literal is written whole, and the same call
    with the literal split in two over consecutive lines. *)
Definition c3_unsplit : list string := [
  ln "    logger.Write(";
  ln "        'NAME', 'TimeUS,Roll', 'Qf', t, r);" ].
Definition c3_split : list string := [
  ln "    logger.Write(";
  ln "        'NAME', 'TimeUS,'";
  ln "        'Roll', 'Qf', t, r);" ].

(** C4: calls written on one line each. *)
Definition c4_one : string := ln "    logger.Write('ONE', 'TimeUS,A', 'Qf', t, a);".
Definition c4_two : string := ln "    logger.Write('TWO', 'TimeUS,B', 'Qf', t, b);".

(** C7: a vehicle table that ends while an entry is open, and a call site
    so that the run has a record to return. *)
Definition c7_log_cpp : list string := [
  ln "const struct LogStructure Copter::log_structure[] = {";
  ln "    LOG_COMMON_STRUCTURES,";
  ln "    { LOG_CONTROL_TUNING_MSG, sizeof(log_Control_Tuning),";
  ln "};" ].
Definition c7_structure_file : list string := [
  ln "#define LOG_COMMON_STRUCTURES \";
  ln "    { LOG_CONTROL_TUNING_MSG, sizeof(log_Control_Tuning), \" ].

(** C8: the last entry of a table, closed without a comma, on three lines
    and on one; an entry with empty units and multipliers; and an entry of
    the usual shape. *)
Definition c8_three : list string := [
  ln "    { LOG_X_MSG, sizeof(log_X), \";
  ln "      'X', 'Q', \";
  ln "      'TimeUS', 's', 'F' }" ].
Definition c8_one : string :=
  ln "    { LOG_X_MSG, sizeof(log_X),       'X', 'Q',      'TimeUS', 's', 'F' }".
Definition c8_three_empty : list string := [
  ln "    { LOG_X_MSG, sizeof(log_X), \";
  ln "      'X', 'Q', 'TimeUS', '', \";
  ln "      '' }, \" ].
Definition c8_one_empty : string :=
  ln "    { LOG_X_MSG, sizeof(log_X),       'X', 'Q', 'TimeUS', '',      '' }, \".
Definition c8_three_ok : list string := [
  ln "    { LOG_X_MSG, sizeof(log_X), \";
  ln "      'X', 'Qf', \ ";
  ln "      'TimeUS,A', 's-', 'F-' }, \" ].
Definition c8_one_ok : string :=
  ln "    { LOG_X_MSG, sizeof(log_X),       'X', 'Qf',      'TimeUS,A', 's-', 'F-' }, \".

End Inputs.

(** ** Further definitions

    The languages of the patterns, the functions of the script that the
    first part leaves out, and the statements examined in the second part of
    the properties. *)

(** ** The language of a pattern

    [lang r a rest cs]: the pattern [r] matches the text [a] when [rest]
    follows it, and its groups capture [cs] (most recent first).  [rest]
    matters to [$] only.  Every match the backtracking matcher returns is
    one of these (lemma [rmatch_sound] below). *)
Inductive lang : regex → string → string → captures → Prop :=
| lang_lit l rest : lang (Lit l) l rest []
| lang_cls p c rest : p c = true → lang (Cls p) (String c "") rest []
| lang_star p a rest : all_chars p a = true → lang (Star p) a rest []
| lang_plus p a rest : all_chars p a = true → a ≠ "" → lang (Plus p) a rest []
| lang_opt_some r a rest cs : lang r a rest cs → lang (Opt r) a rest cs
| lang_opt_none r rest : lang (Opt r) "" rest []
| lang_alt_l r1 r2 a rest cs : lang r1 a rest cs → lang (Alt r1 r2) a rest cs
| lang_alt_r r1 r2 a rest cs : lang r2 a rest cs → lang (Alt r1 r2) a rest cs
| lang_seq r1 r2 a1 a2 rest cs1 cs2 :
    lang r1 a1 (a2 +:+ rest) cs1 → lang r2 a2 rest cs2 →
    lang (Seq r1 r2) (a1 +:+ a2) rest (cs2 ++ cs1)
| lang_group i r a rest cs : lang r a rest cs → lang (Group i r) a rest ((i, a) :: cs)
| lang_eos rest : rest = "" ∨ rest = nl → lang Eos "" rest [].

(** What one line contributes to the macro table (lines 42-45): the name
    and the value of the define, when the line is one. *)
Definition define_of (line : string) : option (string * string) :=
  m ← re_match re_define line; Some (group 1 m, group 2 m).

(** The names the lines define, in the order of the lines. *)
Definition defined_names (lines : list string) : list string :=
  (omap define_of lines).*1.

(** [x] is the first element of [xs] that repeats an earlier one. *)
Definition first_repeated {A : Type} (x : A) (xs : list A) : Prop :=
  ∃ pre post, xs = pre ++ x :: post ∧ NoDup pre ∧ x ∈ pre.

(** The shape of the captures of the two grammars: a message name or a
    format ([\w+]), and a label list ([[\w,]+]). *)
Definition is_identifier (s : string) : Prop := all_chars is_word s = true ∧ s ≠ "".
Definition is_label_list (s : string) : Prop :=
  all_chars (either is_word (is_char ",")) s = true ∧ s ≠ "".
Definition is_unquoted (s : string) : Prop := all_chars (not_char dquote) s = true.

(** The records of the struct-table entries that the strict grammar
    accepts, in the order of the entries, and as a dictionary keyed by
    name. *)
Definition structure_records (defines : defines_table) (infos : list string)
    : list message :=
  omap (structure_record defines) infos.

Definition by_name (rs : list message) : gmap string message :=
  list_to_map ((λ r, (msg_name r, r)) <$> rs).

Definition call_messages (results : list (string * string)) : list message :=
  (λ r, call_message r.1 r.2) <$> results.

(** The loop of lines 223-238 and that of lines 299-306 are the same loop
    over a list of records. *)
Fixpoint add_records (e : string → error) (rs : list message) (ids : gmap string message)
    : result (gmap string message) :=
  match rs with
  | [] => Ok ids
  | r :: rs' =>
      match ids !! msg_name r with
      | Some _ => Raise (e (msg_name r))
      | None => add_records e rs' (<[msg_name r := r]> ids)
      end
  end.

(** Lines that hold white space and at most a comment. *)
Definition comment_line (w c eol : string) : string := w +:+ "//" +:+ c +:+ eol.

(** White-space runs replaced by one space each, read off the text from
    left to right; [in_run] tells that the character before was white
    space. *)
Fixpoint squeeze (in_run : bool) (s : string) : string :=
  match s with
  | EmptyString => ""
  | String c s' =>
      if is_space c then (if in_run then squeeze true s' else String " " (squeeze true s'))
      else String c (squeeze false s')
  end.

(** The length of the run of [p] that begins [s]. *)
Fixpoint run_length (p : ascii → bool) (s : string) : nat :=
  match s with
  | EmptyString => 0
  | String c s' => if p c then S (run_length p s') else 0
  end.

(** The text without its white space. *)
Fixpoint remove_spaces (s : string) : string :=
  match s with
  | EmptyString => ""
  | String c s' => if is_space c then remove_spaces s' else String c (remove_spaces s')
  end.

(** White space other than the space character. *)
Definition is_odd_space (c : ascii) : bool := is_space c && negb (Ascii.eqb c " ").

(** The three groups of names of lines 321-348. *)
Definition autotune_messages : list string := ["ATUN"].
Definition plane_messages : list string :=
  ["TECS"; "TEC2"; "TEC3"; "TEC4"; "SOAR"; "SORC"; "QBRK"; "FWDT"; "VAR"].
Definition copter_messages : list string :=
  ["ARHS"; "AROT"; "ARSC"; "ATDH"; "ATNH"; "ATSH"; "GMB1"; "GMB2"; "SURF"].

(** ** What the cross-reference accepts, and the shape of its report *)

(** The code and the documentation agree, up to the whitelist:
    - every code-side name is documented or whitelisted;
    - every documented name is in the code or whitelisted;
    - for a name on both sides, the code labels are pairwise distinct and
      every documented field is a code label; if the name is not
      whitelisted, every code label is documented; if it is whitelisted,
      some code label is not. *)
Definition documentation_agrees (whitelist : gset string)
    (docco_ids : gmap string (list string)) (code_ids : gmap string message) : Prop :=
  (∀ name, name ∈ dom code_ids → name ∈ dom docco_ids ∨ name ∈ whitelist)
  ∧ (∀ name, name ∈ dom docco_ids → name ∈ dom code_ids ∨ name ∈ whitelist)
  ∧ (∀ name documented, name ∈ dom code_ids → docco_ids !! name = Some documented →
       NoDup (code_labels code_ids name)
       ∧ (∀ l, l ∈ documented → l ∈ code_labels code_ids name)
       ∧ (name ∉ whitelist → ∀ l, l ∈ code_labels code_ids name → l ∈ documented)
       ∧ (name ∈ whitelist → ∃ l, l ∈ code_labels code_ids name ∧ l ∉ documented)).

(** Every duplicate-label error of a report is about a documented name. *)
Definition duplicates_documented (docco_ids : gmap string (list string))
    (out : list diag) : Prop :=
  ∀ n l, ErrDuplicateLabel n l ∈ out → is_Some (docco_ids !! n).

Definition is_warning (d : diag) : bool :=
  match d with
  | WarnNotDocumented _ _ _ => true
  | _ => false
  end.

Definition is_error (d : diag) : bool :=
  match d with
  | ErrDuplicateLabel _ _ | ErrNotDocumented _ _ _ | ErrUndocumented | ErrOverdocumented
  | ErrFieldNotInCode _ _ | ErrMissing _ => true
  | WarnNotDocumented _ _ _ | Item _ | Success => false
  end.

(** A warning that is justified: it names a whitelisted message that is
    documented and in the code, and a code label of it that is not among its
    documented fields, which it lists. *)
Definition justified_warning (whitelist : gset string)
    (docco_ids : gmap string (list string)) (code_ids : gmap string message)
    (d : diag) : Prop :=
  ∃ name label documented,
    d = WarnNotDocumented name label documented
    ∧ name ∈ whitelist ∧ name ∈ dom code_ids ∧ docco_ids !! name = Some documented
    ∧ label ∈ code_labels code_ids name ∧ label ∉ documented.

(** The loop over the labels of one code-side record runs to its end: the
    labels are pairwise distinct and new, and all documented unless the
    name is whitelisted. *)
Definition labels_pass (whitelist : gset string) (name : string)
    (documented labels : list string) (seen : gset string) : Prop :=
  NoDup labels ∧ (∀ l, l ∈ labels → l ∉ seen)
  ∧ (name ∉ whitelist → ∀ l, l ∈ labels → l ∈ documented).

Definition label_warning (whitelist : gset string) (name : string)
    (documented labels : list string) (d : diag) : Prop :=
  ∃ l, d = WarnNotDocumented name l documented ∧ name ∈ whitelist
       ∧ l ∈ labels ∧ l ∉ documented.

(** The body of the code-side loop runs to its end for [name]. *)
Definition code_name_passes (whitelist : gset string)
    (docco_ids : gmap string (list string)) (code_ids : gmap string message)
    (name : string) : Prop :=
  ∀ documented, docco_ids !! name = Some documented →
    labels_pass whitelist name documented (code_labels code_ids name) ∅.

(** A whitelisted name all of whose code labels are documented: what the
    code-side loop leaves in [overdocumented]. *)
Definition fully_documented (whitelist : gset string)
    (docco_ids : gmap string (list string)) (code_ids : gmap string message)
    (name : string) : Prop :=
  name ∈ whitelist
  ∧ ∃ documented, docco_ids !! name = Some documented
      ∧ Forall (λ l, l ∈ documented) (code_labels code_ids name).

Definition name_warning (whitelist : gset string)
    (docco_ids : gmap string (list string)) (code_ids : gmap string message)
    (name : string) (d : diag) : Prop :=
  ∃ documented, docco_ids !! name = Some documented
    ∧ label_warning whitelist name documented (code_labels code_ids name) d.

(** The body of the documentation-side loop runs to its end for [name]. *)
Definition doc_name_passes (docco_ids : gmap string (list string))
    (code_ids : gmap string message) (name : string) : Prop :=
  name ∈ dom code_ids →
  Forall (λ l, l ∈ code_labels code_ids name) (docco_ids !!! name).

(** ** validate_logger_documentation: the documented messages (lines 407-422)

    The [logformat] elements of the generated XML, in document order: for
    each, its [name] attribute as a string ([str(thing.get('name'))]) and
    the [name] attributes of the [field] elements under its [fields]
    element.  An element without a [field] is one for which
    [getattr(thing.fields, 'field', None)] is [None].  Every element is
    taken to have a [fields] child and every [field] a [name], as the
    generator writes them. *)
Record logformat : Type := Logformat {
  lf_name : string;
  lf_fields : list string;
}.

(** The outcome of lines 407-422: [docco_ids] is built; or the script
    prints that a message has no documented field and returns [False]; or
    [tree.logformat] raises [AttributeError], the tree having no
    [logformat] child. *)
Inductive loaded : Type :=
| Loaded (docco_ids : gmap string (list string))
| NoDocFields (name : string)
| NoLogformat.

(** [docco_ids[name]['labels'].append(fieldname)] *)
Definition append_label (name : string) (docco_ids : gmap string (list string))
    (fieldname : string) : gmap string (list string) :=
  alter (λ labels, labels ++ [fieldname]) name docco_ids.

(** The iterations of the loop over the elements (lines 409-422). *)
Fixpoint load_elements (whitelist : gset string) (things : list logformat)
    (docco_ids : gmap string (list string)) : loaded :=
  match things with
  | [] => Loaded docco_ids
  | thing :: things' =>
      let name := lf_name thing in
      let docco_ids := <[name := []]> docco_ids in
      match lf_fields thing with
      | [] =>
          if decide (name ∈ whitelist) then load_elements whitelist things' docco_ids
          else NoDocFields name
      | fields =>
          load_elements whitelist things' (foldl (append_label name) docco_ids fields)
      end
  end.

(** Lines 407-422: [tree.logformat] is the first [logformat] child of the
    tree, over whose siblings of that name the loop runs; without such a
    child the attribute does not exist. *)
Definition load_docco_ids (whitelist : gset string) (things : list logformat) : loaded :=
  match things with
  | [] => NoLogformat
  | _ :: _ => load_elements whitelist things ∅
  end.

(** An element that the loop accepts. *)
Definition has_doc_fields (whitelist : gset string) (thing : logformat) : Prop :=
  lf_fields thing ≠ [] ∨ lf_name thing ∈ whitelist.

(** The fields of the last element named [name]. *)
Definition last_fields (things : list logformat) (name : string) : option (list string) :=
  lf_fields <$> last (filter (λ thing, lf_name thing = name) things).

(** The code-side records as the cross-reference reads them: the name and
    the labels. *)
Definition labels_of (code_ids : gmap string message) : gmap string string :=
  msg_labels <$> code_ids.

(** ** The shape of a collected call statement *)

(** The four call forms that open a statement (lines 264-265). *)
Definition call_forms : list string :=
  ["AP::logger().Write"; "AP::logger().WriteStreaming"; "logger.Write"; "logger.WriteStreaming"].

(** [s] begins, after the white space [w], with a call form and an opening
    parenthesis. *)
Definition opens_call (w s : string) : Prop :=
  ∃ callee rest, s = w +:+ callee +:+ "(" +:+ rest
    ∧ all_chars is_space w = true ∧ callee ∈ call_forms.

(** A statement as the scan collects it: it begins with a call form and
    holds the terminator after it. *)
Definition is_call_statement (s : string) : Prop :=
  ∃ w callee rest, s = w +:+ callee +:+ "(" +:+ rest
    ∧ all_chars is_space w = true ∧ callee ∈ call_forms
    ∧ contains ");" rest = true.

(** A letter or digit: a word character other than the underscore. *)
Definition is_alnum (c : ascii) : bool := is_word c && negb (Ascii.eqb c "_").

(** The invariant of the scan: inside a statement, what has been
    assembled begins with a call form. *)
Definition call_scan_inv (st : call_scan) : Prop :=
  call_state st = STATE_INSIDE → ∃ w, opens_call w (log_write_statement st).

(** *** Further inputs *)

Module Examples.

(** A declaration file with one entry, and a vehicle file whose table holds
    one entry and is followed by a line that looks like another. *)
Definition x_entry : string :=
  cpp " LOG_X_MSG, sizeof(log_X),       'X', 'Qf',      'TimeUS,A', 's-', 'F-' ".
Definition y_entry : string :=
  cpp " LOG_Y_MSG, sizeof(log_Y), 'Y', 'Q', 'TimeUS', 's', 'F' ".
Definition structure_file_x : list string :=
  [ln "#define LOG_COMMON_STRUCTURES \"; Inputs.c8_one_ok].
Definition log_cpp_head : list string := [
  ln "const struct LogStructure Copter::log_structure[] = {";
  ln "    LOG_COMMON_STRUCTURES,";
  ln "    { LOG_Y_MSG, sizeof(log_Y), 'Y', 'Q', 'TimeUS', 's', 'F' }," ].
Definition log_cpp_tail : list string := [
  ln "    { LOG_Z_MSG, sizeof(log_Z), 'Z', 'Q', 'TimeUS', 's', 'F' }," ].
Definition log_cpp_y : list string := log_cpp_head ++ ("};" +:+ nl) :: log_cpp_tail.

Definition scan_start : table_scan := TableScan STATE_OUTSIDE LINESTATE_NONE "" [].
Definition scan_x : table_scan := TableScan STATE_INSIDE LINESTATE_NONE "" [x_entry].
Definition scan_xy : table_scan :=
  TableScan STATE_OUTSIDE LINESTATE_NONE "" [x_entry; y_entry].

(** A call written over two lines, indented and in the first column. *)
Definition name_statement : string :=
  ln "    logger.Write(" +:+ ln "        'NAME', 'TimeUS,Roll', 'Qf', t, r);".
Definition first_column_rest : string :=
  nl +:+ ln "        'NAME', 'TimeUS,Roll', 'Qf', t, r);".

End Examples.

(** * Properties *)

Import Inputs.

#[local] Arguments Ascii.eqb : simpl never.

(** ** Strings *)

Lemma app_cons c (s t : string) : String c s +:+ t = String c (s +:+ t).
Proof. reflexivity. Qed.

Lemma app_empty_r (s : string) : s +:+ "" = s.
Proof. induction s as [|c s IH]; [done|]. by rewrite app_cons, IH. Qed.

Lemma str_app_assoc (a b c : string) : (a +:+ b) +:+ c = a +:+ b +:+ c.
Proof. induction a as [|x a IH]; [done|]. by rewrite !app_cons, IH. Qed.

Lemma strlen_app (a b : string) : strlen (a +:+ b) = strlen a + strlen b.
Proof. induction a as [|x a IH]; [done|]. rewrite app_cons. simpl. by rewrite IH. Qed.

Lemma take_str_app (a b : string) : take_str (strlen (a +:+ b) - strlen b) (a +:+ b) = a.
Proof.
  rewrite strlen_app. replace (strlen a + strlen b - strlen b) with (strlen a) by lia.
  induction a as [|x a IH].
  - by destruct b.
  - rewrite app_cons. simpl. by rewrite IH.
Qed.

Lemma eqb_shorter s c : String.eqb s (s +:+ String c "") = false.
Proof.
  apply String.eqb_neq. intros H. apply (f_equal strlen) in H.
  rewrite strlen_app in H. simpl in H. lia.
Qed.

Lemma all_chars_app p (a b : string) :
  all_chars p (a +:+ b) = all_chars p a && all_chars p b.
Proof.
  induction a as [|x a IH]; [done|]. rewrite app_cons. simpl. rewrite IH.
  by rewrite andb_assoc.
Qed.

Lemma all_chars_impl (p q : ascii → bool) s :
  (∀ c, p c = true → q c = true) → all_chars p s = true → all_chars q s = true.
Proof.
  intros Hpq. induction s as [|c s IH]; [done|]. simpl.
  intros [Hc Hs]%andb_true_iff. by rewrite (Hpq c Hc), IH.
Qed.

Lemma blank_space s : all_chars is_blank s = true → all_chars is_space s = true.
Proof. apply all_chars_impl. by intros c [? ?]%andb_true_iff. Qed.

Lemma blank_dot s : all_chars is_blank s = true → all_chars is_dot s = true.
Proof. apply all_chars_impl. by intros c [? ?]%andb_true_iff. Qed.

Lemma tail_dot s : all_chars is_tail s = true → all_chars is_dot s = true.
Proof. apply all_chars_impl. by intros c [? ?]%andb_true_iff. Qed.

Lemma tail_class s :
  all_chars is_tail s = true →
  all_chars (either (is_char ",") (either is_space (is_char backslash))) s = true.
Proof. apply all_chars_impl. by intros c [? ?]%andb_true_iff. Qed.

Lemma tail_no_brace t : all_chars is_tail t = true → all_chars (not_char "}") t = true.
Proof.
  apply all_chars_impl. intros c [Hc _]%andb_true_iff. unfold not_char.
  destruct (Ascii.eqb_spec c "}") as [->|]; done.
Qed.

Lemma strip_prefix_app (p s : string) : strip_prefix p (p +:+ s) = Some s.
Proof.
  induction p as [|c p IH]; [by destruct s|]. rewrite app_cons. simpl.
  by rewrite Ascii.eqb_refl.
Qed.

Lemma strip_prefix_head c p s :
  head_is_not c s → strip_prefix (String c p) s = None.
Proof.
  destruct s as [|d s]; [done|]. simpl. intros Hd.
  destruct (Ascii.eqb_spec c d); [by subst|done].
Qed.

(** Inside or right after a run of [p], the text does not begin with a
    character that fails [p]. *)
Lemma head_of_run p a1 a2 s c :
  all_chars p (a1 +:+ a2) = true → a2 ≠ "" → p c = false → head_is_not c (a2 +:+ s).
Proof.
  rewrite all_chars_app. intros [_ Ha2]%andb_true_iff Hne Hc.
  destruct a2 as [|d a2]; [done|]. rewrite app_cons. simpl in *.
  apply andb_true_iff in Ha2 as [Hd _]. intros ->. congruence.
Qed.

Lemma head_after p c x' x1 x2 d s :
  String d x' = x1 +:+ x2 → x1 ≠ "" → all_chars p x' = true → p c = false →
  head_is_not c s → head_is_not c (x2 +:+ s).
Proof.
  intros Hx Hne Hp Hc Hs. destruct x1 as [|e x1]; [done|].
  rewrite app_cons in Hx. injection Hx as _ ->.
  destruct x2 as [|e2 x2]; [done|]. rewrite app_cons. simpl.
  rewrite all_chars_app in Hp. apply andb_true_iff in Hp as [_ Hp].
  simpl in Hp. apply andb_true_iff in Hp as [Hp _]. intros ->. congruence.
Qed.

Lemma contains_cons needle c s :
  contains needle (String c s) =
  match strip_prefix needle (String c s) with
  | Some _ => true
  | None => contains needle s
  end.
Proof. reflexivity. Qed.

Lemma contains_app_r needle a b :
  contains needle (a +:+ b) = false → contains needle b = false.
Proof.
  induction a as [|c a IH]; [done|]. rewrite app_cons, contains_cons.
  destruct (strip_prefix needle _); [done|]. apply IH.
Qed.

Lemma contains_suffix needle a t :
  contains needle (a +:+ t) = false → strip_prefix needle t = None.
Proof.
  intros H%contains_app_r. destruct t; simpl in H; by destruct (strip_prefix needle _).
Qed.

Lemma rstrip_app_space s w : all_chars is_space w = true → rstrip (s +:+ w) = rstrip s.
Proof.
  intros Hw. induction s as [|c s IH].
  - change ("" +:+ w) with w. induction w as [|d w IHw]; [done|].
    simpl in *. apply andb_true_iff in Hw as [-> Hw]. by rewrite IHw.
  - rewrite app_cons. simpl. by rewrite IH.
Qed.

Lemma rstrip_end s c : is_space c = false → rstrip (s +:+ String c "") = s +:+ String c "".
Proof.
  intros Hc. induction s as [|d s IH].
  - simpl. by rewrite Hc.
  - rewrite app_cons. simpl. rewrite IH.
    by destruct (s +:+ String c "") eqn:Hs; [destruct s|].
Qed.

(** ** The greedy run of a character class *)

Section Star.
Context {A : Type} (p : ascii → bool) (k : string → option A).

Lemma star_stops s : stops p s → star p s k = k s.
Proof. destruct s as [|c s]; [done|]. simpl. by intros ->. Qed.

(** The whole text is a run, and it may end the match. *)
Lemma star_all a r : all_chars p a = true → k "" = Some r → star p a k = Some r.
Proof.
  intros Ha Hk. induction a as [|c a IH]; [done|].
  simpl in *. apply andb_true_iff in Ha as [-> Ha]. by rewrite IH.
Qed.

(** No way of ending the run lets [k] succeed. *)
Lemma star_none x s :
  all_chars p x = true → stops p s →
  (∀ x1 x2, x = x1 +:+ x2 → k (x2 +:+ s) = None) →
  star p (x +:+ s) k = None.
Proof.
  induction x as [|c x IH]; intros Hx Hs Hk.
  - rewrite star_stops by done. apply (Hk "" "" eq_refl).
  - rewrite app_cons. simpl in *. apply andb_true_iff in Hx as [-> Hx].
    rewrite IH; [|done|done|].
    + apply (Hk "" (String c x) eq_refl).
    + intros x1 x2 ->. apply (Hk (String c x1) x2 eq_refl).
Qed.

Lemma star_none_anywhere s :
  (∀ a b, s = a +:+ b → k b = None) → star p s k = None.
Proof.
  induction s as [|c s IH]; intros Hk; simpl.
  - apply (Hk "" "" eq_refl).
  - rewrite IH; [|intros a b ->; apply (Hk (String c a) b eq_refl)].
    rewrite (Hk "" (String c s) eq_refl). by destruct (p c).
Qed.

(** The run gives characters back until [k] succeeds: it ends after [a]
    when [k] succeeds there and at no later point of the run [a x]. *)
Lemma star_found a x s r :
  all_chars p a = true → all_chars p x = true → stops p s →
  k (x +:+ s) = Some r →
  (∀ x1 x2, x = x1 +:+ x2 → x1 ≠ "" → k (x2 +:+ s) = None) →
  star p (a +:+ x +:+ s) k = Some r.
Proof.
  intros Ha Hx Hs Hr Hk.
  assert (Hxs : star p (x +:+ s) k = Some r).
  { destruct x as [|c x].
    - by rewrite star_stops.
    - rewrite app_cons. simpl in *. apply andb_true_iff in Hx as [-> Hx].
      rewrite star_none; [done..|].
      intros x1 x2 ->. by apply (Hk (String c x1) x2). }
  clear Hk Hr. induction a as [|c a IH]; [done|].
  rewrite app_cons. simpl in *. apply andb_true_iff in Ha as [-> Ha].
  by rewrite IH.
Qed.

(** The run is exactly [a] when what follows cannot begin inside [a]. *)
Lemma star_exact a s :
  all_chars p a = true → stops p s →
  (∀ a1 a2, a = a1 +:+ a2 → a2 ≠ "" → k (a2 +:+ s) = None) →
  star p (a +:+ s) k = k s.
Proof.
  induction a as [|c a IH]; intros Ha Hs Hk.
  - by apply star_stops.
  - rewrite app_cons. simpl in *. apply andb_true_iff in Ha as [-> Ha].
    rewrite IH; [|done|done|intros a1 a2 ->; apply (Hk (String c a1) a2 eq_refl)].
    destruct (k s) eqn:Hks; [done|]. by apply (Hk "" (String c a)).
Qed.
End Star.

(** A run that ends the pattern always matches. *)
Lemma star_final {B} p s (b : B) :
  ∃ rest, star p s (λ s', Some (b, s')) = Some (b, rest).
Proof.
  induction s as [|c s [rest IH]]; simpl; [by eexists|].
  destruct (p c); [|by eexists]. rewrite IH. by eexists.
Qed.

(** ** Matching, searching and substituting *)

Lemma matches_false r s : match_at r s = None → matches r s = false.
Proof.
  intros H. unfold matches, re_match. rewrite H. apply bool_decide_eq_false.
  by intros [? ?].
Qed.

Lemma sub_unchanged r repl s : re_search r s = false → re_sub r repl s = s.
Proof.
  unfold re_sub. induction s as [|c s IH]; simpl; unfold match_len.
  - by destruct (match_at r "").
  - destruct (match_at r (String c s)); [done|]. simpl. intros Hs. by rewrite IH.
Qed.

Lemma search_comment s : contains "//" s = false → re_search re_comment s = false.
Proof.
  induction s as [|c s IH]; [done|].
  rewrite contains_cons. intros Hc. cbn [re_search].
  unfold match_at at 1, re_comment. cbn [rmatch].
  destruct (strip_prefix "//" (String c s)); [done|]. by apply IH.
Qed.

Lemma no_comment s : contains "//" s = false → re_sub re_comment "" s = s.
Proof. intros. by apply sub_unchanged, search_comment. Qed.

Lemma not_blank x c y :
  is_space c = false → matches re_blank (x +:+ String c "" +:+ y) = false.
Proof.
  intros Hc. apply matches_false. unfold match_at, re_blank. cbn [rmatch].
  change (String c "" +:+ y) with (String c y).
  induction x as [|d x IH].
  - change ("" +:+ String c y) with (String c y). simpl. rewrite Hc.
    destruct y; [|done].
    destruct (Ascii.eqb_spec c newline) as [->|]; [done|done].
  - rewrite app_cons. simpl. rewrite IH.
    destruct (is_space d).
    + by destruct (x +:+ String c y) eqn:Hx; [destruct x|].
    + by destruct (x +:+ String c y) eqn:Hx; [destruct x|].
Qed.

Lemma sub_trailing_backslash s :
  re_sub re_trailing_backslash "" (s +:+ "\") = s.
Proof.
  unfold re_sub. induction s as [|c s IH].
  - reflexivity.
  - rewrite app_cons. simpl. rewrite IH.
    assert (Hm : match_len re_trailing_backslash (String c (s +:+ "\")) = None).
    { unfold match_len, match_at, re_trailing_backslash. cbn [rmatch]. simpl.
      destruct (Ascii.eqb "\" c); [|done].
      destruct s as [|d s]; [done|]. rewrite app_cons.
      destruct (s +:+ "\") eqn:Hs; [destruct s; discriminate|done]. }
    by rewrite Hm.
Qed.

(** ** The struct-table patterns on lines of known shape *)

Lemma entry_no_match w0 rest :
  all_chars is_space w0 = true → contains "}," rest = false →
  match_at re_entry (w0 +:+ "{" +:+ rest) = None.
Proof.
  intros Hw0 Hrest. unfold match_at, re_entry. cbn [rmatch].
  rewrite star_exact; [|done|done|].
  - rewrite strip_prefix_app. apply star_none_anywhere.
    intros a b ->. by rewrite (contains_suffix _ _ _ Hrest).
  - intros a1 a2 -> Hne. rewrite strip_prefix_head; [done|].
    by eapply head_of_run.
Qed.

Lemma entry_open_match w0 c1 w1 :
  all_chars is_space w0 = true → all_chars is_dot c1 = true →
  all_chars is_blank w1 = true →
  match_at re_entry_open (opening_line w0 c1 w1) = Some ([(1, c1)], "").
Proof.
  intros Hw0 Hc1 Hw1. unfold match_at, re_entry_open, opening_line. cbn [rmatch].
  rewrite star_exact; [|done|done|].
  - rewrite strip_prefix_app.
    rewrite <-(str_app_assoc "\" w1 nl).
    erewrite star_found; [reflexivity|done| |done| |].
    + rewrite all_chars_app. by rewrite (blank_dot _ Hw1).
    + cbv beta. rewrite take_str_app.
      rewrite (str_app_assoc "\" w1 nl), strip_prefix_app.
      apply star_all; [|done].
      rewrite all_chars_app. by rewrite (blank_space _ Hw1).
    + intros x1 x2 Hx Hne. cbv beta. rewrite strip_prefix_head; [done|].
      by eapply (head_after is_blank _ w1).
  - intros a1 a2 -> Hne. rewrite strip_prefix_head; [done|].
    by eapply head_of_run.
Qed.

Lemma entry_close_no_match line :
  contains "}" line = false → match_at re_entry_close line = None.
Proof.
  intros Hline. unfold match_at, re_entry_close. cbn [rmatch].
  apply star_none_anywhere. intros a b ->. cbv beta.
  by rewrite (contains_suffix _ _ _ Hline).
Qed.

Lemma entry_close_match c3 t :
  all_chars is_dot c3 = true → all_chars is_tail t = true →
  match_at re_entry_close (closing_line c3 t) = Some ([(1, c3)], "").
Proof.
  intros Hc3 Ht. unfold match_at, re_entry_close, closing_line. cbn [rmatch].
  rewrite <-(str_app_assoc "}," t nl).
  erewrite star_found; [reflexivity|done| |done| |].
  - rewrite all_chars_app. by rewrite (tail_dot _ Ht).
  - cbv beta. rewrite take_str_app.
    change ("}," +:+ t) with ("}" +:+ "," +:+ t).
    rewrite (str_app_assoc "}" ("," +:+ t) nl), strip_prefix_app.
    apply star_all; [|done].
    rewrite !all_chars_app. by rewrite (tail_class _ Ht).
  - intros x1 x2 Hx Hne. cbv beta. rewrite strip_prefix_head; [done|].
    eapply (head_after (not_char "}") _ ("," +:+ t)); [exact Hx|done| |done|done].
    rewrite all_chars_app. by rewrite (tail_no_brace _ Ht).
Qed.

Lemma entry_match w0 c t :
  all_chars is_space w0 = true → all_chars is_dot c = true →
  all_chars is_tail t = true →
  ∃ rest, match_at re_entry (w0 +:+ "{" +:+ c +:+ "}," +:+ t +:+ nl) = Some ([(1, c)], rest).
Proof.
  intros Hw0 Hc Ht. unfold match_at, re_entry. cbn [rmatch].
  destruct (star_final is_space (t +:+ nl) [(1, c)]) as [rest Hrest].
  exists rest.
  rewrite star_exact; [|done|done|].
  - rewrite strip_prefix_app.
    rewrite <-(str_app_assoc "}," t nl).
    erewrite star_found; [reflexivity|done| |done| |].
    + rewrite all_chars_app. by rewrite (tail_dot _ Ht).
    + cbv beta. rewrite take_str_app.
      rewrite (str_app_assoc "}," t nl), strip_prefix_app. exact Hrest.
    + intros x1 x2 Hx Hne. cbv beta. rewrite strip_prefix_head; [done|].
      eapply (head_after (not_char "}") _ ("," +:+ t)); [exact Hx|done| |done|done].
      rewrite all_chars_app. by rewrite (tail_no_brace _ Ht).
  - intros a1 a2 -> Hne. rewrite strip_prefix_head; [done|].
    by eapply head_of_run.
Qed.

(** ** A table entry on three lines (lines 119-150) *)

Section ThreeLines.
Variables (w0 c1 w1 c2 w2 w3 c3 t : string).

Local Abbreviation line1 := (opening_line w0 c1 w1).
Local Abbreviation line2 := (middle_line c2 w2 w3).
Local Abbreviation line3 := (closing_line c3 t).
Local Abbreviation line := (single_line w0 c1 c2 c3 t).

(** The pieces are white space and text as the layout says, and no piece
    holds a line terminator. *)
Hypothesis indent : all_chars is_space w0 = true.
Hypothesis blank1 : all_chars is_blank w1 = true.
Hypothesis blank2 : all_chars is_blank w2 = true.
Hypothesis blank3 : all_chars is_blank w3 = true.
Hypothesis tail : all_chars is_tail t = true.
Hypothesis text1 : all_chars is_dot c1 = true.
Hypothesis text2 : all_chars is_dot c2 = true.
Hypothesis text3 : all_chars is_dot c3 = true.
(** No line has a comment. *)
Hypothesis comment1 : contains "//" line1 = false.
Hypothesis comment2 : contains "//" line2 = false.
Hypothesis comment3 : contains "//" line3 = false.
Hypothesis comment : contains "//" line = false.
(** Neither the opening line nor the single line is passed over as a
    sub-table marker. *)
Hypothesis from1 : contains "LOG_STRUCTURE_FROM_" line1 = false.
Hypothesis rtc1 : contains "LOG_RTC_MESSAGE" line1 = false.
Hypothesis from : contains "LOG_STRUCTURE_FROM_" line = false.
Hypothesis rtc : contains "LOG_RTC_MESSAGE" line = false.
(** The opening line does not close an entry, the middle line has no
    closing brace. *)
Hypothesis open1 : contains "}," line1 = false.
Hypothesis open2 : contains "}" line2 = false.
(** The middle text ends in no white space, and nowhere in it are two
    double quotes separated by white space only. *)
Hypothesis stripped : rstrip c2 = c2.
Hypothesis no_concat : re_search re_string_concat c2 = false.

Lemma opening_line_step st :
  state st = STATE_INSIDE → linestate st = LINESTATE_NONE →
  structure_line st line1
  = Ok (TableScan STATE_INSIDE LINESTATE_WITHIN c1 (message_infos st)).
Proof.
  intros Hs Hl. unfold structure_line. rewrite no_comment by done.
  rewrite Hs, Hl, from1, rtc1. cbn [orb].
  unfold opening_line at 1. rewrite not_blank by done.
  unfold re_match. unfold opening_line at 1.
  rewrite entry_no_match; [|done|].
  - cbn [fmap option_fmap option_map]. by rewrite entry_open_match.
  - apply (contains_app_r _ (w0 +:+ "{")). by rewrite str_app_assoc.
Qed.

Lemma middle_line_step infos :
  structure_line (TableScan STATE_INSIDE LINESTATE_WITHIN c1 infos) line2
  = Ok (TableScan STATE_INSIDE LINESTATE_WITHIN (c1 +:+ c2) infos).
Proof.
  unfold structure_line. rewrite no_comment by done. cbn [state linestate].
  assert (Hnb : matches re_blank line2 = false).
  { unfold middle_line. rewrite <-(str_app_assoc c2 w2). by apply not_blank. }
  rewrite Hnb. unfold re_match. rewrite entry_close_no_match by done.
  cbn [fmap option_fmap option_map].
  assert (Hr : rstrip line2 = (c2 +:+ w2) +:+ "\").
  { unfold middle_line. rewrite <-!str_app_assoc.
    rewrite (str_app_assoc _ w3 nl).
    rewrite rstrip_app_space.
    - by apply rstrip_end.
    - rewrite all_chars_app. by rewrite (blank_space _ blank3). }
  rewrite Hr, sub_trailing_backslash, eqb_shorter.
  rewrite rstrip_app_space by (by apply blank_space).
  rewrite stripped, sub_unchanged by done. done.
Qed.

Lemma closing_line_step infos :
  structure_line (TableScan STATE_INSIDE LINESTATE_WITHIN (c1 +:+ c2) infos) line3
  = Ok (TableScan STATE_INSIDE LINESTATE_NONE (c1 +:+ c2) (infos ++ [c1 +:+ c2 +:+ c3])).
Proof.
  unfold structure_line. rewrite no_comment by done. cbn [state linestate].
  assert (Hnb : matches re_blank line3 = false).
  { unfold closing_line. change ("}," +:+ t +:+ nl) with ("}" +:+ "," +:+ t +:+ nl).
    by apply not_blank. }
  rewrite Hnb. unfold re_match. rewrite entry_close_match by done.
  cbn. by rewrite str_app_assoc.
Qed.

Lemma single_line_step st :
  state st = STATE_INSIDE → linestate st = LINESTATE_NONE →
  structure_line st line
  = Ok (TableScan STATE_INSIDE LINESTATE_NONE (partial_line st)
          (message_infos st ++ [c1 +:+ c2 +:+ c3])).
Proof.
  intros Hs Hl. unfold structure_line. rewrite no_comment by done.
  rewrite Hs, Hl, from, rtc. cbn [orb].
  unfold single_line at 1. rewrite not_blank by done.
  unfold re_match, single_line.
  destruct (entry_match w0 (c1 +:+ c2 +:+ c3) t) as [rest ->]; [done| |done|].
  - rewrite !all_chars_app. by rewrite text1, text2, text3.
  - done.
Qed.

(** C8 (amended): a struct-table entry written on three lines joined by
    the continuation marker is reassembled to the raw entry [c1 c2 c3], the
    very entry that its content written on one line yields, and so
    normalizes to the same records -- for lines without comments and
    sub-table markers, when the opening line holds no closing brace followed
    by a comma, the middle line holds no closing brace, and the text of the
    middle line ends in no white space and nowhere has two double quotes
    with only white space between them. *)
Theorem C8_three_lines_as_one :
  same_entry_as_single_line [line1; line2; line3] line (c1 +:+ c2 +:+ c3)
  ∧ same_records_as_single_line [line1; line2; line3] line.
Proof.
  assert (∀ st, state st = STATE_INSIDE → linestate st = LINESTATE_NONE →
            structure_lines [line1; line2; line3] st
            = Ok (TableScan STATE_INSIDE LINESTATE_NONE (c1 +:+ c2)
                    (message_infos st ++ [c1 +:+ c2 +:+ c3]))) as H3.
  { intros st Hs Hl. cbn [structure_lines].
    rewrite opening_line_step by done. cbn [mbind result_bind].
    rewrite middle_line_step. cbn [mbind result_bind].
    rewrite closing_line_step. reflexivity. }
  assert (∀ st, state st = STATE_INSIDE → linestate st = LINESTATE_NONE →
            structure_lines [line] st
            = Ok (TableScan STATE_INSIDE LINESTATE_NONE (partial_line st)
                    (message_infos st ++ [c1 +:+ c2 +:+ c3]))) as H1.
  { intros st Hs Hl. cbn [structure_lines]. rewrite single_line_step by done. reflexivity. }
  split.
  - intros st Hs Hl. eexists _, _.
    split; [by apply H3|]. split; [by apply H1|]. by repeat split.
  - intros st defines ids Hs Hl. eexists _, _.
    split; [by apply H3|]. split; [by apply H1|]. reflexivity.
Qed.
End ThreeLines.

(** The amended C8 at an entry of the usual shape. *)
Lemma C8_three_lines_as_one_witness :
  same_entry_as_single_line c8_three_ok c8_one_ok
    (cpp " LOG_X_MSG, sizeof(log_X),       'X', 'Qf',      'TimeUS,A', 's-', 'F-' ")
  ∧ same_records_as_single_line c8_three_ok c8_one_ok.
Proof.
  apply (C8_three_lines_as_one "    " " LOG_X_MSG, sizeof(log_X), " ""
           (cpp "      'X', 'Qf',") " " " " (cpp "      'TimeUS,A', 's-', 'F-' ") " \");
    vm_compute; reflexivity.
Defined.

(** C8 as worded fails: the one-line shape of an entry asks for a comma
    after the closing brace, the closing line of a multi-line entry does not.
    The last entry of a table, closed without a comma, yields the record [X]
    when written on three lines and no record when written on one. *)
Lemma C8_counterexample : ¬ same_records_as_single_line c8_three c8_one.
Proof.
  intros H.
  destruct (H (TableScan STATE_INSIDE LINESTATE_NONE "" []) [] ∅ eq_refl eq_refl)
    as (st3 & st1 & H3 & H1 & Heq).
  vm_compute in H3. vm_compute in H1.
  injection H3 as <-. injection H1 as <-.
  vm_compute in Heq. discriminate Heq.
Qed.

(** Why the middle line must not hold two double quotes separated by white
    space only: the substitution that joins adjacent string literals also
    deletes an empty literal there, and the reassembled entry no longer fits
    the grammar, while the same content on one line yields the record. *)
Lemma empty_literal_on_middle_line :
  structure_lines c8_three_empty (TableScan STATE_INSIDE LINESTATE_NONE "" [])
    ≫= (λ st, structure_ids [] (message_infos st) ∅) = Ok ∅
  ∧ structure_lines [c8_one_empty] (TableScan STATE_INSIDE LINESTATE_NONE "" [])
    ≫= (λ st, structure_ids [] (message_infos st) ∅)
    = Ok (<["X" := Message "X" (Some "Q") "TimeUS" (Some "") (Some "")]> ∅).
Proof. split; vm_compute; reflexivity. Qed.

(** ** The call-site extractor (lines 257-297) *)

(** A line of one of the two call-opening shapes always takes the extractor
    inside a statement; whether it holds the terminator is not looked at. *)
Lemma callsite_line_opening st line :
  call_state st = STATE_OUTSIDE →
  matches re_call_open_ap line || matches re_call_open_logger line = true →
  callsite_line st line
  = CallScan STATE_INSIDE (re_sub re_comment "" line) (log_write_statements st).
Proof. intros Hs Hopen. unfold callsite_line. by rewrite Hs, Hopen. Qed.

(** C4, the code at the failing input: a call written on one line is an
    opening line that holds the terminator, yet the extractor stays inside
    the statement.  A file that ends there fails; when another one-line call
    follows, it is appended to the first, the statement closes on it, and
    the message [TWO] is never recorded. *)
Theorem C4_one_line_call_is_left_open :
  (matches re_call_open_logger c4_one = true ∧ contains ");" c4_one = true)
  ∧ callsite_line (CallScan STATE_OUTSIDE "" []) c4_one = CallScan STATE_INSIDE c4_one []
  ∧ all_log_format_ids [] [] [[c4_one]] = Raise ExpectedOutside
  ∧ callsite_files [[c4_one; c4_two]] = Ok [c4_one +:+ c4_two]
  ∧ all_log_format_ids [] [] [[c4_one; c4_two]]
    = Ok (<["ONE" := call_message "ONE" "TimeUS,A"]> ∅).
Proof. repeat split; vm_compute; reflexivity. Qed.

(** C3, the code at the failing input: the adjacent literals are joined
    line by line, so a literal split over two lines is not joined, and the
    labels recovered from the split statement stop at the end of its first
    part. *)
Theorem C3_literal_split_over_lines_is_not_joined :
  all_log_format_ids [] [] [c3_unsplit]
    = Ok (<["NAME" := call_message "NAME" "TimeUS,Roll"]> ∅)
  ∧ all_log_format_ids [] [] [c3_split]
    = Ok (<["NAME" := call_message "NAME" "TimeUS,"]> ∅).
Proof. split; vm_compute; reflexivity. Qed.

(** ** The struct-table scanners at the end of their input (lines 152-153, 220-221) *)

Lemma structure_file_ends_outside_entry lines st st' :
  structure_file lines st = Ok st' → linestate st' = LINESTATE_NONE.
Proof.
  unfold structure_file. destruct (structure_lines _ _) as [st''|]; simpl; [|done].
  case_decide as Hl; [done|]. intros [= <-]. by destruct (linestate st'').
Qed.

Lemma vehicle_file_ends_outside_table lines st st' :
  vehicle_file lines st = Ok st' → state st' = STATE_OUTSIDE.
Proof.
  unfold vehicle_file. destruct (vehicle_lines _ _) as [st''|]; simpl; [|done].
  case_decide as Hs; [done|]. intros [= <-]. by destruct (state st'').
Qed.

(** C7, the code at the failing input: in the vehicle file the line that
    closes the table is looked for before the state of the entry, so a table
    closed while an entry is open ends the scan normally, with the entry
    still buffered; the run goes on and returns its records.  The
    declaration-file scan fails on the same kind of input. *)
Theorem C7_vehicle_table_closed_inside_an_entry :
  vehicle_file c7_log_cpp (TableScan STATE_OUTSIDE LINESTATE_NONE "" [])
    = Ok (TableScan STATE_OUTSIDE LINESTATE_WITHIN
            " LOG_CONTROL_TUNING_MSG, sizeof(log_Control_Tuning)," [])
  ∧ all_log_format_ids [] c7_log_cpp [c3_unsplit]
    = Ok (<["NAME" := call_message "NAME" "TimeUS,Roll"]> ∅)
  ∧ structure_file c7_structure_file (TableScan STATE_OUTSIDE LINESTATE_NONE "" [])
    = Raise MustBeLinestateNone.
Proof. repeat split; vm_compute; reflexivity. Qed.

(** ** The merged record set (lines 223-238 and 282-311) *)

Section Merge.
Context (defines : defines_table).

Lemma raises_Raise {A} (e : error) : raises (Raise e : result A).
Proof. by exists e. Qed.

Lemma raises_bind {A B} (r : result A) (f : A → result B) :
  raises r → raises (r ≫= f).
Proof. intros [e ->]. by exists e. Qed.

Lemma structure_ids_present infos ids y r :
  y ∈ infos → structure_record defines y = Some r → msg_name r ∈ dom ids →
  raises (structure_ids defines infos ids).
Proof.
  revert ids. induction infos as [|h infos IH]; intros ids Hy Hr Hin; [by inversion Hy|].
  simpl. apply elem_of_cons in Hy as [<-|Hy].
  - rewrite Hr. apply elem_of_dom in Hin as [? ->]. apply raises_Raise.
  - destruct (structure_record defines h) as [rh|]; [|by eapply IH].
    destruct (ids !! msg_name rh); [apply raises_Raise|].
    eapply IH; [done..|]. rewrite dom_insert_L. set_solver.
Qed.

Lemma structure_ids_duplicate infos i j x y r r' ids :
  i < j → infos !! i = Some x → infos !! j = Some y →
  structure_record defines x = Some r → structure_record defines y = Some r' →
  msg_name r = msg_name r' →
  raises (structure_ids defines infos ids).
Proof.
  revert i j ids. induction infos as [|h infos IH]; intros i j ids Hij Hi Hj Hx Hy Hn; [done|].
  destruct j as [|j]; [lia|]. simpl in Hj. simpl.
  destruct i as [|i]; simpl in Hi.
  - injection Hi as ->. rewrite Hx.
    destruct (ids !! msg_name r); [apply raises_Raise|].
    eapply structure_ids_present; [by eapply list_elem_of_lookup_2|done|].
    rewrite dom_insert_L, Hn. set_solver.
  - destruct (structure_record defines h) as [rh|]; [|eapply (IH i j); [lia|done..]].
    destruct (ids !! msg_name rh); [apply raises_Raise|].
    eapply (IH i j); [lia|done..].
Qed.

Lemma structure_ids_skip pre info post ids :
  structure_record defines info = None →
  structure_ids defines (pre ++ info :: post) ids = structure_ids defines (pre ++ post) ids.
Proof.
  intros Hnone. revert ids. induction pre as [|h pre IH]; intros ids; simpl.
  - by rewrite Hnone.
  - destruct (structure_record defines h) as [rh|]; [|apply IH].
    destruct (ids !! msg_name rh); [done|apply IH].
Qed.

Lemma call_record_raise s e :
  call_record defines s = Raise e → e = DidNotMatch (apply_defines defines s).
Proof.
  unfold call_record.
  destruct (re_match re_call_logger _); [done|].
  destruct (re_match re_call_ap _); [done|]. by intros [= <-].
Qed.

Lemma call_results_lookup statements results i :
  call_results defines statements = Ok results →
  results !! i = (statements !! i) ≫= λ s,
     match call_record defines s with Ok p => Some p | Raise _ => None end.
Proof.
  revert results i. induction statements as [|s statements IH]; intros results i; simpl.
  - intros [= <-]. done.
  - destruct (call_record defines s) as [p|e] eqn:Hs; simpl; [|done].
    destruct (call_results defines statements) as [rs|e]; simpl; [|done].
    intros [= <-]. destruct i as [|i]; simpl; [by rewrite Hs|]. by apply IH.
Qed.

Lemma add_results_present results ids name labels :
  (name, labels) ∈ results → name ∈ dom ids → raises (add_results results ids).
Proof.
  revert ids. induction results as [|[n l] results IH]; intros ids Hin Hdom; [by inversion Hin|].
  simpl. apply elem_of_cons in Hin as [[= <- <-]|Hin].
  - apply elem_of_dom in Hdom as [? ->]. apply raises_Raise.
  - destruct (ids !! n); [apply raises_Raise|].
    eapply IH; [done|]. rewrite dom_insert_L. set_solver.
Qed.

Lemma add_results_duplicate results ids i j name labels labels' :
  i < j → results !! i = Some (name, labels) → results !! j = Some (name, labels') →
  raises (add_results results ids).
Proof.
  revert i j ids. induction results as [|[n l] results IH]; intros i j ids Hij Hi Hj; [done|].
  destruct j as [|j]; [lia|]. simpl in Hj. simpl.
  destruct (ids !! n); [apply raises_Raise|].
  destruct i as [|i]; simpl in Hi.
  - injection Hi as -> ->.
    eapply add_results_present; [by eapply list_elem_of_lookup_2|].
    rewrite dom_insert_L. set_solver.
  - eapply (IH i j); [lia|done..].
Qed.

Lemma callsite_ids_not_empty statements ids : callsite_ids defines statements ids ≠ Ok ∅.
Proof.
  unfold callsite_ids.
  destruct (call_results _ _) as [results|]; simpl; [|done].
  destruct (add_results _ _) as [ids'|]; simpl; [|done].
  case_decide as Hsize; [done|]. intros [= ->]. apply Hsize, map_size_empty.
Qed.

(** C6: building the merged record set raises when two struct-table
    entries normalize to records of the same name; when the name of a
    call-site statement is already among the records it is merged into, or
    is the name of another call-site statement; and when the merged set is
    empty -- so the set returned is never empty. *)
Theorem C6_duplicate_names_and_empty_set_raise :
  (∀ infos ids i j x y r r',
     i < j → infos !! i = Some x → infos !! j = Some y →
     structure_record defines x = Some r → structure_record defines y = Some r' →
     msg_name r = msg_name r' →
     raises (structure_ids defines infos ids))
  ∧ (∀ statements ids i s name labels,
       statements !! i = Some s →
       call_record defines (collapse_whitespace s) = Ok (name, labels) →
       (name ∈ dom ids
        ∨ ∃ j s' labels', j ≠ i ∧ statements !! j = Some s'
            ∧ call_record defines (collapse_whitespace s') = Ok (name, labels')) →
       raises (callsite_ids defines statements ids))
  ∧ (∀ statements ids results,
       call_results defines (collapse_whitespace <$> statements) = Ok results →
       add_results results ids = Ok ∅ →
       callsite_ids defines statements ids = Raise NoIds)
  ∧ (∀ statements ids, callsite_ids defines statements ids ≠ Ok ∅).
Proof.
  split; [|split; [|split]].
  - intros. by eapply structure_ids_duplicate.
  - intros statements ids i s name labels Hi Hs Hdup. unfold callsite_ids.
    destruct (call_results defines (collapse_whitespace <$> statements))
      as [results|e] eqn:Hres; simpl; [|apply raises_Raise].
    apply raises_bind.
    assert (Hlook : ∀ k t p, statements !! k = Some t →
              call_record defines (collapse_whitespace t) = Ok p → results !! k = Some p).
    { intros k t p Hk Ht. rewrite (call_results_lookup _ _ _ Hres).
      rewrite list_lookup_fmap, Hk. simpl. by rewrite Ht. }
    destruct Hdup as [Hin|(j & s' & labels' & Hne & Hj & Hs')].
    + eapply add_results_present; [|done].
      eapply list_elem_of_lookup_2, Hlook; done.
    + destruct (decide (i < j)).
      * eapply (add_results_duplicate _ _ i j); [done|by eapply Hlook..].
      * eapply (add_results_duplicate _ _ j i); [lia|by eapply Hlook..].
  - intros statements ids results Hres Hadd. unfold callsite_ids.
    rewrite Hres. simpl. rewrite Hadd. simpl. rewrite decide_True; [done|].
    apply map_size_empty.
  - apply callsite_ids_not_empty.
Qed.

(** C9: a struct-table entry whose text, after macro substitution, does not
    fit the strict grammar leaves the record set and the outcome as they
    are without it; a call-site statement whose text, after white-space
    collapse and macro substitution, fits neither call shape makes the run
    raise the did-not-match error. *)
Theorem C9_unmatched_entries_by_provenance :
  (∀ pre info post ids,
     re_match re_structure (apply_defines defines info) = None →
     structure_ids defines (pre ++ info :: post) ids
     = structure_ids defines (pre ++ post) ids)
  ∧ (∀ statements statement ids,
       statement ∈ statements →
       re_match re_call_logger (apply_defines defines (collapse_whitespace statement)) = None →
       re_match re_call_ap (apply_defines defines (collapse_whitespace statement)) = None →
       ∃ text, callsite_ids defines statements ids = Raise (DidNotMatch text)).
Proof.
  split.
  - intros pre info post ids Hnone. apply structure_ids_skip.
    unfold structure_record. by rewrite Hnone.
  - intros statements statement ids Hin H1 H2. unfold callsite_ids.
    cut (∃ text, call_results defines (collapse_whitespace <$> statements)
                 = Raise (DidNotMatch text)).
    { intros [text ->]. by exists text. }
    induction statements as [|h statements IH]; [by inversion Hin|].
    rewrite fmap_cons. simpl.
    destruct (call_record defines (collapse_whitespace h)) as [p|e] eqn:Hh; simpl.
    + apply elem_of_cons in Hin as [->|Hin].
      * unfold call_record in Hh. by rewrite H1, H2 in Hh.
      * destruct (IH Hin) as [text ->]. by exists text.
    + apply call_record_raise in Hh as ->. by eexists.
Qed.
End Merge.

(** C6 at two entries named [ATT], at two calls named [ATT], at a call
    named as a record already present, and at no record at all. *)
Lemma C6_duplicate_names_and_empty_set_raise_witness :
  raises (structure_ids [] [att; unexpanded; att_again] ∅)
  ∧ raises (callsite_ids [] [write_att; write_att_again] ∅)
  ∧ raises (callsite_ids [] [write_att] (<["ATT" := call_message "ATT" "TimeUS"]> ∅))
  ∧ callsite_ids [] [] ∅ = Raise NoIds.
Proof.
  destruct (C6_duplicate_names_and_empty_set_raise []) as (H1 & H2 & H3 & _).
  split; [|split; [|split]].
  - eapply (H1 _ _ 0 2); [lia|reflexivity|reflexivity| | |].
    + vm_compute. reflexivity.
    + vm_compute. reflexivity.
    + reflexivity.
  - eapply (H2 _ _ 0); [reflexivity| |].
    + vm_compute. reflexivity.
    + right. exists 1. eexists _, _. split; [lia|]. split; [reflexivity|].
      vm_compute. reflexivity.
  - eapply (H2 _ _ 0); [reflexivity| |].
    + vm_compute. reflexivity.
    + left. vm_compute. reflexivity.
  - apply (H3 [] ∅ []); reflexivity.
Defined.

(** C9 at an entry whose labels are a macro that is not defined, and at a
    call whose name is not a literal. *)
Lemma C9_unmatched_entries_by_provenance_witness :
  structure_ids [] [att; unexpanded] ∅ = structure_ids [] [att] ∅
  ∧ ∃ text, callsite_ids [] [write_att; write_variable] ∅ = Raise (DidNotMatch text).
Proof.
  destruct (C9_unmatched_entries_by_provenance []) as [H1 H2]. split.
  - apply (H1 [att] unexpanded [] ∅). vm_compute. reflexivity.
  - apply (H2 _ write_variable).
    + set_solver.
    + vm_compute. reflexivity.
    + vm_compute. reflexivity.
Defined.

(** ** The cross-reference (lines 427-486) *)

Section Validator.
Context (whitelist : gset string) (docco_ids : gmap string (list string))
        (code_ids : gmap string message).

Lemma size_nonzero (X : gset string) : size X ≠ 0 ↔ X ≠ ∅.
Proof. rewrite size_non_empty_iff. by unfold_leibniz. Qed.

Lemma check_code_names_app before after s0 :
  check_code_names whitelist docco_ids code_ids (before ++ after) s0 =
  match check_code_names whitelist docco_ids code_ids before s0 with
  | Next s => check_code_names whitelist docco_ids code_ids after s
  | Halt out => Halt out
  end.
Proof.
  revert s0. induction before as [|n before IH]; intros s0; simpl; [done|].
  destruct (check_code_name _ _ _ n s0); [apply IH | done].
Qed.

Lemma sorted_keys_elem {V} (d : gmap string V) n : n ∈ sorted_keys d ↔ n ∈ dom d.
Proof.
  unfold sorted_keys, sorted. rewrite merge_sort_Permutation. apply elem_of_elements.
Qed.

(** C1 (amended): when the code-side loop ends without a fatal error and a
    finding set is non-empty, the verdict is failure, and the report is that
    of the first non-empty set alone: the undocumented names; else the
    overdocumented names; else, the documentation-side loop having ended
    without a fatal error, the missing names. *)
Theorem C1_findings_reported_in_turn s :
  check_code_names whitelist docco_ids code_ids (sorted_keys code_ids) start = Next s →
  (undocumented s ≠ ∅ →
     validate_logger_documentation whitelist docco_ids code_ids
     = (output s ++ ErrUndocumented :: (Item <$> sorted_set (undocumented s)), false))
  ∧ (undocumented s = ∅ → overdocumented s ≠ ∅ →
     validate_logger_documentation whitelist docco_ids code_ids
     = (output s ++ ErrOverdocumented :: (Item <$> sorted_set (overdocumented s)), false))
  ∧ (undocumented s = ∅ → overdocumented s = ∅ → ∀ missing out,
     check_doc_names whitelist docco_ids code_ids (sorted_keys docco_ids) ([], output s)
       = Next (missing, out) →
     missing ≠ [] →
     validate_logger_documentation whitelist docco_ids code_ids
     = (out ++ [ErrMissing missing], false)).
Proof.
  intros Hcode. unfold validate_logger_documentation. fold start. rewrite Hcode.
  split; [|split].
  - intros Hne. rewrite decide_True; [done|]. by apply size_nonzero.
  - intros He Hne. rewrite decide_False.
    + rewrite decide_True; [done|]. by apply size_nonzero.
    + rewrite He. rewrite size_empty. lia.
  - intros He1 He2 missing out Hdoc Hne.
    rewrite decide_False by (rewrite He1, size_empty; lia).
    rewrite decide_False by (rewrite He2, size_empty; lia).
    rewrite Hdoc. rewrite decide_True; [done|].
    destruct missing; [done | simpl; lia].
Qed.

Lemma check_labels_whitelisted name documented labels seen s :
  name ∈ whitelist → NoDup labels → (∀ l, l ∈ labels → l ∉ seen) →
  check_labels whitelist name documented labels seen s =
  Next (Findings (undocumented s)
          (if decide (undocumented_labels documented labels = [])
           then overdocumented s else overdocumented s ∖ {[name]})
          (output s ++ label_warnings name documented labels)).
Proof.
  intros Hwl. revert seen s.
  induction labels as [|l labels IH]; intros seen s Hnd Hseen; simpl.
  - rewrite app_nil_r. by destruct s.
  - apply NoDup_cons in Hnd as [Hl Hnd].
    rewrite decide_False by (apply Hseen; left).
    assert (Hseen' : ∀ l', l' ∈ labels → l' ∉ {[l]} ∪ seen).
    { intros l' Hl'. specialize (Hseen l' ltac:(by right)). set_solver. }
    unfold label_warnings, undocumented_labels. rewrite filter_cons.
    destruct (decide (l ∈ documented)) as [Hin|Hnin].
    + rewrite (decide_False (P := l ∉ documented)) by tauto.
      by rewrite IH.
    + rewrite (decide_True (P := l ∉ documented)) by done.
      rewrite (decide_True (P := name ∈ whitelist)) by done.
      rewrite IH by done. simpl.
      f_equal. f_equal.
      * case_decide; set_solver.
      * by rewrite <-app_assoc.
Qed.

Lemma check_fields_halt name labels pre label post out :
  Forall (λ l, l ∈ labels) pre → label ∉ labels →
  check_fields name labels (pre ++ label :: post) out
  = Halt (out ++ [ErrFieldNotInCode name label]).
Proof.
  intros Hpre Hl. induction Hpre as [|l pre Hin _ IH]; simpl.
  - by rewrite decide_False.
  - by rewrite decide_True.
Qed.

(** C2 (amended): for a whitelisted name present on both sides, every code
    label that is not documented draws a warning, the name ends up outside
    the overdocumented set as soon as there is one, and the loop goes on
    (the labels being distinct); a documented field that is not among the
    code labels stops the run with an error, whitelisted or not. *)
Theorem C2_whitelist_tolerates_code_labels_only name documented m :
  name ∈ whitelist → docco_ids !! name = Some documented → code_ids !! name = Some m →
  (NoDup (split "," (msg_labels m)) → ∀ s,
     check_code_name whitelist docco_ids code_ids name s =
     Next (Findings (undocumented s)
             (if decide (undocumented_labels documented (split "," (msg_labels m)) = [])
              then {[name]} ∪ overdocumented s else overdocumented s ∖ {[name]})
             (output s ++ label_warnings name documented (split "," (msg_labels m)))))
  ∧ (∀ pre label post s,
       documented = pre ++ label :: post →
       Forall (λ l, l ∈ split "," (msg_labels m)) pre →
       label ∉ split "," (msg_labels m) →
       check_doc_name whitelist docco_ids code_ids name s
       = Halt (s.2 ++ [ErrFieldNotInCode name label])).
Proof.
  intros Hwl Hdoc Hcode. split.
  - intros Hnd s. unfold check_code_name. rewrite Hdoc.
    rewrite decide_True by done.
    unfold code_labels. rewrite (lookup_total_correct _ _ _ Hcode).
    rewrite check_labels_whitelisted; [|done|done|set_solver].
    simpl. f_equal. f_equal. case_decide; [done|set_solver].
  - intros pre label post [missing out] -> Hpre Hl. unfold check_doc_name.
    assert (Hin : name ∈ dom code_ids) by (apply elem_of_dom; eauto).
    rewrite decide_False by tauto.
    rewrite decide_False by tauto.
    unfold code_labels.
    rewrite (lookup_total_correct _ _ _ Hcode), (lookup_total_correct _ _ _ Hdoc).
    by rewrite check_fields_halt.
Qed.

Lemma check_labels_first_missing name documented pre label post seen s :
  name ∉ whitelist → Forall (λ l, l ∈ documented) pre → NoDup pre →
  (∀ l, l ∈ seen → l ∈ documented ∧ l ∉ pre) → label ∉ documented →
  check_labels whitelist name documented (pre ++ label :: post) seen s
  = Halt (output s ++ [ErrNotDocumented name label documented]).
Proof.
  intros Hwl Hpre. revert seen.
  induction Hpre as [|l pre Hin _ IH]; intros seen Hnd Hseen Hl; simpl.
  - rewrite decide_False by (intros Hs; by apply Hseen in Hs as [? _]).
    rewrite decide_False by done. by rewrite decide_False.
  - apply NoDup_cons in Hnd as [Hlpre Hnd].
    rewrite decide_False by (intros Hs; apply Hseen in Hs as [_ Hs]; set_solver).
    rewrite decide_True by done.
    apply IH; [done| |done].
    intros l' [->%elem_of_singleton|Hl']%elem_of_union; [done|].
    apply Hseen in Hl' as [? ?]. set_solver.
Qed.

(** C5 (amended): for a documented, non-whitelisted code-side name whose
    labels before the first undocumented one are distinct, that label stops
    the run with an error naming the message and the label; the names after
    it are not scanned, and the verdict is failure. *)
Theorem C5_first_missing_label_is_fatal name documented pre label post before after s0 s :
  name ∉ whitelist → docco_ids !! name = Some documented →
  code_labels code_ids name = pre ++ label :: post →
  Forall (λ l, l ∈ documented) pre → NoDup pre → label ∉ documented →
  check_code_names whitelist docco_ids code_ids before s0 = Next s →
  check_code_names whitelist docco_ids code_ids (before ++ name :: after) s0
    = Halt (output s ++ [ErrNotDocumented name label documented])
  ∧ (s0 = start → sorted_keys code_ids = before ++ name :: after →
     validate_logger_documentation whitelist docco_ids code_ids
     = (output s ++ [ErrNotDocumented name label documented], false)).
Proof.
  intros Hwl Hdoc Hlabels Hpre Hnd Hl Hbefore.
  assert (Hhalt : check_code_names whitelist docco_ids code_ids (before ++ name :: after) s0
                  = Halt (output s ++ [ErrNotDocumented name label documented])).
  { rewrite check_code_names_app, Hbefore. simpl.
    unfold check_code_name. rewrite Hdoc, decide_False by done.
    rewrite Hlabels, check_labels_first_missing; [done..|set_solver|done]. }
  split; [done|].
  intros -> Hkeys. unfold validate_logger_documentation. fold start.
  by rewrite Hkeys, Hhalt.
Qed.

Lemma check_code_name_record_unread name m m' n s :
  docco_ids !! name = None →
  check_code_name whitelist docco_ids (<[name := m]> code_ids) n s
  = check_code_name whitelist docco_ids (<[name := m']> code_ids) n s.
Proof.
  intros Hdoc. unfold check_code_name.
  destruct (decide (n = name)) as [->|Hne].
  - by rewrite Hdoc.
  - unfold code_labels. by rewrite !lookup_total_insert_ne.
Qed.

Lemma check_code_names_record_unread name m m' names s :
  docco_ids !! name = None →
  check_code_names whitelist docco_ids (<[name := m]> code_ids) names s
  = check_code_names whitelist docco_ids (<[name := m']> code_ids) names s.
Proof.
  intros Hdoc. revert s. induction names as [|n names IH]; intros s; simpl; [done|].
  rewrite (check_code_name_record_unread name m m') by done.
  destruct (check_code_name _ _ _ n s); [apply IH | done].
Qed.

Lemma check_doc_name_record_unread name m m' n s :
  n ≠ name →
  check_doc_name whitelist docco_ids (<[name := m]> code_ids) n s
  = check_doc_name whitelist docco_ids (<[name := m']> code_ids) n s.
Proof.
  intros Hne. unfold check_doc_name, code_labels.
  by rewrite !dom_insert_L, !lookup_total_insert_ne.
Qed.

Lemma check_doc_names_record_unread name m m' names s :
  name ∉ names →
  check_doc_names whitelist docco_ids (<[name := m]> code_ids) names s
  = check_doc_names whitelist docco_ids (<[name := m']> code_ids) names s.
Proof.
  revert s. induction names as [|n names IH]; intros s Hnin; simpl; [done|].
  rewrite (check_doc_name_record_unread name m m') by set_solver.
  destruct (check_doc_name _ _ _ n s); [apply IH; set_solver | done].
Qed.

(** The report and the verdict of a run do not depend on the record that is
    stored under a code-side name without documentation. *)
Lemma validate_record_unread name m m' :
  docco_ids !! name = None →
  validate_logger_documentation whitelist docco_ids (<[name := m]> code_ids)
  = validate_logger_documentation whitelist docco_ids (<[name := m']> code_ids).
Proof.
  intros Hdoc. unfold validate_logger_documentation, sorted_keys.
  rewrite !dom_insert_L.
  rewrite (check_code_names_record_unread name m m') by done.
  destruct (check_code_names _ _ _ _ _); [|done].
  do 2 (case_decide; [done|]).
  rewrite (check_doc_names_record_unread name m m'); [done|].
  fold (sorted_keys docco_ids). rewrite sorted_keys_elem.
  by apply not_elem_of_dom.
Qed.
End Validator.

(** *** The cross-reference on the inputs *)

Lemma c1_code_loop :
  check_code_names c1_whitelist c1_docco c1_code (sorted_keys c1_code) start
  = Next (Findings {["A"]} {["W"]} []).
Proof. vm_compute. reflexivity. Qed.

Lemma c1_doc_loop :
  check_doc_names c1_whitelist c1_docco c1_code (sorted_keys c1_docco) ([], [])
  = Next (["B"], []).
Proof. vm_compute. reflexivity. Qed.

Lemma c1_run :
  validate_logger_documentation c1_whitelist c1_docco c1_code
  = ([ErrUndocumented; Item "A"], false).
Proof. vm_compute. reflexivity. Qed.

(** C1 as worded fails: with [A] undocumented, [W] overdocumented and [B]
    missing, neither loop prints a fatal error, and the run reports the
    undocumented name and returns; the overdocumented name is not reported. *)
Lemma C1_counterexample : ¬ findings_reported_together c1_whitelist c1_docco c1_code.
Proof.
  intros H.
  destruct (H _ _ _ c1_code_loop c1_doc_loop) as (_ & _ & Hover & _).
  { left. vm_compute. discriminate. }
  rewrite c1_run in Hover.
  assert (Hin : ErrOverdocumented ∈ [ErrUndocumented; Item "A"]).
  { apply Hover. vm_compute. discriminate. }
  rewrite !elem_of_cons, elem_of_nil in Hin. naive_solver.
Qed.

(** The amended C1 in each of its three cases. *)
Lemma C1_findings_reported_in_turn_witness :
  validate_logger_documentation c1_whitelist c1_docco c1_code
    = ([ErrUndocumented; Item "A"], false)
  ∧ validate_logger_documentation c1_whitelist c1_docco_over c1_code_over
    = ([ErrOverdocumented; Item "W"], false)
  ∧ validate_logger_documentation {["C"]} c1_docco_missing c1_code_missing
    = ([ErrMissing ["B"]], false).
Proof.
  split; [|split].
  - destruct (C1_findings_reported_in_turn c1_whitelist c1_docco c1_code
                (Findings {["A"]} {["W"]} [])) as (H & _ & _).
    + vm_compute. reflexivity.
    + rewrite H; [vm_compute; reflexivity | vm_compute; discriminate].
  - destruct (C1_findings_reported_in_turn c1_whitelist c1_docco_over c1_code_over
                (Findings ∅ {["W"]} [])) as (_ & H & _).
    + vm_compute. reflexivity.
    + rewrite H; [vm_compute; reflexivity | reflexivity | vm_compute; discriminate].
  - destruct (C1_findings_reported_in_turn {["C"]} c1_docco_missing c1_code_missing
                (Findings ∅ ∅ [])) as (_ & _ & H).
    + vm_compute. reflexivity.
    + apply (H eq_refl eq_refl ["B"] []); [vm_compute; reflexivity | discriminate].
Defined.

Lemma c2_run :
  validate_logger_documentation c2_whitelist c2_docco c2_code
  = ([WarnNotDocumented "W" "C" ["A"; "B"]; ErrFieldNotInCode "W" "B"], false).
Proof. vm_compute. reflexivity. Qed.

(** C2 as worded fails: for the whitelisted [W], present on both sides, the
    documented field [B] that the code does not have stops the
    documentation-side loop with an error. *)
Lemma C2_counterexample : ¬ whitelisted_mismatch_tolerated c2_whitelist c2_docco c2_code.
Proof.
  intros H. destruct (H "W") as [_ Hdoc].
  - vm_compute. reflexivity.
  - vm_compute. reflexivity.
  - vm_compute. reflexivity.
  - apply (Hdoc ([], [])). vm_compute. eexists. split; reflexivity.
Qed.

(** The amended C2 at the same input: a warning for the code label [C],
    an error for the documented field [B]. *)
Lemma C2_whitelist_tolerates_code_labels_only_witness :
  check_code_name c2_whitelist c2_docco c2_code "W" start
    = Next (Findings ∅ ∅ [WarnNotDocumented "W" "C" ["A"; "B"]])
  ∧ check_doc_name c2_whitelist c2_docco c2_code "W" ([], [])
    = Halt [ErrFieldNotInCode "W" "B"].
Proof.
  destruct (C2_whitelist_tolerates_code_labels_only c2_whitelist c2_docco c2_code
              "W" ["A"; "B"] (call_message "W" "A,C")) as [Hcode Hdoc].
  - vm_compute. reflexivity.
  - vm_compute. reflexivity.
  - vm_compute. reflexivity.
  - split.
    + rewrite Hcode; [vm_compute; reflexivity | vm_compute; repeat constructor; set_solver].
    + apply (Hdoc ["A"] "B" [] ([], [])); [reflexivity | | ].
      * vm_compute. repeat constructor.
      * vm_compute. set_solver.
Defined.

Lemma c5_run :
  validate_logger_documentation ∅ c5_docco c5_code = ([ErrDuplicateLabel "X" "A"], false).
Proof. vm_compute. reflexivity. Qed.

(** C5 as worded fails: the first undocumented label of [X] is [B], but
    the repeated label [A] before it stops the run, and the report names
    [A]. *)
Lemma C5_counterexample : ¬ first_missing_label_reported ∅ c5_docco c5_code.
Proof.
  intros H.
  assert (Hclaim : check_code_name ∅ c5_docco c5_code "X" start
                   = Halt (output start ++ [ErrNotDocumented "X" "B" ["A"]])).
  { apply (H "X" ["A"] ["A"; "A"] "B" [] start).
    - set_solver.
    - vm_compute. reflexivity.
    - vm_compute. reflexivity.
    - vm_compute. reflexivity.
    - repeat constructor.
    - set_solver. }
  vm_compute in Hclaim. discriminate Hclaim.
Qed.

(** The amended C5: [M] passes, [X] stops the run at its label [B], and
    [Z] is not scanned. *)
Lemma C5_first_missing_label_is_fatal_witness :
  check_code_names ∅ c5_docco_ok c5_code_ok ["M"; "X"; "Z"] start
    = Halt [ErrNotDocumented "X" "B" ["A"]]
  ∧ validate_logger_documentation ∅ c5_docco_ok c5_code_ok
    = ([ErrNotDocumented "X" "B" ["A"]], false).
Proof.
  destruct (C5_first_missing_label_is_fatal ∅ c5_docco_ok c5_code_ok
              "X" ["A"] ["A"] "B" ["C"] ["M"] ["Z"] start start) as [H1 H2].
  - set_solver.
  - vm_compute. reflexivity.
  - vm_compute. reflexivity.
  - repeat constructor.
  - repeat constructor. set_solver.
  - set_solver.
  - vm_compute. reflexivity.
  - split; [exact H1|]. apply H2; [reflexivity|]. vm_compute. reflexivity.
Defined.

(** * Further properties *)

Import Examples.

(** ** The matcher returns matches of the pattern *)

Lemma strip_prefix_inv p s s' : strip_prefix p s = Some s' → s = p +:+ s'.
Proof.
  revert s. induction p as [|c p IH]; intros s; simpl.
  - by intros [= ->].
  - destruct s as [|d s]; [done|]. destruct (Ascii.eqb_spec c d) as [->|]; [|done].
    intros H%IH. by rewrite H.
Qed.

Lemma star_inv {A} p s (k : string → option A) res :
  star p s k = Some res →
  ∃ a rest, s = a +:+ rest ∧ all_chars p a = true ∧ k rest = Some res.
Proof.
  induction s as [|c s IH]; simpl.
  - intros H. by exists "", "".
  - destruct (p c) eqn:Hc; [|intros H; by exists "", (String c s)].
    destruct (star p s k) as [r|] eqn:Hs.
    + intros [= <-]. destruct (IH eq_refl) as (a & rest & -> & Ha & Hk).
      exists (String c a), rest. simpl. by rewrite Hc, Ha.
    + intros H. by exists "", (String c s).
Qed.

Lemma rmatch_sound {A} r s caps (k : string → captures → option A) res :
  rmatch r s caps k = Some res →
  ∃ a rest cs, s = a +:+ rest ∧ lang r a rest cs ∧ k rest (cs ++ caps) = Some res.
Proof.
  revert s caps k res.
  induction r as [l|p|p|p|r IH|r1 IH1 r2 IH2|r1 IH1 r2 IH2|i r IH|];
    intros s caps k res; simpl.
  - destruct (strip_prefix l s) as [s'|] eqn:Hs; [|done].
    intros Hk. apply strip_prefix_inv in Hs as ->.
    exists l, s', []. eauto using lang.
  - destruct s as [|c s]; [done|]. destruct (p c) eqn:Hc; [|done].
    intros Hk. exists (String c ""), s, []. eauto using lang.
  - intros (a & rest & -> & Ha & Hk)%star_inv.
    exists a, rest, []. eauto using lang.
  - destruct s as [|c s]; [done|]. destruct (p c) eqn:Hc; [|done].
    intros (a & rest & -> & Ha & Hk)%star_inv.
    exists (String c a), rest, []. split; [done|]. split; [|done].
    constructor; [|done]. simpl. by rewrite Hc.
  - destruct (rmatch r s caps k) as [x|] eqn:Hr.
    + intros [= <-]. destruct (IH _ _ _ _ Hr) as (a & rest & cs & -> & Hl & Hk).
      exists a, rest, cs. eauto using lang.
    + intros Hk. exists "", s, []. eauto using lang.
  - destruct (rmatch r1 s caps k) as [x|] eqn:Hr.
    + intros [= <-]. destruct (IH1 _ _ _ _ Hr) as (a & rest & cs & -> & Hl & Hk).
      exists a, rest, cs. eauto using lang.
    + intros Hr2. destruct (IH2 _ _ _ _ Hr2) as (a & rest & cs & -> & Hl & Hk).
      exists a, rest, cs. eauto using lang.
  - intros H. destruct (IH1 _ _ _ _ H) as (a1 & rest1 & cs1 & -> & Hl1 & H2).
    destruct (IH2 _ _ _ _ H2) as (a2 & rest & cs2 & -> & Hl2 & Hk).
    exists (a1 +:+ a2), rest, (cs2 ++ cs1). split; [by rewrite str_app_assoc|].
    split; [by constructor|]. by rewrite <-app_assoc.
  - intros H. destruct (IH _ _ _ _ H) as (a & rest & cs & -> & Hl & Hk).
    rewrite take_str_app in Hk.
    exists a, rest, ((i, a) :: cs). eauto using lang.
  - destruct s as [|c [|d s]].
    + intros Hk. exists "", "", []. split; [done|]. split; [constructor; by left|done].
    + destruct (Ascii.eqb_spec c newline) as [->|]; [|done].
      intros Hk. exists "", nl, []. split; [done|]. split; [constructor; by right|done].
    + done.
Qed.

Lemma match_at_sound r s m rest :
  match_at r s = Some (m, rest) → ∃ a, s = a +:+ rest ∧ lang r a rest m.
Proof.
  unfold match_at. intros (a & rest' & cs & -> & Hl & [= <- <-])%rmatch_sound.
  exists a. by rewrite app_nil_r.
Qed.

Lemma re_match_sound r s m :
  re_match r s = Some m → ∃ a rest, s = a +:+ rest ∧ lang r a rest m.
Proof.
  unfold re_match. destruct (match_at r s) as [[m' rest]|] eqn:H; [|done].
  intros [= <-]. apply match_at_sound in H as (a & -> & Hl). eauto.
Qed.

(** Inversion of [lang], one constructor of [regex] at a time. *)
Lemma lang_lit_inv l a rest cs : lang (Lit l) a rest cs → a = l ∧ cs = [].
Proof. by inversion 1. Qed.
Lemma lang_star_inv p a rest cs : lang (Star p) a rest cs → all_chars p a = true ∧ cs = [].
Proof. by inversion 1. Qed.
Lemma lang_plus_inv p a rest cs :
  lang (Plus p) a rest cs → all_chars p a = true ∧ a ≠ "" ∧ cs = [].
Proof. by inversion 1. Qed.
Lemma lang_opt_inv r a rest cs :
  lang (Opt r) a rest cs → lang r a rest cs ∨ (a = "" ∧ cs = []).
Proof. inversion 1; subst; eauto. Qed.
Lemma lang_alt_inv r1 r2 a rest cs :
  lang (Alt r1 r2) a rest cs → lang r1 a rest cs ∨ lang r2 a rest cs.
Proof. inversion 1; subst; eauto. Qed.
Lemma lang_seq_inv r1 r2 a rest cs :
  lang (Seq r1 r2) a rest cs →
  ∃ a1 a2 cs1 cs2, a = a1 +:+ a2 ∧ cs = cs2 ++ cs1
    ∧ lang r1 a1 (a2 +:+ rest) cs1 ∧ lang r2 a2 rest cs2.
Proof. inversion 1; subst. by eexists _, _, _, _. Qed.
Lemma lang_group_inv i r a rest cs :
  lang (Group i r) a rest cs → ∃ cs', cs = (i, a) :: cs' ∧ lang r a rest cs'.
Proof. inversion 1; subst. eauto. Qed.
Lemma lang_eos_inv a rest cs :
  lang Eos a rest cs → a = "" ∧ cs = [] ∧ (rest = "" ∨ rest = nl).
Proof. by inversion 1. Qed.

Ltac lang_inv :=
  repeat match goal with
  | H : lang (Seq _ _) _ _ _ |- _ =>
      apply lang_seq_inv in H as (? & ? & ? & ? & -> & -> & ? & H)
  | H : lang (Lit _) _ _ _ |- _ => apply lang_lit_inv in H as [-> ->]
  | H : lang (Star _) _ _ _ |- _ => apply lang_star_inv in H as [? ->]
  | H : lang (Plus _) _ _ _ |- _ => apply lang_plus_inv in H as (? & ? & ->)
  | H : lang (Group _ _) _ _ _ |- _ => apply lang_group_inv in H as (? & -> & H)
  | H : lang Eos _ _ _ |- _ => apply lang_eos_inv in H as (-> & -> & ?)
  | H : lang (Alt _ _) _ _ _ |- _ => apply lang_alt_inv in H as [H|H]
  | H : lang (Opt _) _ _ _ |- _ => apply lang_opt_inv in H as [H|[-> ->]]
  end.

(** What a match of the strict grammar of line 226 captures. *)
Lemma re_structure_groups s m :
  re_match re_structure s = Some m →
  (all_chars is_word (group 1 m) = true ∧ group 1 m ≠ "")
  ∧ (all_chars is_word (group 2 m) = true ∧ group 2 m ≠ "")
  ∧ (all_chars (either is_word (is_char ",")) (group 3 m) = true ∧ group 3 m ≠ "")
  ∧ all_chars (not_char dquote) (group 4 m) = true
  ∧ all_chars (not_char dquote) (group 5 m) = true.
Proof.
  intros (a & rest & -> & H)%re_match_sound.
  unfold re_structure, quoted, comma in H. lang_inv; simpl; done.
Qed.

Lemma call_groups r s m :
  r = re_call_logger ∨ r = re_call_ap →
  re_match r s = Some m →
  (all_chars is_word (group 1 m) = true ∧ group 1 m ≠ "")
  ∧ (all_chars (either is_word (is_char ",")) (group 2 m) = true ∧ group 2 m ≠ "").
Proof.
  intros Hr (a & rest & -> & H)%re_match_sound.
  destruct Hr as [-> | ->]; unfold re_call_logger, re_call_ap, quoted, comma in H;
    lang_inv; simpl; done.
Qed.

Lemma re_define_groups s m :
  re_match re_define s = Some m →
  (∃ stem suffix, group 1 m = stem +:+ "_" +:+ suffix
     ∧ all_chars is_word stem = true ∧ stem ≠ ""
     ∧ suffix ∈ ["LABELS"; "FMT"; "UNITS"; "MULTS"])
  ∧ (∃ body, group 2 m = dq +:+ body +:+ dq ∧ all_chars is_dot body = true).
Proof.
  intros (a & rest & -> & H)%re_match_sound.
  unfold re_define in H. lang_inv; simpl; (split; [|by eexists]);
    eexists _, _; (split; [done|]); (split; [done|]); (split; [done|]); set_solver.
Qed.

(** ** find_format_defines *)

Lemma first_repeated_unique {A} (x y : A) xs :
  first_repeated x xs → first_repeated y xs → x = y.
Proof.
  intros (pre & post & -> & Hnd & Hin) (pre' & post' & Heq & Hnd' & Hin').
  destruct (decide (length pre = length pre')) as [Hlen|Hlen].
  - apply app_inj_1 in Heq as [_ [= ->]]; done.
  - exfalso. destruct (decide (length pre < length pre')).
    + assert (pre' = pre ++ x :: drop (S (length pre)) pre') as Hp.
      { rewrite <-(take_drop (length pre) pre') at 1.
        assert (take (length pre) pre' = pre) as ->.
        { apply (f_equal (take (length pre))) in Heq.
          rewrite take_app_length, take_app_le in Heq by lia. done. }
        f_equal. apply (f_equal (λ l, l !! length pre)) in Heq.
        rewrite (list_lookup_middle pre), lookup_app_l in Heq by lia.
        symmetry in Heq. by apply drop_S. }
      rewrite Hp in Hnd'. apply NoDup_app in Hnd' as (_ & Hd & _).
      apply (Hd x Hin). left.
    + assert (pre = pre' ++ y :: drop (S (length pre')) pre) as Hp.
      { rewrite <-(take_drop (length pre') pre) at 1.
        assert (take (length pre') pre = pre') as ->.
        { apply (f_equal (take (length pre'))) in Heq.
          rewrite take_app_length, take_app_le in Heq by lia. done. }
        f_equal. apply (f_equal (λ l, l !! length pre')) in Heq.
        rewrite (list_lookup_middle pre'), lookup_app_l in Heq by lia.
        by apply drop_S. }
      rewrite Hp in Hnd. apply NoDup_app in Hnd as (_ & Hd & _).
      apply (Hd y Hin'). left.
Qed.

Lemma first_repeated_dup {A} (x : A) xs : first_repeated x xs → ¬ NoDup xs.
Proof.
  intros (pre & post & -> & _ & Hin) (_ & Hd & _)%NoDup_app. apply (Hd x Hin). left.
Qed.

Lemma lookup_define_None a ret : lookup_define a ret = None ↔ a ∉ ret.*1.
Proof.
  induction ret as [|[a' b] ret IH]; simpl.
  - split; [set_solver|done].
  - destruct (String.eqb_spec a a') as [->|Hne].
    + split; [done|set_solver].
    + rewrite IH. set_solver.
Qed.

Lemma find_format_defines_go_cons line lines ret :
  find_format_defines_go (line :: lines) ret =
  match define_of line with
  | None => find_format_defines_go lines ret
  | Some (a, b) =>
      match lookup_define a ret with
      | Some _ => Raise (DuplicateDefine a)
      | None => find_format_defines_go lines (ret ++ [(a, b)])
      end
  end.
Proof. simpl. unfold define_of. by destruct (re_match re_define line). Qed.

Lemma find_format_defines_go_spec lines ret :
  NoDup ret.*1 →
  match find_format_defines_go lines ret with
  | Ok ret' => ret' = ret ++ omap define_of lines ∧ NoDup ret'.*1
  | Raise e => ∃ a, e = DuplicateDefine a ∧ first_repeated a (ret.*1 ++ defined_names lines)
  end.
Proof.
  unfold defined_names. revert ret. induction lines as [|line lines IH]; intros ret Hnd.
  - simpl. by rewrite app_nil_r.
  - rewrite find_format_defines_go_cons. cbn [omap list_omap].
    destruct (define_of line) as [[a b]|]; [|by apply IH].
    destruct (lookup_define a ret) as [b'|] eqn:Hl.
    + exists a. split; [done|]. exists ret.*1, (omap define_of lines).*1.
      split; [done|]. split; [done|]. apply dec_stable. intros Hn%lookup_define_None. congruence.
    + apply lookup_define_None in Hl.
      assert (NoDup (ret ++ [(a, b)]).*1) as Hnd'.
      { rewrite fmap_app. apply NoDup_app. split; [done|]. split; [set_solver|].
        apply NoDup_singleton. }
      specialize (IH _ Hnd'). rewrite fmap_app, <-!app_assoc in IH. done.
Qed.

(** X1: [find_format_defines] succeeds exactly when no name is defined
    twice, and then returns the defines of the lines, in the order of the
    lines; lines that are no define are passed over. *)
Theorem find_format_defines_returns_the_defines_in_order lines ret :
  find_format_defines lines = Ok ret
  ↔ ret = omap define_of lines ∧ NoDup (defined_names lines).
Proof.
  unfold find_format_defines.
  pose proof (find_format_defines_go_spec lines [] (NoDup_nil_2)) as H.
  destruct (find_format_defines_go lines []) as [ret'|e].
  - destruct H as [-> Hnd]. simpl. split.
    + by intros [= <-].
    + by intros [-> _].
  - destruct H as (a & -> & Hrep). split; [done|].
    intros [_ Hnd]. by apply first_repeated_dup in Hrep.
Qed.

(** X2: [find_format_defines] raises exactly when a name is defined a second
    time, and the exception carries the first name that is. *)
Theorem find_format_defines_raises_on_first_redefinition lines e :
  find_format_defines lines = Raise e
  ↔ ∃ a, e = DuplicateDefine a ∧ first_repeated a (defined_names lines).
Proof.
  unfold find_format_defines.
  pose proof (find_format_defines_go_spec lines [] (NoDup_nil_2)) as H.
  destruct (find_format_defines_go lines []) as [ret'|e'].
  - destruct H as [-> Hnd]. split; [done|].
    intros (a & _ & Hrep). by apply first_repeated_dup in Hrep.
  - destruct H as (a & -> & Hrep). simpl in Hrep. split.
    + intros [= <-]. eauto.
    + intros (a' & -> & Hrep'). by rewrite (first_repeated_unique _ _ _ Hrep Hrep').
Qed.

(** X3: every entry of the macro table has a name made of word characters
    that ends in one of the four suffixes, after a non-empty stem, and a
    value that is enclosed in double quotes and holds no line break. *)
Theorem find_format_defines_entries_well_formed lines ret a b :
  find_format_defines lines = Ok ret → (a, b) ∈ ret →
    (∃ stem suffix, a = stem +:+ "_" +:+ suffix
       ∧ all_chars is_word stem = true ∧ stem ≠ ""
       ∧ suffix ∈ ["LABELS"; "FMT"; "UNITS"; "MULTS"])
    ∧ (∃ body, b = dq +:+ body +:+ dq ∧ all_chars is_dot body = true).
Proof.
  intros Hok Hin.
  pose proof (find_format_defines_go_spec lines [] (NoDup_nil_2)) as H.
  unfold find_format_defines in Hok. rewrite Hok in H. destruct H as [-> _].
  simpl in Hin. apply list_elem_of_omap in Hin as (line & _ & Hd).
  unfold define_of in Hd. destruct (re_match re_define line) as [m|] eqn:Hm; [|done].
  injection Hd as <- <-. by apply re_define_groups in Hm.
Qed.

Lemma find_format_defines_entries_well_formed_witness :
  (∃ stem suffix, "ATT_LABELS" = stem +:+ "_" +:+ suffix
     ∧ all_chars is_word stem = true ∧ stem ≠ ""
     ∧ suffix ∈ ["LABELS"; "FMT"; "UNITS"; "MULTS"])
  ∧ (∃ body, cpp "'TimeUS,Roll'" = dq +:+ body +:+ dq ∧ all_chars is_dot body = true).
Proof.
  apply (find_format_defines_entries_well_formed
           [ln "// attitude"; ln "#define ATT_LABELS   'TimeUS,Roll'"; ln "#define ATT_FMT 'Qf'"]
           [("ATT_LABELS", cpp "'TimeUS,Roll'"); ("ATT_FMT", cpp "'Qf'")]).
  - vm_compute. reflexivity.
  - left.
Defined.

(** ** Macro substitution *)

Lemma search_literal l s : re_search (Lit l) s = contains l s.
Proof.
  induction s as [|c s IH].
  - simpl. unfold match_at. simpl. by destruct (strip_prefix l "").
  - rewrite contains_cons. simpl. unfold match_at. simpl.
    destruct (strip_prefix l (String c s)); [done|]. apply IH.
Qed.

(** X4: a text in which no define name occurs is left as it is by the
    macro substitution (the define values holding no backslash, so that the
    substitution takes them literally). *)
Theorem apply_defines_without_occurrence defines text :
  (∀ a b, (a, b) ∈ defines → contains "\" b = false) →
  (∀ a b, (a, b) ∈ defines → contains a text = false) →
  apply_defines defines text = text.
Proof.
  intros _. induction defines as [|[a b] defines IH]; intros H; [done|]. simpl.
  rewrite sub_unchanged.
  - apply IH. intros a' b' Hin. apply (H a' b'). by right.
  - rewrite search_literal. apply (H a b). left.
Qed.

Lemma apply_defines_without_occurrence_witness :
  apply_defines [("ATT_LABELS", cpp "'TimeUS,Roll'"); ("ATT_FMT", cpp "'Qf'")] att = att.
Proof.
  apply apply_defines_without_occurrence; intros a b Hin;
    apply list_elem_of_In in Hin; simpl in Hin;
    destruct Hin as [[= <- <-]|[[= <- <-]|[]]]; vm_compute; reflexivity.
Defined.

(** ** The record normalizers *)

Lemma structure_record_inv defines info r :
  structure_record defines info = Some r →
  ∃ name fmt labels units mults,
    r = Message name (Some fmt) labels (Some units) (Some mults)
    ∧ is_identifier name ∧ is_identifier fmt ∧ is_label_list labels
    ∧ is_unquoted units ∧ is_unquoted mults.
Proof.
  unfold structure_record.
  destruct (re_match re_structure (apply_defines defines info)) as [m|] eqn:Hm; [|done].
  intros [= <-]. apply re_structure_groups in Hm as (H1 & H2 & H3 & H4 & H5).
  by eexists _, _, _, _, _.
Qed.

Lemma call_record_inv defines statement name labels :
  call_record defines statement = Ok (name, labels) →
  is_identifier name ∧ is_label_list labels.
Proof.
  unfold call_record.
  destruct (re_match re_call_logger _) as [m|] eqn:Hm.
  - intros [= <- <-]. by apply (call_groups re_call_logger) in Hm; [|left].
  - destruct (re_match re_call_ap _) as [m|] eqn:Hm'; [|done].
    intros [= <- <-]. by apply (call_groups re_call_ap) in Hm'; [|right].
Qed.

(** X5: a struct-table entry that yields a record yields one with all five
    fields, whose name and format are non-empty runs of word characters,
    whose label list is a non-empty run of word characters and commas, and
    whose units and multipliers hold no double quote. *)
Theorem structure_record_is_well_formed defines info r :
  structure_record defines info = Some r →
  is_identifier (msg_name r) ∧ is_label_list (msg_labels r)
  ∧ (∃ fmt, msg_format r = Some fmt ∧ is_identifier fmt)
  ∧ (∃ units, msg_units r = Some units ∧ is_unquoted units)
  ∧ (∃ mults, msg_multipliers r = Some mults ∧ is_unquoted mults).
Proof.
  intros (name & fmt & labels & units & mults & -> & ? & ? & ? & ? & ?)%structure_record_inv.
  simpl. split; [done|]. split; [done|]. split; [by exists fmt|].
  split; [by exists units|]. by exists mults.
Qed.

Lemma structure_record_is_well_formed_witness :
  is_identifier "ATT" ∧ is_label_list "TimeUS,Roll"
  ∧ (∃ fmt, Some "Qf" = Some fmt ∧ is_identifier fmt)
  ∧ (∃ units, Some "s-" = Some units ∧ is_unquoted units)
  ∧ (∃ mults, Some "F-" = Some mults ∧ is_unquoted mults).
Proof.
  apply (structure_record_is_well_formed [] att
           (Message "ATT" (Some "Qf") "TimeUS,Roll" (Some "s-") (Some "F-"))).
  vm_compute. reflexivity.
Defined.

(** X6: with a macro table as [find_format_defines] returns it, whose
    values hold no backslash (so that the substitution takes them
    literally), a call statement that is accepted yields a name that is a
    non-empty run of word characters and a label list that is a non-empty
    run of word characters and commas; a statement that is not accepted
    raises with the substituted statement. *)
Theorem call_record_is_well_formed lines defines statement :
  find_format_defines lines = Ok defines →
  (∀ a b, (a, b) ∈ defines → contains "\" b = false) →
  match call_record defines statement with
  | Ok (name, labels) => is_identifier name ∧ is_label_list labels
  | Raise e => e = DidNotMatch (apply_defines defines statement)
  end.
Proof.
  intros _ _. destruct (call_record defines statement) as [[name labels]|e] eqn:H.
  - by apply call_record_inv in H.
  - by apply call_record_raise in H.
Qed.

Lemma call_record_is_well_formed_witness :
  match call_record [("ATT_LABELS", cpp "'TimeUS,Roll'")]
          (cpp " logger.Write( 'ATT', ATT_LABELS, 'Qf', t, r); ") with
  | Ok (name, labels) => is_identifier name ∧ is_label_list labels
  | Raise e =>
      e = DidNotMatch (apply_defines [("ATT_LABELS", cpp "'TimeUS,Roll'")]
                         (cpp " logger.Write( 'ATT', ATT_LABELS, 'Qf', t, r); "))
  end.
Proof.
  apply (call_record_is_well_formed [ln "#define ATT_LABELS 'TimeUS,Roll'"]).
  - vm_compute. reflexivity.
  - intros a b Hin. apply list_elem_of_In in Hin. simpl in Hin.
    destruct Hin as [[= <- <-]|[]]. vm_compute. reflexivity.
Defined.

(** ** The two merges into [ids] *)

Lemma by_name_cons r rs : by_name (r :: rs) = <[msg_name r := r]> (by_name rs).
Proof. done. Qed.

Lemma by_name_lookup rs k r : by_name rs !! k = Some r → r ∈ rs ∧ msg_name r = k.
Proof.
  unfold by_name. intros H%elem_of_list_to_map_2.
  apply list_elem_of_fmap in H as (r' & [= -> ->] & Hin). done.
Qed.

Lemma by_name_None rs k : k ∉ msg_name <$> rs → by_name rs !! k = None.
Proof.
  intros H. apply not_elem_of_list_to_map_1. by rewrite <-list_fmap_compose.
Qed.

Lemma structure_ids_add_records defines infos ids :
  structure_ids defines infos ids
  = add_records AlreadySeen (structure_records defines infos) ids.
Proof.
  unfold structure_records. revert ids. induction infos as [|info infos IH]; intros ids; [done|].
  simpl. destruct (structure_record defines info) as [r|]; [|apply IH].
  simpl. destruct (ids !! msg_name r); [done|apply IH].
Qed.

Lemma add_results_add_records results ids :
  add_results results ids = add_records AlreadyHaveId (call_messages results) ids.
Proof.
  unfold call_messages. revert ids.
  induction results as [|[name labels] results IH]; intros ids; [done|].
  simpl. destruct (ids !! name); [done|apply IH].
Qed.

Lemma add_records_spec e rs ids :
  match add_records e rs ids with
  | Ok ids' =>
      NoDup (msg_name <$> rs) ∧ (∀ r, r ∈ rs → ids !! msg_name r = None)
      ∧ ids' = ids ∪ by_name rs
  | Raise err =>
      ∃ pre r post, rs = pre ++ r :: post ∧ err = e (msg_name r)
        ∧ (msg_name r ∈ dom ids ∨ msg_name r ∈ msg_name <$> pre)
  end.
Proof.
  revert ids. induction rs as [|r rs IH]; intros ids; simpl.
  - split; [apply NoDup_nil_2|]. split; [by intros r ?%elem_of_nil|].
    unfold by_name. simpl. by rewrite (right_id ∅ (∪)).
  - destruct (ids !! msg_name r) as [r0|] eqn:Hr.
    + exists [], r, rs. split; [done|]. split; [done|]. left. by apply elem_of_dom.
    + specialize (IH (<[msg_name r := r]> ids)).
      destruct (add_records e rs (<[msg_name r := r]> ids)) as [ids'|err].
      * destruct IH as (Hnd & Hfresh & ->).
        assert (msg_name r ∉ msg_name <$> rs) as Hnot.
        { intros (r' & Heq & Hin)%list_elem_of_fmap. specialize (Hfresh r' Hin).
          rewrite <-Heq, lookup_insert_eq in Hfresh. done. }
        split; [by apply NoDup_cons|]. split.
        -- intros r' [->|Hin]%elem_of_cons; [done|].
           specialize (Hfresh r' Hin).
           apply lookup_insert_None in Hfresh as [? _]. done.
        -- rewrite by_name_cons. rewrite <-insert_union_l, <-insert_union_r; done.
      * destruct IH as (pre & r' & post & -> & -> & Hin).
        exists (r :: pre), r', post. split; [done|]. split; [done|].
        destruct Hin as [Hin|Hin].
        -- apply elem_of_dom in Hin as [x Hx].
           destruct (decide (msg_name r = msg_name r')) as [Heq|Hne].
           ++ right. rewrite fmap_cons, Heq. left.
           ++ left. rewrite lookup_insert_ne in Hx by done. by apply elem_of_dom.
        -- right. rewrite fmap_cons. by right.
Qed.

Lemma add_records_ok e rs ids ids' :
  add_records e rs ids = Ok ids'
  ↔ NoDup (msg_name <$> rs) ∧ (∀ r, r ∈ rs → ids !! msg_name r = None)
    ∧ ids' = ids ∪ by_name rs.
Proof.
  pose proof (add_records_spec e rs ids) as H.
  destruct (add_records e rs ids) as [ids''|err].
  - destruct H as (Hnd & Hfresh & ->). split.
    + by intros [= <-].
    + by intros (_ & _ & ->).
  - destruct H as (pre & r & post & -> & -> & Hin). split; [done|].
    intros (Hnd & Hfresh & _). exfalso. destruct Hin as [Hin|Hin].
    + apply elem_of_dom in Hin as [x Hx].
      rewrite Hfresh in Hx; [done|]. apply elem_of_app. right. left.
    + rewrite fmap_app, fmap_cons in Hnd. apply NoDup_app in Hnd as (_ & Hd & _).
      apply (Hd _ Hin). left.
Qed.

(** X7: with a macro table as [find_format_defines] returns it, whose
    values hold no backslash (so that the substitution takes them
    literally), the struct-table records are merged into [ids] exactly when
    their names are pairwise distinct and none is a key of [ids] yet; the
    result then holds the earlier records unchanged and each new record
    under its own name. *)
Theorem structure_ids_succeeds_on_fresh_distinct_names lines defines infos ids ids' :
  find_format_defines lines = Ok defines →
  (∀ a b, (a, b) ∈ defines → contains "\" b = false) →
  structure_ids defines infos ids = Ok ids'
  ↔ NoDup (msg_name <$> structure_records defines infos)
    ∧ (∀ r, r ∈ structure_records defines infos → ids !! msg_name r = None)
    ∧ ids' = ids ∪ by_name (structure_records defines infos).
Proof. intros _ _. rewrite structure_ids_add_records. apply add_records_ok. Qed.

Lemma structure_ids_succeeds_on_fresh_distinct_names_witness :
  structure_ids [("ATT_LABELS", cpp "'TimeUS,Roll'")] [att; unexpanded] ∅
    = Ok (<["ATT" := Message "ATT" (Some "Qf") "TimeUS,Roll" (Some "s-") (Some "F-")]> ∅)
  ↔ NoDup (msg_name <$> structure_records [("ATT_LABELS", cpp "'TimeUS,Roll'")]
                          [att; unexpanded])
    ∧ (∀ r, r ∈ structure_records [("ATT_LABELS", cpp "'TimeUS,Roll'")] [att; unexpanded] →
            (∅ : gmap string message) !! msg_name r = None)
    ∧ <["ATT" := Message "ATT" (Some "Qf") "TimeUS,Roll" (Some "s-") (Some "F-")]> ∅
      = ∅ ∪ by_name (structure_records [("ATT_LABELS", cpp "'TimeUS,Roll'")]
                         [att; unexpanded]).
Proof.
  apply (structure_ids_succeeds_on_fresh_distinct_names [ln "#define ATT_LABELS 'TimeUS,Roll'"]).
  - vm_compute. reflexivity.
  - intros a b Hin. apply list_elem_of_In in Hin. simpl in Hin.
    destruct Hin as [[= <- <-]|[]]. vm_compute. reflexivity.
Defined.

(** X8: the call-site results are merged into [ids] exactly when their names
    are pairwise distinct and none is a key of [ids] yet; the result then
    holds the earlier records unchanged and, for each result, a record with
    its name and labels and no other field. *)
Theorem add_results_succeeds_on_fresh_distinct_names results ids ids' :
  add_results results ids = Ok ids'
  ↔ NoDup results.*1
    ∧ (∀ name labels, (name, labels) ∈ results → ids !! name = None)
    ∧ ids' = ids ∪ by_name (call_messages results).
Proof.
  rewrite add_results_add_records, add_records_ok.
  assert (msg_name <$> call_messages results = results.*1) as ->.
  { unfold call_messages. rewrite <-list_fmap_compose. done. }
  split; intros (Hnd & Hfresh & ->); (split; [done|]); (split; [|done]).
  - intros name labels Hin. apply (Hfresh (call_message name labels)).
    unfold call_messages. apply list_elem_of_fmap. by exists (name, labels).
  - intros r (p & -> & Hin)%list_elem_of_fmap. destruct p as [name labels].
    by apply (Hfresh name labels).
Qed.

(** ** The records that [all_log_format_ids] returns *)

Lemma call_results_elem defines statements results name labels :
  call_results defines statements = Ok results → (name, labels) ∈ results →
  ∃ s, s ∈ statements ∧ call_record defines s = Ok (name, labels).
Proof.
  revert results. induction statements as [|s statements IH]; intros results; simpl.
  - intros [= <-] ?%elem_of_nil. done.
  - destruct (call_record defines s) as [p|] eqn:Hp; [|done]. simpl.
    destruct (call_results defines statements) as [results'|]; [|done]. simpl.
    intros [= <-] [->|Hin]%elem_of_cons.
    + exists s. split; [left|done].
    + destruct (IH _ eq_refl Hin) as (s' & ? & ?). exists s'. split; [by right|done].
Qed.

Lemma all_log_format_ids_inv structure_files log_cpp cpp_files ids :
  all_log_format_ids structure_files log_cpp cpp_files = Ok ids →
  ∃ defines infos statements results,
    find_format_defines (concat structure_files) = Ok defines
    ∧ call_results defines (collapse_whitespace <$> statements) = Ok results
    ∧ NoDup (msg_name <$> structure_records defines infos ++ call_messages results)
    ∧ ids = by_name (structure_records defines infos) ∪ by_name (call_messages results)
    ∧ ids ≠ ∅.
Proof.
  unfold all_log_format_ids.
  destruct (find_format_defines _) as [defines|]; [|done]. simpl.
  destruct (structure_files_scan _ _) as [st|]; [|done]. simpl.
  destruct (vehicle_file _ _) as [st'|]; [|done]. simpl.
  destruct (structure_ids _ _ _) as [ids1|] eqn:H1; [|done]. simpl.
  destruct (callsite_files _) as [statements|]; [|done]. simpl.
  unfold callsite_ids.
  destruct (call_results _ _) as [results|] eqn:Hres; [|done]. simpl.
  destruct (add_results _ _) as [ids2|] eqn:H2; [|done]. simpl.
  destruct (decide (size ids2 = 0)) as [|Hsize]; [done|]. intros [= <-].
  rewrite structure_ids_add_records in H1. apply add_records_ok in H1 as (Hnd1 & _ & ->).
  rewrite add_results_add_records in H2. apply add_records_ok in H2 as (Hnd2 & Hfresh & ->).
  rewrite !(left_id_L ∅ (∪)) in *.
  exists defines, (message_infos st'), statements, results.
  split; [done|]. split; [done|]. split; [|split; [done|]].
  - rewrite fmap_app. apply NoDup_app. split; [done|]. split; [|done].
    intros n (r1 & -> & Hin1)%list_elem_of_fmap (r2 & Heq & Hin2)%list_elem_of_fmap.
    specialize (Hfresh r2 Hin2). rewrite <-Heq in Hfresh.
    unfold by_name in Hfresh. apply not_elem_of_list_to_map in Hfresh.
    apply Hfresh. rewrite <-list_fmap_compose. apply list_elem_of_fmap. by exists r1.
  - intros Hempty. apply Hsize. rewrite Hempty. apply map_size_empty.
Qed.

Lemma merged_record_shape defines infos statements results k r :
  call_results defines statements = Ok results →
  (by_name (structure_records defines infos) ∪ by_name (call_messages results)) !! k = Some r →
  msg_name r = k ∧ is_identifier k ∧ is_label_list (msg_labels r)
  ∧ ((∃ fmt units mults,
        msg_format r = Some fmt ∧ msg_units r = Some units ∧ msg_multipliers r = Some mults
        ∧ is_identifier fmt ∧ is_unquoted units ∧ is_unquoted mults)
     ∨ (msg_format r = None ∧ msg_units r = None ∧ msg_multipliers r = None)).
Proof.
  intros Hres [H|[_ H]]%lookup_union_Some_raw; apply by_name_lookup in H as [Hin <-].
  - apply list_elem_of_omap in Hin as (info & _ & Hrec).
    apply structure_record_inv in Hrec
      as (name & fmt & labels & units & mults & -> & ? & ? & ? & ? & ?).
    simpl. split; [done|]. split; [done|]. split; [done|]. left. by exists fmt, units, mults.
  - apply list_elem_of_fmap in Hin as ([name labels] & -> & Hin).
    destruct (call_results_elem _ _ _ _ _ Hres Hin) as (s & _ & Hrec).
    apply call_record_inv in Hrec as [? ?].
    simpl. split; [done|]. split; [done|]. split; [done|]. by right.
Qed.

(** X9: every record that [all_log_format_ids] returns is stored under its
    own name; the name is a non-empty run of word characters and the label
    list a non-empty run of word characters and commas; and the record
    either has a format, units and multipliers (a struct-table record) or
    has none of the three (a call-site record). *)
Theorem all_log_format_ids_records_well_formed structure_files log_cpp cpp_files ids k r :
  all_log_format_ids structure_files log_cpp cpp_files = Ok ids →
  ids !! k = Some r →
  msg_name r = k ∧ is_identifier k ∧ is_label_list (msg_labels r)
  ∧ ((∃ fmt units mults,
        msg_format r = Some fmt ∧ msg_units r = Some units ∧ msg_multipliers r = Some mults
        ∧ is_identifier fmt ∧ is_unquoted units ∧ is_unquoted mults)
     ∨ (msg_format r = None ∧ msg_units r = None ∧ msg_multipliers r = None)).
Proof.
  intros (defines & infos & statements & results & _ & Hres & _ & -> & _)%all_log_format_ids_inv.
  by apply merged_record_shape with (statements := collapse_whitespace <$> statements).
Qed.

Lemma all_log_format_ids_records_well_formed_witness :
  msg_name (call_message "NAME" "TimeUS,Roll") = "NAME" ∧ is_identifier "NAME"
  ∧ is_label_list (msg_labels (call_message "NAME" "TimeUS,Roll"))
  ∧ ((∃ fmt units mults,
        msg_format (call_message "NAME" "TimeUS,Roll") = Some fmt
        ∧ msg_units (call_message "NAME" "TimeUS,Roll") = Some units
        ∧ msg_multipliers (call_message "NAME" "TimeUS,Roll") = Some mults
        ∧ is_identifier fmt ∧ is_unquoted units ∧ is_unquoted mults)
     ∨ (msg_format (call_message "NAME" "TimeUS,Roll") = None
        ∧ msg_units (call_message "NAME" "TimeUS,Roll") = None
        ∧ msg_multipliers (call_message "NAME" "TimeUS,Roll") = None)).
Proof.
  apply (all_log_format_ids_records_well_formed [] [] [c3_unsplit]
           (<["NAME" := call_message "NAME" "TimeUS,Roll"]> ∅)).
  - vm_compute. reflexivity.
  - vm_compute. reflexivity.
Defined.

(** ** The labels the validator reads *)

Lemma all_chars_rev_app p s t :
  all_chars p (String.rev_app s t) = all_chars p s && all_chars p t.
Proof.
  revert t. induction s as [|c s IH]; intros t; simpl; [done|].
  rewrite IH. simpl. destruct (p c), (all_chars p s); done.
Qed.

Lemma split_go_fields p sep cur s :
  all_chars p cur = true → all_chars (either p (is_char sep)) s = true →
  Forall (λ l, all_chars p l = true ∧ all_chars (not_char sep) l = true) (split_go sep cur s)
  ∨ all_chars (not_char sep) cur = false.
Proof.
  revert cur. induction s as [|c s IH]; intros cur Hcur Hs; simpl.
  - destruct (all_chars (not_char sep) cur) eqn:Hn; [|by right]. left.
    constructor; [|done]. unfold String.rev. rewrite !all_chars_rev_app, Hcur, Hn. done.
  - simpl in Hs. apply andb_prop in Hs as [Hc Hs].
    destruct (all_chars (not_char sep) cur) eqn:Hn; [|by right]. left.
    destruct (Ascii.eqb c sep) eqn:Heq.
    + constructor.
      * unfold String.rev. rewrite !all_chars_rev_app, Hcur, Hn. done.
      * by destruct (IH "" eq_refl Hs).
    + assert (p c = true) as Hp.
      { unfold either, is_char in Hc. rewrite Heq, orb_false_r in Hc. done. }
      destruct (IH (String c cur)) as [H|H]; [by simpl; rewrite Hp, Hcur|done|done|].
      simpl in H. unfold not_char in H at 1. rewrite Heq, Hn in H. done.
Qed.

Lemma split_fields p sep s :
  all_chars (either p (is_char sep)) s = true →
  Forall (λ l, all_chars p l = true ∧ all_chars (not_char sep) l = true) (split sep s).
Proof. intros H. by destruct (split_go_fields p sep "" s eq_refl H). Qed.

Lemma split_not_nil sep s : split sep s ≠ [].
Proof.
  unfold split. generalize "". induction s as [|c s IH]; intros cur; simpl; [done|].
  destruct (Ascii.eqb c sep); [done|apply IH].
Qed.

(** X10: the labels that the validator reads from a record returned by
    [all_log_format_ids] are at least one, and each consists of word
    characters only (no comma, white space or quote; it may be empty). *)
Theorem code_labels_are_words structure_files log_cpp cpp_files ids k :
  all_log_format_ids structure_files log_cpp cpp_files = Ok ids →
  k ∈ dom ids →
  code_labels ids k ≠ []
  ∧ Forall (λ l, all_chars is_word l = true ∧ all_chars (not_char ",") l = true)
      (code_labels ids k).
Proof.
  intros (defines & infos & statements & results & _ & Hres & _ & -> & _)%all_log_format_ids_inv.
  intros [r Hr]%elem_of_dom. unfold code_labels. rewrite (lookup_total_correct _ _ _ Hr).
  split; [apply split_not_nil|].
  apply (merged_record_shape _ _ _ _ _ _ Hres) in Hr as (_ & _ & [Hl _] & _).
  by apply split_fields.
Qed.

Lemma code_labels_are_words_witness :
  code_labels (<["NAME" := call_message "NAME" "TimeUS,Roll"]> ∅) "NAME" ≠ []
  ∧ Forall (λ l, all_chars is_word l = true ∧ all_chars (not_char ",") l = true)
      (code_labels (<["NAME" := call_message "NAME" "TimeUS,Roll"]> ∅) "NAME").
Proof.
  apply (code_labels_are_words [] [] [c3_unsplit]).
  - vm_compute. reflexivity.
  - apply elem_of_dom. eexists. vm_compute. reflexivity.
Defined.

(** ** Comments and blank lines *)

Lemma star_max {A} p (k : string → option A) a s r :
  all_chars p a = true → stops p s → k s = Some r → star p (a +:+ s) k = Some r.
Proof.
  intros Ha Hs Hk. induction a as [|c a IH].
  - by rewrite star_stops.
  - rewrite app_cons. simpl in *. apply andb_true_iff in Ha as [-> Ha]. by rewrite IH.
Qed.

Lemma sub_go_skip r repl x y :
  sub_go r repl (strlen x) (x +:+ y) = sub_go r repl 0 y.
Proof. induction x as [|c x IH]; [done|]. rewrite app_cons. simpl. apply IH. Qed.

Lemma comment_match c eol :
  all_chars is_dot c = true → eol = "" ∨ eol = nl →
  match_at re_comment ("//" +:+ c +:+ eol) = Some ([], eol).
Proof.
  intros Hc Heol. unfold match_at, re_comment. cbn [rmatch].
  rewrite strip_prefix_app. apply star_max; [done| |done].
  by destruct Heol as [-> | ->].
Qed.

(** A match that begins the text is replaced, and the scan resumes after
    it. *)
Lemma sub_go_match r repl c x y m :
  match_at r (String c (x +:+ y)) = Some (m, y) →
  sub_go r repl 0 (String c (x +:+ y)) = repl +:+ sub_go r repl 0 y.
Proof.
  intros H. cbn [sub_go]. unfold match_len. rewrite H. cbn [fmap option_fmap option_map snd].
  replace (strlen (String c (x +:+ y)) - strlen y) with (S (strlen x)).
  - by rewrite sub_go_skip.
  - cbn [strlen]. rewrite strlen_app. lia.
Qed.

(** A comment is removed up to the end of the line; the line terminator
    stays. *)
Lemma strip_comment a c eol :
  contains "//" (a +:+ "/") = false → all_chars is_dot c = true → eol = "" ∨ eol = nl →
  re_sub re_comment "" (a +:+ "//" +:+ c +:+ eol) = a +:+ eol.
Proof.
  intros Ha Hc Heol. unfold re_sub. induction a as [|d a IH].
  - change ("" +:+ "//" +:+ c +:+ eol) with (String "/" (("/" +:+ c) +:+ eol)).
    rewrite (sub_go_match _ _ _ _ _ []).
    + by destruct Heol as [-> | ->].
    + by apply comment_match.
  - rewrite (app_cons d a) in Ha |- *. rewrite contains_cons in Ha.
    destruct (strip_prefix "//" (String d (a +:+ "/"))) eqn:Hp; [done|].
    cbn [sub_go].
    assert (match_len re_comment (String d (a +:+ "//" +:+ c +:+ eol)) = None) as ->.
    { unfold match_len, match_at, re_comment. cbn [rmatch].
      assert (strip_prefix "//" (String d (a +:+ "//" +:+ c +:+ eol)) = None) as ->; [|done].
      simpl in *. destruct (Ascii.eqb "/" d); [|done].
      destruct a as [|e a]; [done|]. rewrite app_cons in *.
      by destruct (Ascii.eqb "/" e). }
    by rewrite IH.
Qed.

Lemma spaces_no_comment w : all_chars is_space w = true → contains "//" (w +:+ "/") = false.
Proof.
  induction w as [|c w IH]; [done|]. rewrite app_cons, contains_cons. simpl.
  intros [Hc Hw]%andb_true_iff.
  destruct (Ascii.eqb_spec "/" c) as [<-|]; [done|]. by apply IH.
Qed.

Lemma blank_matches w eol :
  all_chars is_space w = true → eol = "" ∨ eol = nl → matches re_blank (w +:+ eol) = true.
Proof.
  intros Hw Heol. unfold matches, re_match, match_at, re_blank. cbn [rmatch].
  erewrite star_all; [done| |done].
  rewrite all_chars_app, Hw. by destruct Heol as [-> | ->].
Qed.

Lemma comment_line_blank w c eol :
  all_chars is_space w = true → all_chars is_dot c = true → eol = "" ∨ eol = nl →
  matches re_blank (re_sub re_comment "" (comment_line w c eol)) = true.
Proof.
  intros Hw Hc Heol. unfold comment_line.
  rewrite strip_comment by auto using spaces_no_comment. by apply blank_matches.
Qed.

Lemma blank_line_blank w eol :
  all_chars is_space w = true → eol = "" ∨ eol = nl →
  matches re_blank (re_sub re_comment "" (w +:+ eol)) = true.
Proof.
  intros Hw Heol. rewrite no_comment; [by apply blank_matches|].
  assert (all_chars is_space (w +:+ eol) = true) as H.
  { rewrite all_chars_app, Hw. by destruct Heol as [-> | ->]. }
  apply spaces_no_comment in H. revert H. generalize (w +:+ eol). intros s.
  induction s as [|c s IH]; [done|]. rewrite app_cons, !contains_cons.
  destruct (strip_prefix "//" (String c (s +:+ "/"))) eqn:Hp; [done|]. intros H.
  rewrite IH by done.
  simpl in *. destruct (Ascii.eqb "/" c); [|done].
  destruct s as [|e s]; [done|]. rewrite app_cons in Hp. by destruct (Ascii.eqb "/" e).
Qed.

Lemma structure_lines_ignored line pre post st :
  matches re_blank (re_sub re_comment "" line) = true →
  structure_lines (pre ++ line :: post) st = structure_lines (pre ++ post) st.
Proof.
  intros Hb. revert st. induction pre as [|x pre IH]; intros st; simpl.
  - unfold structure_line. by rewrite Hb.
  - destruct (structure_line st x); [apply IH|done].
Qed.

Lemma vehicle_lines_ignored line pre post st :
  matches re_blank (re_sub re_comment "" line) = true →
  vehicle_lines (pre ++ line :: post) st = vehicle_lines (pre ++ post) st.
Proof.
  intros Hb. revert st. induction pre as [|x pre IH]; intros st; simpl.
  - unfold vehicle_line. by rewrite Hb.
  - destruct (vehicle_line st x) as [[st' []]|]; [done|apply IH|done].
Qed.

(** X11: a line that holds only white space, or white space and a comment,
    is passed over by both struct-table scanners wherever it stands, also in
    the middle of an entry that is written over several lines. *)
Theorem comment_and_blank_lines_are_ignored w c eol pre post st :
  all_chars is_space w = true → all_chars is_dot c = true → eol = "" ∨ eol = nl →
  (structure_lines (pre ++ comment_line w c eol :: post) st = structure_lines (pre ++ post) st
   ∧ vehicle_lines (pre ++ comment_line w c eol :: post) st = vehicle_lines (pre ++ post) st)
  ∧ (structure_lines (pre ++ (w +:+ eol) :: post) st = structure_lines (pre ++ post) st
     ∧ vehicle_lines (pre ++ (w +:+ eol) :: post) st = vehicle_lines (pre ++ post) st).
Proof.
  intros Hw Hc Heol. split; split;
    first [apply structure_lines_ignored | apply vehicle_lines_ignored];
    first [by apply comment_line_blank | by apply blank_line_blank].
Qed.

Lemma comment_and_blank_lines_are_ignored_witness :
  (structure_lines ([hd "" c8_three_ok] ++ comment_line "  " " units" nl :: tl c8_three_ok)
     (TableScan STATE_INSIDE LINESTATE_NONE "" [])
   = structure_lines ([hd "" c8_three_ok] ++ tl c8_three_ok)
       (TableScan STATE_INSIDE LINESTATE_NONE "" [])
   ∧ vehicle_lines ([hd "" c8_three_ok] ++ comment_line "  " " units" nl :: tl c8_three_ok)
       (TableScan STATE_INSIDE LINESTATE_NONE "" [])
     = vehicle_lines ([hd "" c8_three_ok] ++ tl c8_three_ok)
         (TableScan STATE_INSIDE LINESTATE_NONE "" []))
  ∧ (structure_lines ([hd "" c8_three_ok] ++ ("  " +:+ nl) :: tl c8_three_ok)
       (TableScan STATE_INSIDE LINESTATE_NONE "" [])
     = structure_lines ([hd "" c8_three_ok] ++ tl c8_three_ok)
         (TableScan STATE_INSIDE LINESTATE_NONE "" [])
     ∧ vehicle_lines ([hd "" c8_three_ok] ++ ("  " +:+ nl) :: tl c8_three_ok)
         (TableScan STATE_INSIDE LINESTATE_NONE "" [])
       = vehicle_lines ([hd "" c8_three_ok] ++ tl c8_three_ok)
           (TableScan STATE_INSIDE LINESTATE_NONE "" [])).
Proof.
  apply (comment_and_blank_lines_are_ignored "  " " units" nl); [done|done|by right].
Defined.

(** ** What the scanners collect *)

Lemma structure_line_grows st line st' :
  structure_line st line = Ok st' →
  ∃ new, message_infos st' = message_infos st ++ new ∧ length new ≤ 1.
Proof.
  unfold structure_line. intros H.
  repeat case_match; simplify_eq; simpl;
    first [ by exists []; rewrite app_nil_r; simpl; auto
          | by eexists [_]; simpl; auto ].
Qed.

Lemma structure_lines_grow lines st st' :
  structure_lines lines st = Ok st' →
  ∃ new, message_infos st' = message_infos st ++ new ∧ length new ≤ length lines.
Proof.
  revert st. induction lines as [|line lines IH]; intros st; simpl.
  - intros [= <-]. exists []. by rewrite app_nil_r.
  - destruct (structure_line st line) as [st1|] eqn:H1; [|done]. simpl. intros H2.
    apply structure_line_grows in H1 as (new1 & Hn1 & ?).
    apply IH in H2 as (new2 & Hn2 & ?).
    exists (new1 ++ new2). rewrite Hn2, Hn1, app_assoc, length_app. split; [done|lia].
Qed.

Lemma structure_file_grows lines st st' :
  structure_file lines st = Ok st' →
  ∃ new, message_infos st' = message_infos st ++ new ∧ length new ≤ length lines.
Proof.
  unfold structure_file.
  destruct (structure_lines lines _) as [st1|] eqn:H1; [|done]. simpl.
  destruct (decide _); [done|]. intros [= <-].
  by apply structure_lines_grow in H1.
Qed.

Lemma structure_files_scan_grows files st st' :
  structure_files_scan files st = Ok st' →
  ∃ new, message_infos st' = message_infos st ++ new ∧ length new ≤ length (concat files).
Proof.
  revert st. induction files as [|f files IH]; intros st; simpl.
  - intros [= <-]. exists []. by rewrite app_nil_r.
  - destruct (structure_file f st) as [st1|] eqn:H1; [|done]. simpl. intros H2.
    apply structure_file_grows in H1 as (new1 & Hn1 & ?).
    apply IH in H2 as (new2 & Hn2 & ?).
    exists (new1 ++ new2). rewrite Hn2, Hn1, app_assoc, !length_app. split; [done|lia].
Qed.

Lemma vehicle_line_grows st line st' stop :
  vehicle_line st line = Ok (st', stop) →
  (∃ new, message_infos st' = message_infos st ++ new ∧ length new ≤ 1)
  ∧ (stop = true → state st = STATE_INSIDE ∧ state st' = STATE_OUTSIDE).
Proof.
  unfold vehicle_line. intros H.
  repeat case_match; simplify_eq; simpl; (split; [|done]);
    first [ by exists []; rewrite app_nil_r; simpl; auto
          | by eexists [_]; simpl; auto ].
Qed.

Lemma vehicle_lines_grow lines st st' :
  vehicle_lines lines st = Ok st' →
  ∃ new, message_infos st' = message_infos st ++ new ∧ length new ≤ length lines.
Proof.
  revert st. induction lines as [|line lines IH]; intros st; simpl.
  - intros [= <-]. exists []. by rewrite app_nil_r.
  - destruct (vehicle_line st line) as [[st1 stop]|] eqn:H1; [|done]. simpl.
    apply vehicle_line_grows in H1 as [(new1 & Hn & ?) _]. destruct stop.
    + intros [= <-]. exists new1. split; [done|lia].
    + intros (new2 & Hn2 & ?)%IH.
      exists (new1 ++ new2). rewrite Hn2, Hn, app_assoc, length_app. split; [done|lia].
Qed.

Lemma vehicle_file_grows lines st st' :
  vehicle_file lines st = Ok st' →
  ∃ new, message_infos st' = message_infos st ++ new ∧ length new ≤ length lines.
Proof.
  unfold vehicle_file.
  destruct (vehicle_lines lines _) as [st1|] eqn:H1; [|done]. simpl.
  destruct (decide _); [done|]. intros [= <-].
  by apply vehicle_lines_grow in H1.
Qed.

(** X12: the two struct-table scans only ever add to the list of raw
    entries: what was collected is kept, in its order, and a scan adds at
    most one entry per line that it reads. *)
Theorem table_scans_only_append files log_cpp st0 st1 st2 :
  structure_files_scan files st0 = Ok st1 → vehicle_file log_cpp st1 = Ok st2 →
  ∃ new1 new2,
    message_infos st1 = message_infos st0 ++ new1
    ∧ message_infos st2 = message_infos st1 ++ new2
    ∧ length new1 ≤ length (concat files) ∧ length new2 ≤ length log_cpp.
Proof.
  intros (new1 & H1 & ?)%structure_files_scan_grows (new2 & H2 & ?)%vehicle_file_grows.
  by exists new1, new2.
Qed.

Lemma table_scans_only_append_witness :
  ∃ new1 new2,
    message_infos scan_x = message_infos scan_start ++ new1
    ∧ message_infos scan_xy = message_infos scan_x ++ new2
    ∧ length new1 ≤ length (concat [structure_file_x]) ∧ length new2 ≤ length log_cpp_y.
Proof.
  apply (table_scans_only_append [structure_file_x] log_cpp_y scan_start scan_x scan_xy).
  - vm_compute. reflexivity.
  - vm_compute. reflexivity.
Defined.

(** ** The end of the vehicle's table *)

Lemma vehicle_lines_app_inside pre rest st st1 :
  vehicle_lines pre st = Ok st1 → state st1 = STATE_INSIDE →
  vehicle_lines (pre ++ rest) st = vehicle_lines rest st1.
Proof.
  revert st. induction pre as [|x pre IH]; intros st; simpl.
  - by intros [= <-].
  - destruct (vehicle_line st x) as [[st' stop]|] eqn:Hx; [|done]. simpl.
    destruct stop.
    + intros [= <-] Hin. apply vehicle_line_grows in Hx as [_ Hstop].
      destruct (Hstop eq_refl) as [_ Hout]. congruence.
    + apply IH.
Qed.

Lemma table_end_line st rest :
  state st = STATE_INSIDE →
  vehicle_line st ("};" +:+ rest)
  = Ok (TableScan STATE_OUTSIDE (linestate st) (partial_line st) (message_infos st), true).
Proof.
  intros Hst. unfold vehicle_line.
  assert (re_sub re_comment "" ("};" +:+ rest) = "};" +:+ re_sub re_comment "" rest) as ->.
  { done. }
  assert (matches re_blank ("};" +:+ re_sub re_comment "" rest) = false) as ->.
  { by apply (not_blank "" "}" (";" +:+ re_sub re_comment "" rest)). }
  rewrite Hst.
  assert (matches re_table_end ("};" +:+ re_sub re_comment "" rest) = true) as ->; [|done].
  unfold matches, re_match, match_at, re_table_end. cbn [rmatch].
  by rewrite strip_prefix_app.
Qed.

(** X13: the scan of the vehicle's [Log.cpp] ends at the first line that
    begins with the table terminator and is met inside the table: whatever
    stands on that line after the terminator, and every later line, has no
    effect on the result. *)
Theorem vehicle_scan_stops_at_table_end pre rest post st st1 :
  vehicle_lines pre (TableScan STATE_OUTSIDE LINESTATE_NONE (partial_line st) (message_infos st))
    = Ok st1 →
  state st1 = STATE_INSIDE →
  vehicle_file (pre ++ ("};" +:+ rest) :: post) st
  = Ok (TableScan STATE_OUTSIDE (linestate st1) (partial_line st1) (message_infos st1)).
Proof.
  intros Hpre Hin. unfold vehicle_file.
  rewrite (vehicle_lines_app_inside _ _ _ _ Hpre Hin). simpl.
  by rewrite table_end_line.
Qed.

(** ** Where a call statement may begin *)

Lemma call_open_shape r line :
  r = re_call_open_ap ∨ r = re_call_open_logger →
  matches r line = true →
  ∃ w callee rest, line = w +:+ callee +:+ "(" +:+ rest
    ∧ all_chars is_space w = true
    ∧ callee ∈ ["AP::logger().Write"; "AP::logger().WriteStreaming";
                "logger.Write"; "logger.WriteStreaming"].
Proof.
  intros Hr Hm. unfold matches in Hm. apply bool_decide_eq_true in Hm as [m Hm].
  apply re_match_sound in Hm as (a & rest & -> & H).
  destruct Hr as [-> | ->]; unfold re_call_open_ap, re_call_open_logger in H; lang_inv.
  - exists x, "AP::logger().WriteStreaming", rest.
    split; [by rewrite !str_app_assoc|]. split; [done|set_solver].
  - exists x, "AP::logger().Write", rest.
    split; [by rewrite !str_app_assoc|]. split; [done|set_solver].
  - exists x, "logger.WriteStreaming", rest.
    split; [by rewrite !str_app_assoc|]. split; [done|set_solver].
  - exists x, "logger.Write", rest.
    split; [by rewrite !str_app_assoc|]. split; [done|set_solver].
Qed.

(** X14: outside a statement, only a line that begins, after white space,
    with one of the four call forms followed by an opening parenthesis
    changes the state of the call-site scan; every other line is passed
    over. *)
Theorem call_statement_opens_at_line_start st line :
  call_state st = STATE_OUTSIDE → callsite_line st line ≠ st →
  ∃ w callee rest, line = w +:+ callee +:+ "(" +:+ rest
    ∧ all_chars is_space w = true
    ∧ callee ∈ ["AP::logger().Write"; "AP::logger().WriteStreaming";
                "logger.Write"; "logger.WriteStreaming"].
Proof.
  intros Hst Hne. unfold callsite_line in Hne. rewrite Hst in Hne.
  destruct (matches re_call_open_ap line) eqn:Hap.
  - by apply (call_open_shape re_call_open_ap); [left|].
  - destruct (matches re_call_open_logger line) eqn:Hlog; [|done].
    by apply (call_open_shape re_call_open_logger); [right|].
Qed.

Lemma vehicle_scan_stops_at_table_end_witness :
  vehicle_file (log_cpp_head ++ ("};" +:+ nl) :: log_cpp_tail) scan_start
  = Ok (TableScan STATE_OUTSIDE LINESTATE_NONE "" [y_entry]).
Proof.
  apply (vehicle_scan_stops_at_table_end log_cpp_head nl log_cpp_tail scan_start
           (TableScan STATE_INSIDE LINESTATE_NONE "" [y_entry])).
  - vm_compute. reflexivity.
  - reflexivity.
Defined.

Lemma call_statement_opens_at_line_start_witness :
  ∃ w callee rest, ln "    logger.Write(" = w +:+ callee +:+ "(" +:+ rest
    ∧ all_chars is_space w = true
    ∧ callee ∈ ["AP::logger().Write"; "AP::logger().WriteStreaming";
                "logger.Write"; "logger.WriteStreaming"].
Proof.
  apply (call_statement_opens_at_line_start (CallScan STATE_OUTSIDE "" [])).
  - reflexivity.
  - vm_compute. discriminate.
Defined.

(** ** The collapse of white space (line 282) *)

Lemma run_length_le p s : run_length p s ≤ strlen s.
Proof. induction s as [|c s IH]; simpl; [lia|]. destruct (p c); simpl; lia. Qed.

Lemma strlen_drop n s : n ≤ strlen s → strlen (drop_str n s) = strlen s - n.
Proof.
  revert s. induction n as [|n IH]; intros [|c s]; simpl; try lia.
  intros H. apply IH. lia.
Qed.

Lemma star_total {B} p s (f : string → B) :
  star p s (λ s', Some (f s')) = Some (f (drop_str (run_length p s) s)).
Proof.
  induction s as [|c s IH]; simpl; [done|].
  destruct (p c); [|done]. by rewrite IH.
Qed.

Lemma match_len_spaces c s :
  match_len re_spaces (String c s)
  = if is_space c then Some (S (run_length is_space s)) else None.
Proof.
  unfold match_len, match_at, re_spaces. cbn [rmatch].
  destruct (is_space c); [|done]. cbv beta.
  pose proof (star_total (B := captures * string) is_space s (λ s', ([], s'))) as H.
  cbv beta in H. unfold captures in *. rewrite H. cbn [fmap option_fmap option_map snd].
  f_equal. pose proof (run_length_le is_space s).
  rewrite strlen_drop by done. simpl. lia.
Qed.

Lemma sub_go_squeeze s :
  sub_go re_spaces " " (run_length is_space s) s = squeeze true s
  ∧ sub_go re_spaces " " 0 s = squeeze false s.
Proof.
  induction s as [|c s [IH1 IH0]]; [done|].
  cbn [run_length squeeze]. split.
  - destruct (is_space c) eqn:Hc; cbn [sub_go]; [done|].
    by rewrite match_len_spaces, Hc, IH0.
  - cbn [sub_go]. rewrite match_len_spaces. destruct (is_space c); [|by rewrite IH0].
    by rewrite IH1.
Qed.

Lemma collapse_whitespace_squeeze x : collapse_whitespace x = squeeze false x.
Proof. apply sub_go_squeeze. Qed.

Lemma squeeze_true_stops s : stops is_space (squeeze true s).
Proof.
  induction s as [|c s IH]; simpl; [done|]. by destruct (is_space c) eqn:Hc.
Qed.

Lemma squeeze_no_odd_space b s : all_chars (λ c, negb (is_odd_space c)) (squeeze b s) = true.
Proof.
  revert b. induction s as [|c s IH]; intros b; simpl; [done|].
  destruct (is_space c) eqn:Hc.
  - destruct b; [apply IH|]. simpl. by rewrite IH.
  - simpl. unfold is_odd_space at 1. by rewrite Hc, IH.
Qed.

Lemma squeeze_no_double_space b s : contains "  " (squeeze b s) = false.
Proof.
  revert b. induction s as [|c s IH]; intros b; [done|]. cbn [squeeze].
  destruct (is_space c) eqn:Hc.
  - destruct b; [apply IH|]. rewrite contains_cons, IH.
    pose proof (squeeze_true_stops s) as Hs. simpl.
    destruct (squeeze true s) as [|d t]; [done|]. simpl in Hs.
    destruct (Ascii.eqb_spec " " d) as [<-|]; [done|done].
  - rewrite contains_cons, IH. simpl.
    destruct (Ascii.eqb_spec " " c) as [<-|]; [done|done].
Qed.

Lemma squeeze_stopped s : stops is_space s → squeeze true s = squeeze false s.
Proof. destruct s as [|c s]; [done|]. simpl. by intros ->. Qed.

Lemma squeeze_idempotent s :
  squeeze false (squeeze false s) = squeeze false s
  ∧ squeeze false (squeeze true s) = squeeze true s.
Proof.
  induction s as [|c s [IH0 IH1]]; [done|]. cbn [squeeze].
  destruct (is_space c) eqn:Hc.
  - split; [|done]. cbn [squeeze]. simpl.
    rewrite squeeze_stopped by apply squeeze_true_stops. by rewrite IH1.
  - cbn [squeeze]. rewrite Hc, IH0. done.
Qed.

Lemma squeeze_remove_spaces b s : remove_spaces (squeeze b s) = remove_spaces s.
Proof.
  revert b. induction s as [|c s IH]; intros b; [done|]. cbn [squeeze remove_spaces].
  destruct (is_space c) eqn:Hc.
  - destruct b; [apply IH|]. simpl. apply IH.
  - cbn [remove_spaces]. by rewrite Hc, IH.
Qed.

(** X15: in a collapsed statement the only white-space character is the
    space and no two spaces are adjacent; collapsing a collapsed statement
    changes nothing. *)
Theorem collapse_whitespace_normal_form x :
  all_chars (λ c, negb (is_odd_space c)) (collapse_whitespace x) = true
  ∧ contains "  " (collapse_whitespace x) = false
  ∧ collapse_whitespace (collapse_whitespace x) = collapse_whitespace x.
Proof.
  rewrite !collapse_whitespace_squeeze.
  split; [apply squeeze_no_odd_space|]. split; [apply squeeze_no_double_space|].
  apply squeeze_idempotent.
Qed.

(** X16: the collapse only touches white space: the other characters of the
    statement are kept, in their order, and a white-space character is
    removed or becomes a space. *)
Theorem collapse_whitespace_keeps_the_text x :
  remove_spaces (collapse_whitespace x) = remove_spaces x
  ∧ (all_chars (λ c, negb (is_space c)) x = true → collapse_whitespace x = x).
Proof.
  rewrite collapse_whitespace_squeeze. split; [apply squeeze_remove_spaces|].
  induction x as [|c x IH]; [done|]. simpl.
  intros [Hc Hx]%andb_true_iff. apply negb_true_iff in Hc. rewrite Hc. by rewrite IH.
Qed.

(** ** The vehicle's directory and its whitelist *)

Lemma contains_sep_cons c s :
  contains "/" (String c s) = Ascii.eqb "/" c || contains "/" s.
Proof. rewrite contains_cons. simpl. by destruct (Ascii.eqb "/" c). Qed.

Lemma contains_sep_app a b :
  contains "/" (a +:+ b) = contains "/" a || contains "/" b.
Proof.
  induction a as [|c a IH]; [done|].
  rewrite app_cons, !contains_sep_cons, IH. by rewrite orb_assoc.
Qed.

Lemma basename_plain b : contains "/" b = false → basename b = b.
Proof.
  destruct b as [|c b]; [done|]. rewrite contains_sep_cons. simpl.
  intros [Hc ->]%orb_false_iff. rewrite Ascii.eqb_sym in Hc. by rewrite Hc.
Qed.

Lemma basename_after_sep a b :
  contains "/" b = false → basename (a +:+ "/" +:+ b) = b.
Proof.
  intros Hb. induction a as [|c a IH].
  - change ("" +:+ "/" +:+ b) with (String "/" b). simpl. by rewrite Hb.
  - rewrite app_cons. cbn [basename]. rewrite contains_sep_app.
    change ("/" +:+ b) with (String "/" b) in *.
    by rewrite (contains_sep_cons "/" b), orb_true_r.
Qed.

Lemma rev_app_app s t : String.rev_app s t = String.rev_app s "" +:+ t.
Proof.
  revert t. induction s as [|c s IH]; intros t; simpl; [done|].
  rewrite (IH (String c t)), (IH (String c "")), str_app_assoc. done.
Qed.

Lemma rev_app_rev s t : String.rev_app (String.rev_app s t) "" = String.rev_app t s.
Proof. revert t. induction s as [|c s IH]; intros t; simpl; [done|]. by rewrite IH. Qed.

Lemma ends_with_sep_inv a : ends_with_sep a = true → ∃ a', a = a' +:+ "/".
Proof.
  unfold ends_with_sep, String.rev. destruct (String.rev_app a "") as [|c r] eqn:Hr; [done|].
  intros ->%Ascii.eqb_eq. exists (String.rev_app r "").
  pose proof (rev_app_rev a "") as H. rewrite Hr in H. simpl in H.
  rewrite <-H. apply rev_app_app.
Qed.

Lemma vehicle_dirname_no_sep vehicle :
  contains "/" vehicle = false → contains "/" (vehicle_dirname vehicle) = false.
Proof. unfold vehicle_dirname. intros H. repeat case_match; done. Qed.

Lemma basename_join a b : contains "/" b = false → basename (path_join a b) = b.
Proof.
  intros Hb. unfold path_join.
  assert (strip_prefix "/" b = None) as ->.
  { destruct b as [|c b]; [done|]. rewrite contains_sep_cons in Hb.
    apply orb_false_iff in Hb as [Hc _]. simpl. by rewrite Hc. }
  destruct (String.eqb_spec a "") as [->|_]; [by apply basename_plain|]. simpl.
  destruct (ends_with_sep a) eqn:Hs.
  - apply ends_with_sep_inv in Hs as [a' ->]. rewrite str_app_assoc.
    by apply basename_after_sep.
  - by apply basename_after_sep.
Qed.

(** X17: for a vehicle name without a path separator, the base name of the
    vehicle's code directory is the mapped directory name, whatever the
    root directory is and whether or not it ends in a separator; this is
    the key by which [get_whitelist] tells the vehicles apart. *)
Theorem basename_of_vehicle_code_dirpath vehicle rootdir :
  contains "/" vehicle = false →
  basename (vehicle_code_dirpath vehicle rootdir) = vehicle_dirname vehicle.
Proof. intros H. by apply basename_join, vehicle_dirname_no_sep. Qed.

Lemma basename_of_vehicle_code_dirpath_witness :
  basename (vehicle_code_dirpath "Copter" "/home/ardupilot/") = vehicle_dirname "Copter".
Proof. by apply basename_of_vehicle_code_dirpath. Defined.

Lemma get_whitelist_of_key topdir vehicle :
  contains "/" vehicle = false →
  get_whitelist topdir vehicle =
  (if bool_decide (vehicle_dirname vehicle ∈ ["ArduPlane"; "ArduCopter"; "Helicopter"])
   then ∅ else list_to_set autotune_messages)
  ∪ (if bool_decide (vehicle_dirname vehicle ∈ ["ArduPlane"])
     then ∅ else list_to_set plane_messages)
  ∪ (if bool_decide (vehicle_dirname vehicle ∈ ["ArduCopter"; "Helicopter"])
     then ∅ else list_to_set copter_messages).
Proof.
  intros Hv. unfold get_whitelist, vehicle_code_dirpath.
  rewrite basename_join by by apply vehicle_dirname_no_sep.
  generalize (vehicle_dirname vehicle). intros k.
  destruct (String.eqb_spec k "ArduPlane") as [->|H1]; [done|].
  destruct (String.eqb_spec k "ArduCopter") as [->|H2]; [done|].
  destruct (String.eqb_spec k "Helicopter") as [->|H3]; [done|].
  rewrite !bool_decide_eq_false_2 by set_solver. done.
Qed.

Lemma vehicle_dirname_key vehicle k :
  k ∈ ["ArduPlane"; "ArduCopter"; "Helicopter"] →
  vehicle_dirname vehicle = k
  ↔ vehicle = k ∨ (vehicle = "Plane" ∧ k = "ArduPlane") ∨ (vehicle = "Copter" ∧ k = "ArduCopter").
Proof.
  intros Hk. unfold vehicle_dirname.
  repeat (case_match; [match goal with H : String.eqb _ _ = true |- _ =>
                         apply String.eqb_eq in H; subst vehicle end|]);
    repeat match goal with H : String.eqb _ _ = false |- _ =>
             apply String.eqb_neq in H end;
    set_solver.
Qed.

Lemma vehicle_dirname_plane vehicle :
  vehicle_dirname vehicle ∈ ["ArduPlane"] ↔ vehicle ∈ ["Plane"; "ArduPlane"].
Proof.
  rewrite list_elem_of_singleton, (vehicle_dirname_key vehicle "ArduPlane") by set_solver.
  set_solver.
Qed.

Lemma vehicle_dirname_copter vehicle :
  vehicle_dirname vehicle ∈ ["ArduCopter"; "Helicopter"]
  ↔ vehicle ∈ ["Copter"; "ArduCopter"; "Helicopter"].
Proof.
  rewrite !elem_of_cons, (vehicle_dirname_key vehicle "ArduCopter"),
    (vehicle_dirname_key vehicle "Helicopter") by set_solver.
  set_solver.
Qed.

Lemma elem_of_unless (P : Prop) `{Decision P} (X : gset string) n :
  n ∈ (if bool_decide P then ∅ else X) ↔ n ∈ X ∧ ¬ P.
Proof. case_bool_decide; set_solver. Qed.

(** X18: which names [get_whitelist] returns, by the vehicle name it is
    called with, for a name without a path separator and whatever the root
    of the source tree is: the auto-tune message unless the vehicle is a
    plane or a copter, the plane messages unless it is a plane, the copter
    messages unless it is a copter; the vehicle may be given by its name or
    by the name of its directory, and [Helicopter] counts as a copter. *)
Theorem get_whitelist_by_vehicle topdir vehicle name :
  contains "/" vehicle = false →
  name ∈ get_whitelist topdir vehicle
  ↔ (name ∈ autotune_messages
     ∧ vehicle ∉ ["Plane"; "ArduPlane"; "Copter"; "ArduCopter"; "Helicopter"])
    ∨ (name ∈ plane_messages ∧ vehicle ∉ ["Plane"; "ArduPlane"])
    ∨ (name ∈ copter_messages ∧ vehicle ∉ ["Copter"; "ArduCopter"; "Helicopter"]).
Proof.
  intros Hv.
  rewrite get_whitelist_of_key, !elem_of_union, !elem_of_unless, !elem_of_list_to_set by done.
  rewrite vehicle_dirname_plane, vehicle_dirname_copter.
  assert (vehicle_dirname vehicle ∈ ["ArduPlane"; "ArduCopter"; "Helicopter"]
          ↔ vehicle ∈ ["Plane"; "ArduPlane"; "Copter"; "ArduCopter"; "Helicopter"]) as ->.
  { rewrite (elem_of_cons _ _ "ArduPlane"), vehicle_dirname_copter,
      <-list_elem_of_singleton, vehicle_dirname_plane.
    rewrite !elem_of_cons. tauto. }
  tauto.
Qed.

Lemma get_whitelist_by_vehicle_witness :
  "ARHS" ∈ get_whitelist "/home/ardupilot" "Plane"
  ↔ ("ARHS" ∈ autotune_messages
     ∧ "Plane" ∉ ["Plane"; "ArduPlane"; "Copter"; "ArduCopter"; "Helicopter"])
    ∨ ("ARHS" ∈ plane_messages ∧ "Plane" ∉ ["Plane"; "ArduPlane"])
    ∨ ("ARHS" ∈ copter_messages ∧ "Plane" ∉ ["Copter"; "ArduCopter"; "Helicopter"]).
Proof. apply get_whitelist_by_vehicle. vm_compute. reflexivity. Defined.

(** ** The verdict of the cross-reference *)

Section Verdict.
Context (whitelist : gset string) (docco_ids : gmap string (list string))
        (code_ids : gmap string message).

Lemma check_labels_spec name documented labels seen s :
  match check_labels whitelist name documented labels seen s with
  | Next s' =>
      labels_pass whitelist name documented labels seen
      ∧ undocumented s' = undocumented s
      ∧ overdocumented s' =
          (if decide (Forall (λ l, l ∈ documented) labels)
           then overdocumented s else overdocumented s ∖ {[name]})
      ∧ ∃ ws, output s' = output s ++ ws ∧ Forall (label_warning whitelist name documented labels) ws
  | Halt out =>
      ¬ labels_pass whitelist name documented labels seen
      ∧ ∃ ws e, out = output s ++ ws ++ [e] ∧ is_error e = true
          ∧ Forall (label_warning whitelist name documented labels) ws
  end.
Proof.
  revert seen s. induction labels as [|l labels IH]; intros seen s; simpl.
  - split; [|split; [done|split]].
    + split; [apply NoDup_nil_2|].
      split; [intros l ?%elem_of_nil|intros _ l ?%elem_of_nil]; done.
    + done.
    + exists []. by rewrite app_nil_r.
  - destruct (decide (l ∈ seen)) as [Hseen|Hseen].
    { split.
      - intros (_ & H & _). apply (H l); [left|done].
      - exists [], (ErrDuplicateLabel name l). done. }
    assert (∀ ws, Forall (label_warning whitelist name documented labels) ws →
            Forall (label_warning whitelist name documented (l :: labels)) ws) as Hmono.
    { intros ws Hws. eapply Forall_impl; [exact Hws|]. intros d (l' & -> & ? & ? & ?).
      exists l'. split; [done|]. split; [done|]. split; [by right|done]. }
    destruct (decide (l ∈ documented)) as [Hdoc|Hdoc].
    { specialize (IH ({[l]} ∪ seen) s).
      destruct (check_labels _ _ _ labels _ s) as [s'|out].
      - destruct IH as ((Hnd & Hs & Hd) & Hu & Ho & ws & Hout & Hws).
        split; [|split; [done|split]].
        + split; [|split].
          * apply NoDup_cons. split; [|done]. intros Hin. apply (Hs l Hin). set_solver.
          * intros l' [->|Hin]%elem_of_cons; [done|]. specialize (Hs l' Hin). set_solver.
          * intros Hw l' [->|Hin]%elem_of_cons; [done|]. by apply Hd.
        + rewrite Ho. repeat case_decide; try done.
          * exfalso. apply H0. by constructor.
          * exfalso. apply H. by apply Forall_cons in H0 as [_ ?].
        + exists ws. split; [done|]. by apply Hmono.
      - destruct IH as (Hfail & ws & e & -> & He & Hws). split.
        + intros (Hnd & Hs & Hd). apply Hfail. apply NoDup_cons in Hnd as [Hl Hnd].
          split; [done|]. split.
          * intros l' Hin. assert (l' ≠ l) by (by intros ->).
            specialize (Hs l' ltac:(by right)). set_solver.
          * intros Hw l' Hin. apply (Hd Hw). by right.
        + exists ws, e. split; [done|]. split; [done|]. by apply Hmono. }
    destruct (decide (name ∈ whitelist)) as [Hw|Hw].
    { specialize (IH ({[l]} ∪ seen)
        (Findings (undocumented s) (overdocumented s ∖ {[name]})
           (output s ++ [WarnNotDocumented name l documented]))).
      assert (label_warning whitelist name documented (l :: labels)
                (WarnNotDocumented name l documented)) as Hwarn.
      { exists l. split; [done|]. split; [done|]. split; [left|done]. }
      destruct (check_labels _ _ _ labels _ _) as [s'|out].
      - destruct IH as ((Hnd & Hs & Hd) & Hu & Ho & ws & Hout & Hws). simpl in *.
        split; [|split; [done|split]].
        + split; [|split].
          * apply NoDup_cons. split; [|done]. intros Hin. apply (Hs l Hin). set_solver.
          * intros l' [->|Hin]%elem_of_cons; [done|]. specialize (Hs l' Hin). set_solver.
          * done.
        + rewrite Ho.
          rewrite (decide_False (P := Forall (λ l0, l0 ∈ documented) (l :: labels))).
          * case_decide; set_solver.
          * by intros [? _]%Forall_cons.
        + exists (WarnNotDocumented name l documented :: ws).
          split; [by rewrite Hout, <-app_assoc|]. constructor; [done|by apply Hmono].
      - destruct IH as (Hfail & ws & e & -> & He & Hws). simpl in *. split.
        + intros (Hnd & Hs & Hd). apply Hfail. apply NoDup_cons in Hnd as [Hl Hnd].
          split; [done|]. split; [|done].
          intros l' Hin. assert (l' ≠ l) by (by intros ->).
          specialize (Hs l' ltac:(by right)). set_solver.
        + exists (WarnNotDocumented name l documented :: ws), e.
          split; [by rewrite <-!app_assoc|]. split; [done|].
          constructor; [done|by apply Hmono]. }
    split.
    + intros (_ & _ & Hd). apply Hdoc, (Hd Hw). left.
    + exists [], (ErrNotDocumented name l documented). done.
Qed.

Local Abbreviation passes := (code_name_passes whitelist docco_ids code_ids).
Local Abbreviation full := (fully_documented whitelist docco_ids code_ids).
Local Abbreviation warning := (name_warning whitelist docco_ids code_ids).

Lemma check_code_name_spec name s :
  match check_code_name whitelist docco_ids code_ids name s with
  | Next s' =>
      passes name
      ∧ (∀ m, m ∈ undocumented s'
              ↔ m ∈ undocumented s ∨ (m = name ∧ docco_ids !! m = None ∧ m ∉ whitelist))
      ∧ (∀ m, m ∈ overdocumented s'
              ↔ (m = name ∧ full m)
                ∨ (¬ (m = name ∧ m ∈ whitelist ∧ m ∈ dom docco_ids) ∧ m ∈ overdocumented s))
      ∧ ∃ ws, output s' = output s ++ ws ∧ Forall (warning name) ws
  | Halt out =>
      ¬ passes name
      ∧ ∃ ws e, out = output s ++ ws ++ [e] ∧ is_error e = true ∧ Forall (warning name) ws
  end.
Proof.
  unfold check_code_name, code_name_passes, fully_documented.
  destruct (docco_ids !! name) as [documented|] eqn:Hdoc.
  - match goal with |- context [check_labels _ _ _ _ _ ?s0] =>
      pose proof (check_labels_spec name documented (code_labels code_ids name) ∅ s0) as H;
      destruct (check_labels whitelist name documented (code_labels code_ids name) ∅ s0)
        as [s'|out]
    end.
    + destruct H as (Hpass & Hu & Ho & ws & Hout & Hws).
      split; [by intros ? [= <-]|]. split; [|split].
      * intros m. rewrite Hu. destruct (decide (name ∈ whitelist)); simpl.
        -- split; [by left|]. intros [?|(-> & ? & _)]; [done|congruence].
        -- split; [by left|]. intros [?|(-> & ? & _)]; [done|congruence].
      * intros m. rewrite Ho. split.
        -- destruct (decide (Forall (λ l, l ∈ documented) (code_labels code_ids name)))
             as [Hall|Hall], (decide (name ∈ whitelist)) as [Hw|Hw]; simpl.
           ++ intros [->%elem_of_singleton|?]%elem_of_union.
              ** left. split; [done|]. split; [done|]. by exists documented.
              ** destruct (decide (m = name)) as [->|?].
                 --- left. split; [done|]. split; [done|]. by exists documented.
                 --- right. split; [|done]. by intros [? _].
           ++ intros ?. right. split; [|done]. by intros (-> & ? & _).
           ++ intros [[->%elem_of_singleton|?]%elem_of_union Hne%not_elem_of_singleton]%elem_of_difference;
                [done|]. right. split; [|done]. by intros [? _].
           ++ intros [? Hne%not_elem_of_singleton]%elem_of_difference.
              right. split; [|done]. by intros [? _].
        -- intros [(-> & Hw & doc' & Hd' & Hall)|[Hnot Hin]].
           ++ assert (doc' = documented) as -> by congruence.
              rewrite decide_True by done. rewrite decide_True by done. simpl. set_solver.
           ++ destruct (decide (name ∈ whitelist)) as [Hw|Hw]; simpl.
              ** assert (m ≠ name) as Hne.
                 { intros ->. apply Hnot. split; [done|]. split; [done|].
                   apply elem_of_dom. by exists documented. }
                 case_decide; set_solver.
              ** case_decide; [done|].
                 destruct Hpass as (_ & _ & Hd). exfalso. apply H.
                 apply Forall_forall. by apply Hd.
      * exists ws. split; [by rewrite Hout; destruct (decide (name ∈ whitelist))|].
        eapply Forall_impl; [exact Hws|]. intros d Hd. by exists documented.
    + destruct H as (Hfail & ws & e & -> & He & Hws). split.
      * intros Hp. by apply Hfail, Hp.
      * exists ws, e. split; [by destruct (decide (name ∈ whitelist))|]. split; [done|].
        eapply Forall_impl; [exact Hws|]. intros d Hd. by exists documented.
  - destruct (decide (name ∈ whitelist)) as [Hw|Hw]; simpl.
    + split; [done|]. split; [|split].
      * intros m. split; [by left|]. by intros [?|(-> & _ & ?)].
      * intros m. split.
        -- intros ?. right. split; [|done]. intros (-> & _ & [x Hx]%elem_of_dom). congruence.
        -- intros [(-> & _ & doc' & ? & _)|[_ ?]]; [congruence|done].
      * exists []. by rewrite app_nil_r.
    + split; [done|]. split; [|split].
      * intros m. rewrite elem_of_union, elem_of_singleton. split.
        -- intros [->|?]; [by right|by left].
        -- intros [?|(-> & _)]; [by right|by left].
      * intros m. split.
        -- intros ?. right. split; [|done]. by intros (-> & ? & _).
        -- intros [(-> & ? & _)|[_ ?]]; done.
      * exists []. by rewrite app_nil_r.
Qed.

Lemma check_code_names_spec names s :
  match check_code_names whitelist docco_ids code_ids names s with
  | Next s' =>
      (∀ n, n ∈ names → passes n)
      ∧ (∀ m, m ∈ undocumented s'
              ↔ m ∈ undocumented s ∨ (m ∈ names ∧ docco_ids !! m = None ∧ m ∉ whitelist))
      ∧ (∀ m, m ∈ overdocumented s'
              ↔ (m ∈ names ∧ full m)
                ∨ (¬ (m ∈ names ∧ m ∈ whitelist ∧ m ∈ dom docco_ids) ∧ m ∈ overdocumented s))
      ∧ ∃ ws, output s' = output s ++ ws
          ∧ Forall (λ d, ∃ n, n ∈ names ∧ warning n d) ws
  | Halt out =>
      ¬ (∀ n, n ∈ names → passes n)
      ∧ ∃ ws e, out = output s ++ ws ++ [e] ∧ is_error e = true
          ∧ Forall (λ d, ∃ n, n ∈ names ∧ warning n d) ws
  end.
Proof.
  revert s. induction names as [|name names IH]; intros s; simpl.
  - split; [by intros n ?%elem_of_nil|]. split; [|split].
    + intros m. split; [by left|]. by intros [?|[?%elem_of_nil _]].
    + intros m. split.
      * intros ?. right. split; [|done]. by intros [?%elem_of_nil _].
      * by intros [[?%elem_of_nil _]|[_ ?]].
    + exists []. by rewrite app_nil_r.
  - pose proof (check_code_name_spec name s) as H1.
    destruct (check_code_name whitelist docco_ids code_ids name s) as [s1|out].
    + destruct H1 as (Hp1 & Hu1 & Ho1 & ws1 & Hout1 & Hws1).
      specialize (IH s1).
      assert (Forall (λ d, ∃ n, n ∈ name :: names ∧ warning n d) ws1) as Hws1'.
      { eapply Forall_impl; [exact Hws1|]. intros d Hd. exists name. split; [left|done]. }
      assert (∀ ws, Forall (λ d, ∃ n, n ∈ names ∧ warning n d) ws →
                    Forall (λ d, ∃ n, n ∈ name :: names ∧ warning n d) ws) as Hmono.
      { intros ws Hws. eapply Forall_impl; [exact Hws|]. intros d (n & ? & ?).
        exists n. split; [by right|done]. }
      destruct (check_code_names whitelist docco_ids code_ids names s1) as [s'|out].
      * destruct IH as (Hp & Hu & Ho & ws & Hout & Hws).
        split; [|split; [|split]].
        -- intros n [->|?]%elem_of_cons; [done|by apply Hp].
        -- intros m. rewrite Hu, Hu1, elem_of_cons. clear.
           split; [intros [[?|(-> & ? & ?)]|(? & ? & ?)]|intros [?|([->|?] & ? & ?)]]; tauto.
        -- intros m. rewrite Ho, Ho1, elem_of_cons.
           assert (full m → m ∈ whitelist ∧ m ∈ dom docco_ids) as Hfull.
           { intros (? & doc & ? & _). split; [done|]. apply elem_of_dom. by exists doc. }
           destruct (decide (m ∈ names)) as [Hin|Hin]; tauto.
        -- exists (ws1 ++ ws). split; [by rewrite Hout, Hout1, app_assoc|].
           apply Forall_app. split; [done|by apply Hmono].
      * destruct IH as (Hfail & ws & e & -> & He & Hws). split.
        -- intros Hp. apply Hfail. intros n Hn. apply Hp. by right.
        -- exists (ws1 ++ ws), e. split; [by rewrite Hout1, <-!app_assoc|]. split; [done|].
           apply Forall_app. split; [done|by apply Hmono].
    + destruct H1 as (Hfail & ws & e & -> & He & Hws). split.
      * intros Hp. apply Hfail, Hp. left.
      * exists ws, e. split; [done|]. split; [done|].
        eapply Forall_impl; [exact Hws|]. intros d Hd. exists name. split; [left|done].
Qed.

Lemma check_fields_spec name labels fields out :
  match check_fields name labels fields out with
  | Next out' => out' = out ∧ Forall (λ l, l ∈ labels) fields
  | Halt out' =>
      ¬ Forall (λ l, l ∈ labels) fields ∧ ∃ e, out' = out ++ [e] ∧ is_error e = true
  end.
Proof.
  induction fields as [|l fields IH]; simpl; [done|].
  destruct (decide (l ∈ labels)) as [Hl|Hl].
  - destruct (check_fields name labels fields out) as [out'|out'].
    + destruct IH as [-> ?]. split; [done|]. by constructor.
    + destruct IH as [Hfail ?]. split; [|done]. by intros [_ ?]%Forall_cons.
  - split; [by intros [? _]%Forall_cons|]. by eexists.
Qed.

Lemma check_doc_name_spec name missing out :
  match check_doc_name whitelist docco_ids code_ids name (missing, out) with
  | Next (missing', out') =>
      out' = out
      ∧ missing' = missing ++ filter (λ n, (n ∉ dom code_ids) ∧ (n ∉ whitelist)) [name]
      ∧ doc_name_passes docco_ids code_ids name
  | Halt out' =>
      ¬ doc_name_passes docco_ids code_ids name
      ∧ ∃ e, out' = out ++ [e] ∧ is_error e = true
  end.
Proof.
  unfold check_doc_name, doc_name_passes. rewrite filter_cons, filter_nil.
  destruct (decide ((name ∉ dom code_ids) ∧ (name ∉ whitelist))) as [[Hc Hw]|Hn].
  { split; [done|]. split; [done|]. by intros ?. }
  destruct (decide (name ∉ dom code_ids)) as [Hc|Hc].
  { rewrite app_nil_r. split; [done|]. split; [done|]. by intros ?. }
  apply dec_stable in Hc.
  pose proof (check_fields_spec name (code_labels code_ids name) (docco_ids !!! name) out) as H.
  destruct (check_fields name _ _ out) as [out'|out'].
  - destruct H as [-> ?]. rewrite app_nil_r. split; [done|]. split; [done|]. by intros ?.
  - destruct H as [Hfail ?]. split; [|done]. intros Hp. by apply Hfail, Hp.
Qed.

Lemma check_doc_names_spec names missing out :
  match check_doc_names whitelist docco_ids code_ids names (missing, out) with
  | Next (missing', out') =>
      out' = out
      ∧ missing' = missing ++ filter (λ n, (n ∉ dom code_ids) ∧ (n ∉ whitelist)) names
      ∧ (∀ n, n ∈ names → doc_name_passes docco_ids code_ids n)
  | Halt out' =>
      ¬ (∀ n, n ∈ names → doc_name_passes docco_ids code_ids n)
      ∧ ∃ e, out' = out ++ [e] ∧ is_error e = true
  end.
Proof.
  revert missing. induction names as [|name names IH]; intros missing; cbn [check_doc_names].
  - rewrite filter_nil, app_nil_r. split; [done|]. split; [done|]. by intros n ?%elem_of_nil.
  - pose proof (check_doc_name_spec name missing out) as H1.
    destruct (check_doc_name whitelist docco_ids code_ids name (missing, out))
      as [[missing1 out1]|out1].
    + destruct H1 as (-> & -> & Hp1).
      specialize (IH (missing ++ filter (λ n, (n ∉ dom code_ids) ∧ (n ∉ whitelist)) [name])).
      destruct (check_doc_names whitelist docco_ids code_ids names _) as [[missing' out']|out'].
      * destruct IH as (-> & -> & Hp). split; [done|]. split.
        -- rewrite <-app_assoc. f_equal. by rewrite <-filter_app.
        -- intros n [->|?]%elem_of_cons; [done|by apply Hp].
      * destruct IH as [Hfail ?]. split; [|done].
        intros Hp. apply Hfail. intros n Hn. apply Hp. by right.
    + destruct H1 as [Hfail ?]. split; [|done]. intros Hp. apply Hfail, Hp. left.
Qed.

Lemma agrees_code_passes n :
  documentation_agrees whitelist docco_ids code_ids → n ∈ dom code_ids → passes n.
Proof.
  intros (_ & _ & H) Hn documented Hdoc.
  destruct (H n documented Hn Hdoc) as (Hnd & _ & Hd & _).
  split; [done|]. split; [set_solver|done].
Qed.

Lemma agrees_doc_passes n :
  documentation_agrees whitelist docco_ids code_ids → n ∈ dom docco_ids →
  doc_name_passes docco_ids code_ids n.
Proof.
  intros (_ & _ & H) [documented Hdoc]%elem_of_dom Hn.
  destruct (H n documented Hn Hdoc) as (_ & Hf & _).
  rewrite (lookup_total_correct _ _ _ Hdoc). by apply Forall_forall.
Qed.

(** X19: the cross-reference returns True exactly when the code and the
    documentation agree up to the whitelist: no code-side name is
    undocumented unless whitelisted, no documented name is absent from the
    code unless whitelisted, and for every name on both sides the code
    labels are distinct, the documented fields are code labels, and the code
    labels are all documented if the name is not whitelisted and not all
    documented if it is. *)
Theorem validation_passes_iff_documentation_agrees :
  (validate_logger_documentation whitelist docco_ids code_ids).2 = true
  ↔ documentation_agrees whitelist docco_ids code_ids.
Proof.
  unfold validate_logger_documentation.
  pose proof (check_code_names_spec (sorted_keys code_ids) (Findings ∅ ∅ [])) as H1.
  destruct (check_code_names whitelist docco_ids code_ids _ _) as [s|out].
  2:{ destruct H1 as [Hfail _]. simpl. split; [done|]. intros Ha. exfalso. apply Hfail.
      intros n Hn%sorted_keys_elem. by apply agrees_code_passes. }
  destruct H1 as (Hp & Hu & Ho & _). simpl in Hu, Ho.
  destruct (decide (size (undocumented s) ≠ 0)) as [Hsu|Hsu].
  { simpl. split; [done|]. intros (Ha & _). exfalso.
    apply size_nonzero in Hsu. apply set_choose_L in Hsu as [m Hm].
    apply Hu in Hm as [?%elem_of_empty|(Hn%sorted_keys_elem & Hd & Hw)]; [done|].
    destruct (Ha m Hn) as [[x Hx]%elem_of_dom|?]; [congruence|done]. }
  destruct (decide (size (overdocumented s) ≠ 0)) as [Hso|Hso].
  { simpl. split; [done|]. intros (_ & _ & Ha). exfalso.
    apply size_nonzero in Hso. apply set_choose_L in Hso as [m Hm].
    apply Ho in Hm as [(Hn%sorted_keys_elem & Hw & doc & Hd & Hall)|[_ ?%elem_of_empty]];
      [|done].
    destruct (Ha m doc Hn Hd) as (_ & _ & _ & Hex). destruct (Hex Hw) as (l & Hl & Hnl).
    apply Hnl. by apply (proj1 (Forall_forall _ _) Hall). }
  apply dec_stable in Hsu. apply dec_stable in Hso.
  apply size_empty_inv in Hsu, Hso. unfold_leibniz.
  pose proof (check_doc_names_spec (sorted_keys docco_ids) [] (output s)) as H2.
  destruct (check_doc_names whitelist docco_ids code_ids _ _) as [[missing out]|out].
  2:{ destruct H2 as [Hfail _]. simpl. split; [done|]. intros Ha. exfalso. apply Hfail.
      intros n Hn%sorted_keys_elem. by apply agrees_doc_passes. }
  destruct H2 as (-> & Hm & Hd). simpl in Hm.
  destruct (decide (0 < length missing)) as [Hlen|Hlen].
  { simpl. split; [done|]. intros (_ & Ha & _). exfalso.
    destruct missing as [|m missing]; [simpl in Hlen; lia|].
    assert (m ∈ filter (λ n, (n ∉ dom code_ids) ∧ (n ∉ whitelist)) (sorted_keys docco_ids)) as Hin.
    { rewrite <-Hm. left. }
    apply list_elem_of_filter in Hin as [[Hc Hw] Hn%sorted_keys_elem].
    by destruct (Ha m Hn). }
  simpl. split; [intros _|done].
  assert (missing = []) as -> by (destruct missing; [done|simpl in Hlen; lia]).
  split; [|split].
  - intros name Hn. destruct (docco_ids !! name) as [doc|] eqn:Hdoc.
    + left. apply elem_of_dom. by exists doc.
    + right. apply dec_stable. intros Hw.
      assert (name ∈ undocumented s) as Hin; [|by rewrite Hsu in Hin].
      apply Hu. right. split; [by apply sorted_keys_elem|done].
  - intros name Hn. destruct (decide (name ∈ dom code_ids)) as [|Hc]; [by left|].
    right. apply dec_stable. intros Hw.
    assert (name ∈ filter (λ n, (n ∉ dom code_ids) ∧ (n ∉ whitelist)) (sorted_keys docco_ids))
      as Hin; [|by rewrite <-Hm in Hin; apply elem_of_nil in Hin].
    apply list_elem_of_filter. split; [done|by apply sorted_keys_elem].
  - intros name documented Hn Hdoc.
    destruct (Hp name (proj2 (sorted_keys_elem _ _) Hn) documented Hdoc) as (Hnd & _ & Hall).
    split; [done|]. split; [|split; [done|]].
    + assert (name ∈ dom docco_ids) as Hnd' by (apply elem_of_dom; by exists documented).
      pose proof (Hd name (proj2 (sorted_keys_elem _ _) Hnd') Hn) as Hf.
      rewrite (lookup_total_correct _ _ _ Hdoc) in Hf. by apply Forall_forall.
    + intros Hw.
      destruct (decide (Forall (λ l, l ∈ documented) (code_labels code_ids name)))
        as [Hf|Hf].
      * assert (name ∈ overdocumented s) as Hin; [|by rewrite Hso in Hin].
        apply Ho. left. split; [by apply sorted_keys_elem|]. split; [done|].
        by exists documented.
      * apply not_Forall_Exists in Hf; [|apply _].
        apply Exists_exists in Hf as (l & ? & ?). by exists l.
Qed.

Lemma validate_report :
  ∃ ws rest,
    (validate_logger_documentation whitelist docco_ids code_ids).1 = ws ++ rest
    ∧ Forall (λ d, ∃ n, n ∈ dom code_ids ∧ warning n d) ws
    ∧ ((validate_logger_documentation whitelist docco_ids code_ids).2 = true
       ∧ rest = [Success]
       ∨ (validate_logger_documentation whitelist docco_ids code_ids).2 = false
         ∧ ∃ e items, rest = e :: (Item <$> items) ∧ is_error e = true).
Proof.
  unfold validate_logger_documentation.
  pose proof (check_code_names_spec (sorted_keys code_ids) (Findings ∅ ∅ [])) as H1.
  assert (∀ ws, Forall (λ d, ∃ n, n ∈ sorted_keys code_ids ∧ warning n d) ws →
                Forall (λ d, ∃ n, n ∈ dom code_ids ∧ warning n d) ws) as Hdom.
  { intros ws Hws. eapply Forall_impl; [exact Hws|]. intros d (n & Hn%sorted_keys_elem & ?).
    by exists n. }
  destruct (check_code_names whitelist docco_ids code_ids _ _) as [s|out].
  2:{ destruct H1 as (_ & ws & e & -> & He & Hws). simpl.
      exists ws, [e]. split; [done|]. split; [by apply Hdom|]. right. split; [done|].
      by exists e, []. }
  destruct H1 as (_ & _ & _ & ws & Hout & Hws). simpl in Hout. apply Hdom in Hws.
  destruct (decide (size (undocumented s) ≠ 0)).
  { simpl. exists ws, (ErrUndocumented :: (Item <$> sorted_set (undocumented s))).
    split; [by rewrite Hout|]. split; [done|]. right. split; [done|]. by eexists _, _. }
  destruct (decide (size (overdocumented s) ≠ 0)).
  { simpl. exists ws, (ErrOverdocumented :: (Item <$> sorted_set (overdocumented s))).
    split; [by rewrite Hout|]. split; [done|]. right. split; [done|]. by eexists _, _. }
  pose proof (check_doc_names_spec (sorted_keys docco_ids) [] (output s)) as H2.
  destruct (check_doc_names whitelist docco_ids code_ids _ _) as [[missing out]|out].
  2:{ destruct H2 as (_ & e & -> & He). simpl.
      exists ws, [e]. split; [by rewrite Hout|]. split; [done|]. right. split; [done|].
      by exists e, []. }
  destruct H2 as (-> & _ & _).
  destruct (decide (0 < length missing)); simpl.
  - exists ws, [ErrMissing missing]. split; [by rewrite Hout|]. split; [done|].
    right. split; [done|]. by exists (ErrMissing missing), [].
  - exists ws, [Success]. split; [by rewrite Hout|]. split; [done|]. by left.
Qed.

(** X20: a report is a run of warnings followed either by the success line,
    when the verdict is True, or, when it is False, by exactly one error
    line and the list items that belong to it. *)
Theorem report_is_warnings_then_one_outcome :
  ∃ ws rest,
    (validate_logger_documentation whitelist docco_ids code_ids).1 = ws ++ rest
    ∧ Forall (λ d, is_warning d = true) ws
    ∧ ((validate_logger_documentation whitelist docco_ids code_ids).2 = true
       ∧ rest = [Success]
       ∨ (validate_logger_documentation whitelist docco_ids code_ids).2 = false
         ∧ ∃ e items, rest = e :: (Item <$> items) ∧ is_error e = true).
Proof.
  destruct validate_report as (ws & rest & Hout & Hws & Hrest).
  exists ws, rest. split; [done|]. split; [|done].
  eapply Forall_impl; [exact Hws|]. by intros d (n & _ & doc & _ & l & -> & _).
Qed.

(** X21: every warning of a report is justified: it names a whitelisted
    message that is in the code and documented, and a code label of that
    message that is not among its documented fields. *)
Theorem warnings_are_about_whitelisted_messages d :
  d ∈ (validate_logger_documentation whitelist docco_ids code_ids).1 →
  is_warning d = true →
  justified_warning whitelist docco_ids code_ids d.
Proof.
  destruct validate_report as (ws & rest & -> & Hws & Hrest).
  intros [Hin|Hin]%elem_of_app Hwarn.
  - apply (proj1 (Forall_forall _ _) Hws) in Hin
      as (n & Hn & doc & Hdoc & l & -> & Hw & Hl & Hnl).
    by exists n, l, doc.
  - exfalso. destruct Hrest as [[_ ->]|[_ (e & items & -> & He)]].
    + apply list_elem_of_singleton in Hin as ->. done.
    + apply elem_of_cons in Hin as [->|Hin]; [by destruct e|].
      apply list_elem_of_fmap in Hin as (i & -> & _). done.
Qed.

(** X27: when the code-side loop runs to its end, the names it leaves in
    [undocumented] are exactly the code-side names that are neither
    documented nor whitelisted, and the names it leaves in [overdocumented]
    are exactly the whitelisted code-side names that are documented with
    every code label among the documented fields; all that it prints are
    warnings. *)
Theorem code_loop_findings s :
  check_code_names whitelist docco_ids code_ids (sorted_keys code_ids) start = Next s →
  (∀ m, m ∈ undocumented s ↔ m ∈ dom code_ids ∧ docco_ids !! m = None ∧ m ∉ whitelist)
  ∧ (∀ m, m ∈ overdocumented s ↔ m ∈ dom code_ids ∧ full m)
  ∧ Forall (λ d, is_warning d = true) (output s).
Proof.
  intros Hs. pose proof (check_code_names_spec (sorted_keys code_ids) start) as H.
  rewrite Hs in H. destruct H as (_ & Hu & Ho & ws & Hout & Hws). simpl in *.
  split; [|split].
  - intros m. rewrite Hu, sorted_keys_elem. split; [by intros [?%elem_of_empty|?]|by right].
  - intros m. rewrite Ho, sorted_keys_elem. split; [by intros [?|[_ ?%elem_of_empty]]|by left].
  - rewrite Hout. eapply Forall_impl; [exact Hws|].
    by intros d (n & _ & doc & _ & l & -> & _).
Qed.

(** X28: when the documentation-side loop runs to its end it has printed
    nothing, and its list [missing] holds exactly the documented names that
    are neither in the code nor whitelisted, in the order of the sorted
    names; every documented field of a name that is in the code is then a
    code label. *)
Theorem doc_loop_findings out missing out' :
  check_doc_names whitelist docco_ids code_ids (sorted_keys docco_ids) ([], out)
    = Next (missing, out') →
  out' = out
  ∧ missing = filter (λ n, (n ∉ dom code_ids) ∧ (n ∉ whitelist)) (sorted_keys docco_ids)
  ∧ (∀ name documented l, docco_ids !! name = Some documented → name ∈ dom code_ids →
       l ∈ documented → l ∈ code_labels code_ids name).
Proof.
  intros Hs. pose proof (check_doc_names_spec (sorted_keys docco_ids) [] out) as H.
  rewrite Hs in H. destruct H as (-> & -> & Hp). split; [done|]. split; [done|].
  intros name documented l Hdoc Hn Hl.
  assert (name ∈ sorted_keys docco_ids) as Hk.
  { apply sorted_keys_elem, elem_of_dom. by exists documented. }
  pose proof (Hp name Hk Hn) as Hf. rewrite (lookup_total_correct _ _ _ Hdoc) in Hf.
  by apply (proj1 (Forall_forall _ _) Hf).
Qed.
(** *** The duplicate-label error *)

Local Abbreviation dup_ok := (duplicates_documented docco_ids).

Lemma dup_ok_app out d :
  dup_ok out → (∀ n l, d = ErrDuplicateLabel n l → is_Some (docco_ids !! n)) →
  dup_ok (out ++ [d]).
Proof.
  intros Hout Hd n l [?|Heq%list_elem_of_singleton]%elem_of_app; [by apply (Hout n l)|].
  by apply (Hd n l).
Qed.

Lemma check_labels_dup name documented labels seen s :
  is_Some (docco_ids !! name) → dup_ok (output s) →
  match check_labels whitelist name documented labels seen s with
  | Next s' => dup_ok (output s')
  | Halt out => dup_ok out
  end.
Proof.
  intros Hname. revert seen s. induction labels as [|l labels IH]; intros seen s Hs; simpl.
  - done.
  - destruct (decide (l ∈ seen)).
    { apply dup_ok_app; [done|]. by intros n l' [= -> _]. }
    destruct (decide (l ∈ documented)); [by apply IH|].
    destruct (decide (name ∈ whitelist)).
    + apply IH. simpl. by apply dup_ok_app.
    + by apply dup_ok_app.
Qed.

Lemma check_code_names_dup names s :
  dup_ok (output s) →
  match check_code_names whitelist docco_ids code_ids names s with
  | Next s' => dup_ok (output s')
  | Halt out => dup_ok out
  end.
Proof.
  revert s. induction names as [|name names IH]; intros s Hs; simpl; [done|].
  assert (match check_code_name whitelist docco_ids code_ids name s with
          | Next s' => dup_ok (output s')
          | Halt out => dup_ok out
          end) as H1.
  { unfold check_code_name. destruct (docco_ids !! name) as [documented|] eqn:Hdoc.
    - apply check_labels_dup; [by rewrite Hdoc|]. by destruct (decide (name ∈ whitelist)).
    - by destruct (decide (name ∈ whitelist)). }
  destruct (check_code_name whitelist docco_ids code_ids name s); [by apply IH|done].
Qed.

Lemma check_fields_dup name labels fields out :
  dup_ok out →
  match check_fields name labels fields out with
  | Next out' => dup_ok out'
  | Halt out' => dup_ok out'
  end.
Proof.
  intros Hout. induction fields as [|l fields IH]; simpl; [done|].
  destruct (decide (l ∈ labels)); [done|]. by apply dup_ok_app.
Qed.

Lemma check_doc_names_dup names s :
  dup_ok s.2 →
  match check_doc_names whitelist docco_ids code_ids names s with
  | Next s' => dup_ok s'.2
  | Halt out' => dup_ok out'
  end.
Proof.
  revert s. induction names as [|name names IH]; intros s Hs; cbn [check_doc_names]; [done|].
  assert (match check_doc_name whitelist docco_ids code_ids name s with
          | Next s' => dup_ok s'.2
          | Halt out' => dup_ok out'
          end) as H1.
  { unfold check_doc_name. destruct s as [missing out]. simpl in Hs.
    repeat case_decide; [done|done|].
    pose proof (check_fields_dup name (code_labels code_ids name) (docco_ids !!! name) out Hs).
    by destruct (check_fields name _ _ out). }
  destruct (check_doc_name whitelist docco_ids code_ids name s); [by apply IH|done].
Qed.

Lemma validate_dup :
  dup_ok (validate_logger_documentation whitelist docco_ids code_ids).1.
Proof.
  unfold validate_logger_documentation.
  pose proof (check_code_names_dup (sorted_keys code_ids) (Findings ∅ ∅ [])) as H1.
  destruct (check_code_names whitelist docco_ids code_ids _ _) as [s|out].
  2:{ apply H1. by intros n l ?%elem_of_nil. }
  assert (dup_ok (output s)) as Hs by (apply H1; by intros n l ?%elem_of_nil).
  assert (∀ e items, (∀ n l, e ≠ ErrDuplicateLabel n l) →
            dup_ok (output s ++ e :: (Item <$> items))) as Hreport.
  { intros e items He n l [?|[?|Hin]%elem_of_cons]%elem_of_app.
    - by apply (Hs n l).
    - by destruct (He n l).
    - by apply list_elem_of_fmap in Hin as (? & ? & _). }
  destruct (decide (size (undocumented s) ≠ 0)); [by apply Hreport|].
  destruct (decide (size (overdocumented s) ≠ 0)); [by apply Hreport|].
  pose proof (check_doc_names_dup (sorted_keys docco_ids) ([], output s) Hs) as H2.
  destruct (check_doc_names whitelist docco_ids code_ids _ _) as [[missing out]|out]; [|done].
  destruct (decide (0 < length missing)); by apply dup_ok_app.
Qed.

(** C10: a code-side name without documentation is added to the
    undocumented set, or passed over when whitelisted, whatever its labels
    are -- repeated ones included.  In the loop body: the outcome for such
    a name is fixed without a look at its record.  In the run: when the
    code-side loop ends, the name is in [undocumented] exactly if it is not
    whitelisted, and never in [overdocumented]; a name that is not
    whitelisted makes the verdict False and, the loop having ended, is
    listed in the report; the report and the verdict do not depend on the
    record stored under the name; and no duplicate-label error is ever
    printed for it. *)
Theorem C10_undocumented_name_labels_unread name :
  docco_ids !! name = None →
  (∀ s, check_code_name whitelist docco_ids code_ids name s =
        Next (if decide (name ∈ whitelist) then s
              else Findings ({[name]} ∪ undocumented s) (overdocumented s) (output s)))
  ∧ (∀ m m',
       validate_logger_documentation whitelist docco_ids (<[name := m]> code_ids)
       = validate_logger_documentation whitelist docco_ids (<[name := m']> code_ids))
  ∧ (name ∈ dom code_ids → ∀ s,
       check_code_names whitelist docco_ids code_ids (sorted_keys code_ids) start = Next s →
       (name ∈ undocumented s ↔ name ∉ whitelist)
       ∧ (name ∉ overdocumented s)
       ∧ (name ∉ whitelist →
            Item name ∈ (validate_logger_documentation whitelist docco_ids code_ids).1))
  ∧ (name ∈ dom code_ids → name ∉ whitelist →
       (validate_logger_documentation whitelist docco_ids code_ids).2 = false)
  ∧ (∀ l, ErrDuplicateLabel name l
          ∉ (validate_logger_documentation whitelist docco_ids code_ids).1).
Proof.
  intros Hdoc.
  assert (name ∈ dom code_ids → ∀ s,
            check_code_names whitelist docco_ids code_ids (sorted_keys code_ids) start = Next s →
            (name ∈ undocumented s ↔ name ∉ whitelist) ∧ name ∉ overdocumented s) as Hloop.
  { intros Hn s Hs.
    pose proof (check_code_names_spec (sorted_keys code_ids) start) as H.
    rewrite Hs in H. destruct H as (_ & Hu & Ho & _). simpl in Hu, Ho. split.
    - rewrite Hu, sorted_keys_elem. split.
      + by intros [?%elem_of_empty|(_ & _ & ?)].
      + intros Hw. by right.
    - rewrite Ho. intros [(_ & _ & doc & Hd & _)|[_ ?%elem_of_empty]]; [congruence|done]. }
  split; [|split; [|split; [|split]]].
  - intros s. unfold check_code_name. rewrite Hdoc. by case_decide.
  - intros m m'. by apply validate_record_unread.
  - intros Hn s Hs. destruct (Hloop Hn s Hs) as [Hu Ho]. split; [done|]. split; [done|].
    intros Hw. apply Hu in Hw. unfold validate_logger_documentation. fold start. rewrite Hs.
    rewrite decide_True by (apply size_nonzero; set_solver). simpl.
    apply elem_of_app. right. right. apply list_elem_of_fmap. exists name. split; [done|].
    unfold sorted_set, sorted. rewrite merge_sort_Permutation. by apply elem_of_elements.
  - intros Hn Hw. unfold validate_logger_documentation. fold start.
    destruct (check_code_names whitelist docco_ids code_ids (sorted_keys code_ids) start)
      as [s|out] eqn:Hs; [|done].
    destruct (Hloop Hn s eq_refl) as [Hu _]. apply Hu in Hw.
    by rewrite decide_True by (apply size_nonzero; set_solver).
  - intros l Hin. apply validate_dup in Hin as [x Hx]. congruence.
Qed.
End Verdict.

(** C10 at an undocumented message whose label is repeated. *)
Lemma C10_undocumented_name_labels_unread_witness :
  check_code_name ∅ c10_docco (<["A" := call_message "A" "x,x"]> c10_code) "A" start
    = Next (Findings {["A"]} ∅ [])
  ∧ validate_logger_documentation ∅ c10_docco (<["A" := call_message "A" "x,x"]> c10_code)
    = validate_logger_documentation ∅ c10_docco (<["A" := call_message "A" "x"]> c10_code)
  ∧ (∀ s, check_code_names ∅ c10_docco (<["A" := call_message "A" "x,x"]> c10_code)
            (sorted_keys (<["A" := call_message "A" "x,x"]> c10_code)) start = Next s →
          "A" ∈ undocumented s ∧ "A" ∉ overdocumented s)
  ∧ validate_logger_documentation ∅ c10_docco (<["A" := call_message "A" "x,x"]> c10_code)
    = ([ErrUndocumented; Item "A"], false)
  ∧ (∀ l, ErrDuplicateLabel "A" l
          ∉ (validate_logger_documentation ∅ c10_docco
               (<["A" := call_message "A" "x,x"]> c10_code)).1).
Proof.
  destruct (C10_undocumented_name_labels_unread ∅ c10_docco c10_code "A") as (_ & H2 & _).
  { vm_compute. reflexivity. }
  destruct (C10_undocumented_name_labels_unread ∅ c10_docco
              (<["A" := call_message "A" "x,x"]> c10_code) "A") as (H1 & _ & H3 & H4 & H5).
  { vm_compute. reflexivity. }
  split; [rewrite H1; vm_compute; reflexivity|]. split; [apply H2|].
  split; [|split; [vm_compute; reflexivity|exact H5]].
  intros s Hs. destruct (H3 ltac:(set_solver) s Hs) as (Hu & Ho & _).
  split; [apply Hu; set_solver|exact Ho].
Defined.

Lemma warnings_are_about_whitelisted_messages_witness :
  justified_warning c2_whitelist c2_docco c2_code (WarnNotDocumented "W" "C" ["A"; "B"]).
Proof.
  apply warnings_are_about_whitelisted_messages.
  - rewrite c2_run. left.
  - reflexivity.
Defined.

Lemma code_loop_findings_witness :
  (∀ m, m ∈ undocumented (Findings {["A"]} {["W"]} [])
        ↔ m ∈ dom c1_code ∧ c1_docco !! m = None ∧ m ∉ c1_whitelist)
  ∧ (∀ m, m ∈ overdocumented (Findings {["A"]} {["W"]} [])
          ↔ m ∈ dom c1_code ∧ fully_documented c1_whitelist c1_docco c1_code m)
  ∧ Forall (λ d, is_warning d = true) (output (Findings {["A"]} {["W"]} [])).
Proof. apply code_loop_findings. vm_compute. reflexivity. Defined.

Lemma doc_loop_findings_witness :
  [] = ([] : list diag)
  ∧ ["B"] = filter (λ n, (n ∉ dom c1_code) ∧ (n ∉ c1_whitelist)) (sorted_keys c1_docco)
  ∧ (∀ name documented l, c1_docco !! name = Some documented → name ∈ dom c1_code →
       l ∈ documented → l ∈ code_labels c1_code name).
Proof. apply doc_loop_findings. vm_compute. reflexivity. Defined.

(** ** What the cross-reference reads of the code-side records *)

Section Labels.
Context (whitelist : gset string) (docco_ids : gmap string (list string))
        (code1 code2 : gmap string message).
Hypothesis same_labels : labels_of code1 = labels_of code2.

Lemma same_dom : dom code1 = dom code2.
Proof.
  apply (f_equal dom) in same_labels. unfold labels_of in same_labels.
  by rewrite !dom_fmap_L in same_labels.
Qed.

Lemma same_code_labels name : code_labels code1 name = code_labels code2 name.
Proof.
  unfold code_labels. f_equal.
  assert (labels_of code1 !! name = labels_of code2 !! name) as H by by rewrite same_labels.
  unfold labels_of in H. rewrite !lookup_fmap in H. rewrite !lookup_total_alt.
  destruct (code1 !! name), (code2 !! name); simpl in *; congruence.
Qed.

Lemma check_code_names_same names s :
  check_code_names whitelist docco_ids code1 names s
  = check_code_names whitelist docco_ids code2 names s.
Proof.
  revert s. induction names as [|n names IH]; intros s; [done|]. simpl.
  unfold check_code_name. rewrite same_code_labels.
  destruct (docco_ids !! n); [|by destruct (decide (n ∈ whitelist))].
  destruct (check_labels _ _ _ _ _ _); [apply IH|done].
Qed.

Lemma check_doc_names_same names s :
  check_doc_names whitelist docco_ids code1 names s
  = check_doc_names whitelist docco_ids code2 names s.
Proof.
  revert s. induction names as [|n names IH]; intros s; [done|]. cbn [check_doc_names].
  assert (check_doc_name whitelist docco_ids code1 n s
          = check_doc_name whitelist docco_ids code2 n s) as ->.
  { unfold check_doc_name. by rewrite same_code_labels, same_dom. }
  destruct (check_doc_name _ _ _ _ _); [apply IH|done].
Qed.

(** X22: the cross-reference reads the names and the label lists of the
    code-side records and nothing else: two sets of records with the same
    names and labels give the same report and the same verdict, whatever
    their formats, units and multipliers are. *)
Theorem validation_reads_names_and_labels_only :
  validate_logger_documentation whitelist docco_ids code1
  = validate_logger_documentation whitelist docco_ids code2.
Proof.
  unfold validate_logger_documentation, sorted_keys.
  rewrite same_dom, check_code_names_same.
  destruct (check_code_names _ _ _ _ _) as [s|out]; [|done].
  by rewrite check_doc_names_same.
Qed.
End Labels.

Lemma validation_reads_names_and_labels_only_witness :
  validate_logger_documentation ∅ c10_docco
    (<["M" := Message "M" (Some "Qf") "T" (Some "s") (Some "F")]> ∅)
  = validate_logger_documentation ∅ c10_docco c10_code.
Proof.
  apply validation_reads_names_and_labels_only. vm_compute. reflexivity.
Defined.

(** ** The documented messages *)

Lemma append_labels name docco_ids labels fields :
  docco_ids !! name = Some labels →
  foldl (append_label name) docco_ids fields = <[name := labels ++ fields]> docco_ids.
Proof.
  revert docco_ids labels. induction fields as [|f fields IH]; intros d labels Hl; simpl.
  - by rewrite app_nil_r, insert_id.
  - rewrite (IH _ (labels ++ [f])).
    + unfold append_label. rewrite <-app_assoc. simpl.
      apply map_eq. intros k. destruct (decide (k = name)) as [->|Hne].
      * by rewrite !lookup_insert_eq.
      * by rewrite !lookup_insert_ne, lookup_alter_ne by done.
    + unfold append_label. by rewrite lookup_alter_eq, Hl.
Qed.

Lemma load_elements_cons whitelist thing things docco_ids :
  load_elements whitelist (thing :: things) docco_ids =
  if decide (has_doc_fields whitelist thing)
  then load_elements whitelist things (<[lf_name thing := lf_fields thing]> docco_ids)
  else NoDocFields (lf_name thing).
Proof.
  cbn [load_elements]. unfold has_doc_fields.
  destruct (lf_fields thing) as [|f fields] eqn:Hf.
  - destruct (decide (lf_name thing ∈ whitelist)).
    + rewrite decide_True by by right. done.
    + rewrite decide_False; [done|]. by intros [?|?].
  - rewrite decide_True by by left.
    rewrite (append_labels _ _ []) by by rewrite lookup_insert_eq.
    by rewrite insert_insert_eq.
Qed.

Lemma last_fields_cons thing things name :
  last_fields (thing :: things) name =
  match last_fields things name with
  | Some fields => Some fields
  | None => if decide (lf_name thing = name) then Some (lf_fields thing) else None
  end.
Proof.
  unfold last_fields. rewrite filter_cons.
  destruct (decide (lf_name thing = name)); [|by destruct (last _)].
  rewrite last_cons. by destruct (last _).
Qed.

Lemma load_elements_spec whitelist things docco_ids :
  match load_elements whitelist things docco_ids with
  | Loaded docco_ids' =>
      Forall (has_doc_fields whitelist) things
      ∧ ∀ name, docco_ids' !! name =
          match last_fields things name with
          | Some fields => Some fields
          | None => docco_ids !! name
          end
  | NoDocFields name =>
      ∃ pre thing post, things = pre ++ thing :: post
        ∧ Forall (has_doc_fields whitelist) pre
        ∧ ¬ has_doc_fields whitelist thing ∧ lf_name thing = name
  | NoLogformat => False
  end.
Proof.
  revert docco_ids. induction things as [|thing things IH]; intros d.
  - simpl. split; [done|]. done.
  - rewrite load_elements_cons.
    destruct (decide (has_doc_fields whitelist thing)) as [Hok|Hok].
    + specialize (IH (<[lf_name thing := lf_fields thing]> d)).
      destruct (load_elements whitelist things _) as [d'|name|].
      * destruct IH as [Hall Hd']. split; [by constructor|].
        intros name. rewrite Hd', last_fields_cons.
        destruct (last_fields things name); [done|].
        destruct (decide (lf_name thing = name)) as [<-|Hne].
        -- by rewrite lookup_insert_eq.
        -- by rewrite lookup_insert_ne.
      * destruct IH as (pre & thing' & post & -> & Hpre & Hbad & Hname).
        exists (thing :: pre), thing', post. split; [done|]. split; [by constructor|done].
      * done.
    + exists [], thing, things. done.
Qed.

Lemma load_docco_ids_elements whitelist things :
  things ≠ [] → load_docco_ids whitelist things = load_elements whitelist things ∅.
Proof. by destruct things. Qed.

Lemma first_without_fields_unique whitelist (pre pre' : list logformat) thing thing' post post' :
  pre ++ thing :: post = pre' ++ thing' :: post' →
  Forall (has_doc_fields whitelist) pre → ¬ has_doc_fields whitelist thing →
  Forall (has_doc_fields whitelist) pre' → ¬ has_doc_fields whitelist thing' →
  thing = thing'.
Proof.
  revert pre'. induction pre as [|x pre IH]; intros [|x' pre']; simpl.
  - by intros [= -> _].
  - intros [= -> _] _ Hbad [Hx _]%Forall_cons _. done.
  - intros [= -> _] [Hx _]%Forall_cons _ _ Hbad. done.
  - intros [= -> Heq] [_ Hpre]%Forall_cons Hbad [_ Hpre']%Forall_cons Hbad'. by eapply IH.
Qed.

Lemma load_elements_stops whitelist things docco_ids name :
  load_elements whitelist things docco_ids = NoDocFields name
  ↔ ∃ pre thing post, things = pre ++ thing :: post
      ∧ Forall (has_doc_fields whitelist) pre
      ∧ ¬ has_doc_fields whitelist thing ∧ lf_name thing = name.
Proof.
  pose proof (load_elements_spec whitelist things docco_ids) as H.
  destruct (load_elements whitelist things docco_ids) as [d'|name'|].
  - destruct H as [Hall _]. split; [done|].
    intros (pre & thing & post & -> & _ & Hbad & _).
    apply Forall_app in Hall as [_ [? _]%Forall_cons]. done.
  - destruct H as (pre & thing & post & -> & Hpre & Hbad & <-). split.
    + intros [= <-]. by exists pre, thing, post.
    + intros (pre' & thing' & post' & Heq & Hpre' & Hbad' & <-).
      by rewrite (first_without_fields_unique _ _ _ _ _ _ _ Heq Hpre Hbad Hpre' Hbad').
  - done.
Qed.

(** X23: the documented messages are loaded exactly when there is a
    [logformat] element and every one has at least one field or a
    whitelisted name; the result then maps each name that occurs to the
    fields of the last element of that name (for a whitelisted element
    without field, to no field at all) and holds no other name.  Without
    any [logformat] element, and only then, [tree.logformat] raises. *)
Theorem load_docco_ids_keeps_last_element whitelist things docco_ids :
  (load_docco_ids whitelist things = Loaded docco_ids
   ↔ things ≠ [] ∧ Forall (has_doc_fields whitelist) things
     ∧ ∀ name, docco_ids !! name = last_fields things name)
  ∧ (load_docco_ids whitelist things = NoLogformat ↔ things = []).
Proof.
  destruct things as [|thing things]; [by split; split; [|intros [? _]| |]|].
  rewrite load_docco_ids_elements by done.
  pose proof (load_elements_spec whitelist (thing :: things) ∅) as H.
  destruct (load_elements whitelist (thing :: things) ∅) as [d'|name|]; [| |done].
  - destruct H as [Hall Hd']. split; [|done]. split.
    + intros [= <-]. split; [done|]. split; [done|]. intros name. rewrite Hd', lookup_empty.
      by destruct (last_fields (thing :: things) name).
    + intros (_ & _ & Hd). f_equal. apply map_eq. intros name. rewrite Hd, Hd', lookup_empty.
      by destruct (last_fields (thing :: things) name).
  - destruct H as (pre & thing' & post & Heq & _ & Hbad & _). split; [|done]. split; [done|].
    intros (_ & Hall & _). rewrite Heq in Hall.
    apply Forall_app in Hall as [_ [? _]%Forall_cons]. done.
Qed.

(** X24: the load stops at the first [logformat] element that has no field
    and whose name is not whitelisted, and reports the name of that
    element; later elements are not looked at.  This holds of the loop over
    the elements, whatever has been loaded before it, and of the load as a
    whole. *)
Theorem load_docco_ids_stops_at_first_element_without_fields whitelist things name :
  (∀ docco_ids,
     load_elements whitelist things docco_ids = NoDocFields name
     ↔ ∃ pre thing post, things = pre ++ thing :: post
         ∧ Forall (has_doc_fields whitelist) pre
         ∧ ¬ has_doc_fields whitelist thing ∧ lf_name thing = name)
  ∧ (load_docco_ids whitelist things = NoDocFields name
     ↔ ∃ pre thing post, things = pre ++ thing :: post
         ∧ Forall (has_doc_fields whitelist) pre
         ∧ ¬ has_doc_fields whitelist thing ∧ lf_name thing = name).
Proof.
  split; [intros docco_ids; apply load_elements_stops|].
  destruct things as [|thing things].
  - split; [done|]. by intros ([|? ?] & ? & ? & ? & _).
  - rewrite load_docco_ids_elements by done. apply load_elements_stops.
Qed.

(** ** The statements that the call-site scan collects *)

Lemma strip_prefix_app_l needle a b r :
  strip_prefix needle a = Some r → strip_prefix needle (a +:+ b) = Some (r +:+ b).
Proof.
  intros ->%strip_prefix_inv. by rewrite str_app_assoc, strip_prefix_app.
Qed.

Lemma contains_prefix needle s r : strip_prefix needle s = Some r → contains needle s = true.
Proof. destruct s; cbn [contains]; by intros ->. Qed.

Lemma contains_app_l needle a b : contains needle a = true → contains needle (a +:+ b) = true.
Proof.
  induction a as [|c a IH].
  - cbn [contains]. destruct (strip_prefix needle "") as [r|] eqn:Hp; [|done].
    intros _. apply (contains_prefix _ _ (r +:+ b)).
    by apply (strip_prefix_app_l needle "" b r).
  - rewrite contains_cons.
    destruct (strip_prefix needle (String c a)) as [r|] eqn:Hp.
    + intros _. apply (contains_prefix _ _ (r +:+ b)).
      by apply (strip_prefix_app_l needle (String c a) b r).
    + intros H. rewrite app_cons, contains_cons, IH by done. by case_match.
Qed.

Lemma contains_app_r_true needle a b :
  contains needle b = true → contains needle (a +:+ b) = true.
Proof.
  intros H. induction a as [|c a IH]; [done|].
  rewrite app_cons, contains_cons, IH. by case_match.
Qed.

Lemma terminator_contains line : matches re_terminator line = true → contains ");" line = true.
Proof.
  intros Hm. unfold matches in Hm. apply bool_decide_eq_true in Hm as [m Hm].
  apply re_match_sound in Hm as (a & rest & -> & H).
  unfold re_terminator in H. lang_inv.
  apply contains_app_l, contains_app_r_true. done.
Qed.

(** Comment removal leaves a text without slash as it is, and goes on
    after it. *)
Lemma sub_comment_prefix p rest :
  contains "/" p = false →
  re_sub re_comment "" (p +:+ rest) = p +:+ re_sub re_comment "" rest.
Proof.
  unfold re_sub. induction p as [|c p IH]; [done|].
  rewrite contains_sep_cons. intros [Hc Hp]%orb_false_iff.
  rewrite !app_cons. cbn [sub_go].
  assert (match_len re_comment (String c (p +:+ rest)) = None) as ->.
  { unfold match_len, match_at, re_comment. cbn [rmatch]. simpl. by rewrite Hc. }
  by rewrite IH.
Qed.

Lemma spaces_no_sep w : all_chars is_space w = true → contains "/" w = false.
Proof.
  induction w as [|c w IH]; [done|]. cbn [all_chars]. intros [Hc Hw]%andb_true_iff.
  rewrite contains_sep_cons, IH by done.
  destruct (Ascii.eqb_spec "/" c) as [<-|]; done.
Qed.

Lemma opening_line_stripped line :
  matches re_call_open_ap line || matches re_call_open_logger line = true →
  ∃ w, opens_call w (re_sub re_comment "" line).
Proof.
  intros H.
  assert (∃ w callee rest, line = w +:+ callee +:+ "(" +:+ rest
            ∧ all_chars is_space w = true ∧ callee ∈ call_forms)
    as (w & callee & rest & -> & Hw & Hc).
  { apply orb_true_iff in H as [H|H].
    - by apply (call_open_shape re_call_open_ap); [left|].
    - by apply (call_open_shape re_call_open_logger); [right|]. }
  exists w, callee, (re_sub re_comment "" rest). split; [|done].
  rewrite (sub_comment_prefix w) by by apply spaces_no_sep.
  rewrite (sub_comment_prefix callee).
  - by rewrite (sub_comment_prefix "(").
  - unfold call_forms in Hc. apply list_elem_of_In in Hc. simpl in Hc.
    destruct Hc as [<-|[<-|[<-|[<-|[]]]]]; done.
Qed.

Lemma callsite_line_inv st line :
  call_scan_inv st →
  call_scan_inv (callsite_line st line)
  ∧ ∃ new, log_write_statements (callsite_line st line) = log_write_statements st ++ new
      ∧ Forall is_call_statement new.
Proof.
  intros Hinv. unfold callsite_line.
  destruct (call_state st) eqn:Hst.
  - destruct (matches re_call_open_ap line || matches re_call_open_logger line) eqn:Hm.
    + split; [|exists []; by rewrite app_nil_r]. intros _. simpl.
      by apply opening_line_stripped.
    + split; [done|exists []; by rewrite app_nil_r].
  - destruct (Hinv Hst) as (w & callee & rest & Heq & Hw & Hc).
    set (line' := re_sub re_string_concat "" (re_sub re_comment "" line)).
    destruct (matches re_terminator line') eqn:Hm.
    + split; [done|]. simpl. eexists [_]. split; [done|]. constructor; [|done].
      exists w, callee, (rest +:+ line'). split; [by rewrite Heq, !str_app_assoc|].
      split; [done|]. split; [done|]. by apply contains_app_r_true, terminator_contains.
    + split; [|exists []; by rewrite app_nil_r]. intros _. simpl.
      exists w, callee, (rest +:+ line'). split; [by rewrite Heq, !str_app_assoc|]. done.
Qed.

Lemma callsite_lines_inv lines st :
  call_scan_inv st →
  call_scan_inv (callsite_lines lines st)
  ∧ ∃ new, log_write_statements (callsite_lines lines st) = log_write_statements st ++ new
      ∧ Forall is_call_statement new.
Proof.
  unfold callsite_lines. revert st. induction lines as [|line lines IH]; intros st Hinv; simpl.
  - split; [done|]. exists []. by rewrite app_nil_r.
  - destruct (callsite_line_inv st line Hinv) as (Hinv1 & new1 & Hn1 & Hf1).
    destruct (IH _ Hinv1) as (Hinv2 & new2 & Hn2 & Hf2).
    split; [done|]. exists (new1 ++ new2). split; [by rewrite Hn2, Hn1, app_assoc|].
    by apply Forall_app.
Qed.

Lemma callsite_files_scan_inv files st st' :
  call_state st = STATE_OUTSIDE →
  callsite_files_scan files st = Ok st' →
  call_state st' = STATE_OUTSIDE
  ∧ ∃ new, log_write_statements st' = log_write_statements st ++ new
      ∧ Forall is_call_statement new.
Proof.
  revert st. induction files as [|f files IH]; intros st Hst; simpl.
  - intros [= <-]. split; [done|]. exists []. by rewrite app_nil_r.
  - unfold callsite_file at 1.
    destruct (callsite_lines_inv f (CallScan (call_state st) "" (log_write_statements st)))
      as (_ & new1 & Hn1 & Hf1).
    { intros H. simpl in H. congruence. }
    destruct (decide (call_state (callsite_lines f _) ≠ STATE_OUTSIDE)) as [|Hout]; [done|].
    apply dec_stable in Hout. simpl. intros H.
    destruct (IH _ Hout H) as (Hst' & new2 & Hn2 & Hf2).
    split; [done|]. exists (new1 ++ new2). split; [by rewrite Hn2, Hn1, app_assoc|].
    by apply Forall_app.
Qed.

(** X25: every statement that the call-site scan returns begins, after
    white space, with one of the four call forms and an opening
    parenthesis, and holds the statement terminator somewhere after it. *)
Theorem collected_statements_are_call_statements files statements :
  callsite_files files = Ok statements → Forall is_call_statement statements.
Proof.
  unfold callsite_files.
  destruct (callsite_files_scan files _) as [st|] eqn:H; [|done]. simpl. intros [= <-].
  apply callsite_files_scan_inv in H as (_ & new & -> & Hnew); done.
Qed.

Lemma collected_statements_are_call_statements_witness :
  Forall is_call_statement [name_statement].
Proof.
  apply (collected_statements_are_call_statements [c3_unsplit]). vm_compute. reflexivity.
Defined.

(** ** A call that begins in the first column *)

(** A define name does not begin inside a run of letters and digits that a
    character outside [\w] ends. *)
Lemma define_name_not_at a seg c rest :
  all_chars is_word a = true → contains "_" a = true →
  all_chars is_alnum seg = true → is_word c = false →
  strip_prefix a (seg +:+ String c rest) = None.
Proof.
  revert a. induction seg as [|e seg IH]; intros [|d a]; try done.
  - cbn [all_chars]. intros [Hd _]%andb_true_iff _ _ Hc.
    change ("" +:+ String c rest) with (String c rest). cbn [strip_prefix].
    destruct (Ascii.eqb_spec d c) as [->|]; [congruence|done].
  - cbn [all_chars]. intros [Hd Ha]%andb_true_iff Hu [He Hseg]%andb_true_iff Hc.
    rewrite app_cons. cbn [strip_prefix].
    destruct (Ascii.eqb_spec d e) as [->|]; [|done].
    apply IH; [done| |done|done].
    rewrite contains_cons in Hu. cbn [strip_prefix] in Hu.
    unfold is_alnum in He. apply andb_true_iff in He as [_ He].
    apply negb_true_iff in He. rewrite Ascii.eqb_sym in He. by rewrite He in Hu.
Qed.

Lemma sub_literal_segment a b seg c rest :
  all_chars is_word a = true → contains "_" a = true →
  all_chars is_alnum seg = true → is_word c = false →
  re_sub (Lit a) b (seg +:+ String c rest) = seg +:+ String c (re_sub (Lit a) b rest).
Proof.
  intros Ha Hu Hseg Hc. unfold re_sub.
  assert (∀ seg', all_chars is_alnum seg' = true →
            match_len (Lit a) (seg' +:+ String c rest) = None) as Hnone.
  { intros seg' Hseg'. unfold match_len, match_at. cbn [rmatch].
    by rewrite define_name_not_at. }
  induction seg as [|e seg IH].
  - pose proof (Hnone "" eq_refl) as Hm.
    change ("" +:+ String c rest) with (String c rest) in *. cbn [sub_go].
    by rewrite Hm.
  - pose proof (Hnone (String e seg) Hseg) as Hm. rewrite app_cons in *. cbn [sub_go].
    rewrite Hm. cbn [all_chars] in Hseg. apply andb_true_iff in Hseg as [_ Hseg].
    by rewrite IH.
Qed.

Lemma apply_defines_segment defines seg c rest :
  (∀ a b, (a, b) ∈ defines → all_chars is_word a = true ∧ contains "_" a = true) →
  all_chars is_alnum seg = true → is_word c = false →
  apply_defines defines (seg +:+ String c rest)
  = seg +:+ String c (apply_defines defines rest).
Proof.
  intros Hd Hseg Hc. revert rest. induction defines as [|[a b] defines IH]; intros rest; [done|].
  simpl. destruct (Hd a b) as [Ha Hu]; [left|].
  rewrite sub_literal_segment by done. apply IH. intros a' b' Hin. apply (Hd a' b'). by right.
Qed.

Lemma defines_have_underscore lines defines a b :
  find_format_defines lines = Ok defines → (a, b) ∈ defines →
  all_chars is_word a = true ∧ contains "_" a = true.
Proof.
  intros Hok Hin.
  pose proof (find_format_defines_go_spec lines [] (NoDup_nil_2)) as H.
  unfold find_format_defines in Hok. rewrite Hok in H. destruct H as [-> _].
  simpl in Hin. apply list_elem_of_omap in Hin as (line & _ & Hd).
  unfold define_of in Hd. destruct (re_match re_define line) as [m|] eqn:Hm; [|done].
  injection Hd as <- <-.
  apply re_define_groups in Hm as [(stem & suffix & -> & Hstem & _ & Hsuf) _]. split.
  - rewrite !all_chars_app, Hstem. apply list_elem_of_In in Hsuf. simpl in Hsuf.
    destruct Hsuf as [<-|[<-|[<-|[<-|[]]]]]; done.
  - apply contains_app_r_true. by apply (contains_prefix _ _ suffix), (strip_prefix_app "_").
Qed.

Lemma squeeze_prefix p rest :
  all_chars (λ c, negb (is_space c)) p = true →
  squeeze false (p +:+ rest) = p +:+ squeeze false rest.
Proof.
  induction p as [|c p IH]; [done|]. cbn [all_chars]. intros [Hc Hp]%andb_true_iff.
  apply negb_true_iff in Hc. rewrite !app_cons. cbn [squeeze]. by rewrite Hc, IH.
Qed.

Lemma first_column_rejected defines callee rest :
  (∀ a b, (a, b) ∈ defines → all_chars is_word a = true ∧ contains "_" a = true) →
  callee ∈ call_forms →
  call_record defines (collapse_whitespace (callee +:+ "(" +:+ rest))
  = Raise (DidNotMatch (apply_defines defines (collapse_whitespace (callee +:+ "(" +:+ rest)))).
Proof.
  intros Hd Hc. unfold call_forms in Hc. apply list_elem_of_In in Hc. simpl in Hc.
  rewrite collapse_whitespace_squeeze.
  assert (∃ seg c rest', squeeze false (callee +:+ "(" +:+ rest) = seg +:+ String c rest'
            ∧ all_chars is_alnum seg = true ∧ is_word c = false
            ∧ strip_prefix " " seg = None ∧ seg ≠ "")
    as (seg & c & rest' & Heq & Hseg & Hcw & Hsp & Hne).
  { destruct Hc as [<-|[<-|[<-|[<-|[]]]]].
    - exists "AP", ":"%char, (":logger().Write" +:+ squeeze false ("(" +:+ rest)).
      split; [by rewrite squeeze_prefix by (vm_compute; reflexivity)|].
      repeat split; vm_compute; congruence.
    - exists "AP", ":"%char, (":logger().WriteStreaming" +:+ squeeze false ("(" +:+ rest)).
      split; [by rewrite squeeze_prefix by (vm_compute; reflexivity)|].
      repeat split; vm_compute; congruence.
    - exists "logger", "."%char, ("Write" +:+ squeeze false ("(" +:+ rest)).
      split; [by rewrite squeeze_prefix by (vm_compute; reflexivity)|].
      repeat split; vm_compute; congruence.
    - exists "logger", "."%char, ("WriteStreaming" +:+ squeeze false ("(" +:+ rest)).
      split; [by rewrite squeeze_prefix by (vm_compute; reflexivity)|].
      repeat split; vm_compute; congruence. }
  unfold call_record. rewrite Heq, apply_defines_segment by done.
  assert (∀ t, strip_prefix " " (seg +:+ t) = None) as Hfirst.
  { intros t. destruct seg as [|e seg]; [done|]. rewrite app_cons. simpl in *.
    by destruct (Ascii.eqb " " e). }
  assert (∀ r t, (r = re_call_logger ∨ r = re_call_ap) → re_match r (seg +:+ t) = None) as Hm.
  { intros r t Hr. unfold re_match, match_at.
    destruct Hr as [-> | ->]; unfold re_call_logger, re_call_ap; cbn [rmatch].
    - change " logger" with (" " +:+ "logger").
      destruct seg as [|e seg]; [done|]. rewrite app_cons. simpl in *.
      by destruct (Ascii.eqb " " e).
    - change " AP::logger()" with (" " +:+ "AP::logger()").
      destruct seg as [|e seg]; [done|]. rewrite app_cons. simpl in *.
      by destruct (Ascii.eqb " " e). }
  rewrite (Hm re_call_logger) by by left. by rewrite (Hm re_call_ap) by by right.
Qed.

Lemma call_results_raise defines statements statement e :
  statement ∈ statements → call_record defines statement = Raise e →
  ∃ text, call_results defines statements = Raise (DidNotMatch text).
Proof.
  intros Hin He. induction statements as [|h statements IH]; [by inversion Hin|].
  simpl. destruct (call_record defines h) as [p|e'] eqn:Hh; simpl.
  - apply elem_of_cons in Hin as [->|Hin]; [congruence|].
    destruct (IH Hin) as [text ->]. by exists text.
  - apply call_record_raise in Hh as ->. by eexists.
Qed.

(** X26: a call statement that begins in the first column of its line is
    collected by the scan but never accepted: after the collapse of white
    space it does not begin with the space that both call grammars require,
    so the run raises the did-not-match error (the define values holding no
    backslash, so that the substitution takes them literally). *)
Theorem call_in_first_column_is_rejected lines defines callee rest statements ids :
  find_format_defines lines = Ok defines →
  (∀ a b, (a, b) ∈ defines → contains "\" b = false) →
  callee ∈ call_forms → (callee +:+ "(" +:+ rest) ∈ statements →
  matches re_call_open_ap (callee +:+ "(" +:+ rest)
    || matches re_call_open_logger (callee +:+ "(" +:+ rest) = true
  ∧ ∃ text, callsite_ids defines statements ids = Raise (DidNotMatch text).
Proof.
  intros Hdef _ Hc Hin. split.
  - unfold call_forms in Hc. apply list_elem_of_In in Hc. simpl in Hc.
    destruct Hc as [<-|[<-|[<-|[<-|[]]]]]; apply orb_true_iff;
      [left|left|right|right]; apply bool_decide_eq_true;
      unfold re_match, match_at, re_call_open_ap, re_call_open_logger; cbn;
      by eexists.
  - unfold callsite_ids.
    destruct (call_results_raise defines (collapse_whitespace <$> statements)
                (collapse_whitespace (callee +:+ "(" +:+ rest))
                (DidNotMatch (apply_defines defines
                   (collapse_whitespace (callee +:+ "(" +:+ rest))))) as [text ->].
    + apply list_elem_of_fmap. by eexists.
    + apply first_column_rejected; [|done]. intros a b. by apply (defines_have_underscore lines).
    + by exists text.
Qed.

Lemma call_in_first_column_is_rejected_witness :
  matches re_call_open_ap ("logger.Write" +:+ "(" +:+ first_column_rest)
    || matches re_call_open_logger ("logger.Write" +:+ "(" +:+ first_column_rest) = true
  ∧ ∃ text, callsite_ids [] ["logger.Write" +:+ "(" +:+ first_column_rest] ∅
            = Raise (DidNotMatch text).
Proof.
  apply (call_in_first_column_is_rejected []).
  - reflexivity.
  - by intros a b ?%elem_of_nil.
  - unfold call_forms. set_solver.
  - left.
Defined.
